(** * DisTube queue and song model

    A shallow embedding of [src/struct/Queue.ts] and [src/struct/Song.ts].

    JavaScript objects of class [Song] live in a heap and are named by
    references, so that two array slots holding the same object alias each
    other.  Methods are functions in a state-and-exception monad: a method
    either returns (with the state it leaves behind) or throws (again with
    the state at the throw).  Calls into collaborators that are not part of
    these two files (the audio player, the voice connection, the handler)
    are recorded as events and assumed to return normally.

    Numbers: the argument of [jump] and the position of [addToQueue] are
    IEEE 754 binary64 numbers as the Standard Library specifies them
    ([SpecFloat]), with [NaN], the infinities and fractions.  The repeat
    mode and the volume are integers [Z] and times are rationals [Q]: for
    these, [NaN], infinities and rounding are outside the model. *)

From Stdlib Require Import ZArith QArith Qround SpecFloat.
From stdpp Require Import base option list gmap strings.

Set Warnings "-register-all".
Local Open Scope string_scope.
Local Open Scope list_scope.
Local Open Scope Z_scope.

(** ** JavaScript values *)

Definition SongRef := positive.

Inductive JSValue :=
| JUndefined
| JNull
| JBool (b : bool)
| JNum (q : Q)
| JStr (s : string)
| JArr (l : list JSValue)
| JObj (props : list (string * JSValue))
| JSongObj (r : SongRef).

Inductive JSError :=
| Error (msg : string)
| TypeError (msg : string)
| SyntaxError (msg : string)
| RangeError (msg : string)
| ThrownValue (v : JSValue).

(** [!!v] *)
Definition truthy (v : JSValue) : bool :=
  match v with
  | JUndefined | JNull => false
  | JBool b => b
  | JNum q => negb (Qeq_bool q 0)
  | JStr s => negb (String.eqb s "")
  | JArr _ | JObj _ | JSongObj _ => true
  end.

(** [a || b] when evaluating [b] has no effect *)
Definition js_or (a b : JSValue) : JSValue := if truthy a then a else b.

Definition nullish (v : JSValue) : bool :=
  match v with JUndefined | JNull => true | _ => false end.

Fixpoint assoc (k : string) (props : list (string * JSValue)) : JSValue :=
  match props with
  | [] => JUndefined
  | (k', v) :: rest => if String.eqb k k' then v else assoc k rest
  end.

(** ** State and exceptions *)

Inductive Outcome (S A : Type) :=
| Returned (st : S) (a : A)
| Thrown (st : S) (e : JSError).
Arguments Returned {S A} st a.
Arguments Thrown {S A} st e.

Definition M (S A : Type) : Type := S → Outcome S A.

Definition ret {S A} (a : A) : M S A := λ st, Returned st a.
Definition throw {S A} (e : JSError) : M S A := λ st, Thrown st e.
Definition bind {S A B} (m : M S A) (k : A → M S B) : M S B :=
  λ st, match m st with
        | Returned st' a => k a st'
        | Thrown st' e => Thrown st' e
        end.
Definition gets {S A} (f : S → A) : M S A := λ st, Returned st (f st).
Definition modify {S} (f : S → S) : M S unit := λ st, Returned (f st) tt.
Definition when {S} (b : bool) (m : M S unit) : M S unit := if b then m else ret tt.

Declare Scope js_scope.
Delimit Scope js_scope with js.
Notation "x <- m ;; k" := (bind m (λ x, k))
  (at level 100, m at next level, right associativity) : js_scope.
Notation "m ;;; k" := (bind m (λ _, k))
  (at level 100, right associativity) : js_scope.
Local Open Scope js_scope.

Section Traversals.
Context {S A B : Type}.

(** [l.map(f)] for a callback with effects *)
Section MapM.
Variable f : A → M S B.
Fixpoint mapM (l : list A) : M S (list B) :=
  match l with
  | [] => ret []
  | x :: rest => y <- f x ;; ys <- mapM rest ;; ret (y :: ys)
  end.
End MapM.

(** [l.find(f)] *)
Section FindM.
Variable f : A → M S bool.
Fixpoint findM (l : list A) : M S (option A) :=
  match l with
  | [] => ret None
  | x :: rest => b <- f x ;; if b then ret (Some x) else findM rest
  end.
End FindM.
End Traversals.

(** ** Property access

    [deref r k] is the value of property [k] of the song object [r]. *)

Section PropertyAccess.
Context {S : Type} (deref : SongRef → string → JSValue).

(** [v[k]] *)
Definition js_get (v : JSValue) (k : string) : M S JSValue :=
  match v with
  | JUndefined | JNull =>
      throw (TypeError ("Cannot read properties of undefined or null, reading " +:+ k))
  | JObj props => ret (assoc k props)
  | JSongObj r => ret (deref r k)
  | JArr l =>
      ret (if String.eqb k "length" then JNum (inject_Z (Z.of_nat (length l)))
           else JUndefined)
  | JStr s =>
      ret (if String.eqb k "length" then JNum (inject_Z (Z.of_nat (String.length s)))
           else JUndefined)
  | JBool _ | JNum _ => ret JUndefined
  end.

(** [v?.[k]] *)
Definition js_get_opt (v : JSValue) (k : string) : M S JSValue :=
  if nullish v then ret JUndefined else js_get v k.
End PropertyAccess.

(** ** Song objects *)

Module Song.

Record t := mk {
  source : string;
  info : JSValue;
  member : JSValue;
  user : JSValue;
  id : JSValue;
  name : JSValue;
  isLive : bool;
  duration : Q;
  formattedDuration : string;
  url : JSValue;
  streamURL : JSValue;
  thumbnail : JSValue;
  related : JSValue;
  views : Q;
  likes : Q;
  dislikes : Q;
  uploader_name : JSValue;
  uploader_url : JSValue;
  age_restricted : bool;
  chapters : JSValue;
  reposts : Q;
  playlist : JSValue
}.

(** [delete s.info] *)
Definition delete_info (s : t) : t :=
  mk (source s) JUndefined (member s) (user s) (id s) (name s) (isLive s)
     (duration s) (formattedDuration s) (url s) (streamURL s) (thumbnail s)
     (related s) (views s) (likes s) (dislikes s) (uploader_name s)
     (uploader_url s) (age_restricted s) (chapters s) (reposts s) (playlist s).

(** [s[k]] for the property names of the class *)
Definition get_field (s : t) (k : string) : JSValue :=
  if String.eqb k "source" then JStr (source s)
  else if String.eqb k "info" then info s
  else if String.eqb k "member" then member s
  else if String.eqb k "user" then user s
  else if String.eqb k "id" then id s
  else if String.eqb k "name" then name s
  else if String.eqb k "isLive" then JBool (isLive s)
  else if String.eqb k "duration" then JNum (duration s)
  else if String.eqb k "formattedDuration" then JStr (formattedDuration s)
  else if String.eqb k "url" then url s
  else if String.eqb k "streamURL" then streamURL s
  else if String.eqb k "thumbnail" then thumbnail s
  else if String.eqb k "related" then related s
  else if String.eqb k "views" then JNum (views s)
  else if String.eqb k "likes" then JNum (likes s)
  else if String.eqb k "dislikes" then JNum (dislikes s)
  else if String.eqb k "uploader" then
    JObj [("name", uploader_name s); ("url", uploader_url s)]
  else if String.eqb k "age_restricted" then JBool (age_restricted s)
  else if String.eqb k "chapters" then chapters s
  else if String.eqb k "reposts" then JNum (reposts s)
  else if String.eqb k "playlist" then playlist s
  else JUndefined.

(** [h[r][k]] for a song object [r] of the heap [h] *)
Definition read (h : gmap SongRef t) (r : SongRef) (k : string) : JSValue :=
  from_option (λ s, get_field s k) JUndefined (h !! r).

Local Abbreviation heap := (gmap SongRef t).

(** Property reads against the current heap *)
Definition get (v : JSValue) (k : string) : M heap JSValue :=
  λ h, js_get (read h) v k h.
Definition get_opt (v : JSValue) (k : string) : M heap JSValue :=
  λ h, js_get_opt (read h) v k h.

(** A new object takes a reference that is not in use
    ([alloc_keeps_objects]). *)
Definition alloc (s : t) : M heap SongRef :=
  λ h, let r := fresh (dom h) in Returned (<[r := s]> h) r.

Section Construction.
(** What [Song.ts] imports: [../Util], [ytdl-core], and the built-ins
    [String.prototype.toLowerCase], template-literal conversion and
    [Array.prototype.sort] with the comparator [b.width - a.width]. *)
Variable toSecond : JSValue → Q.
Variable formatDuration : Q → string.
Variable parseNumber : JSValue → Q.
Variable toLowerCase : string → string.
Variable toString : JSValue → string.
Variable playError : JSValue → JSValue.
Variable chooseFormat : JSValue → bool → JSError + JSValue.
Variable sortByWidthDesc : list JSValue → JSError + list JSValue.

(** [_patchMember(member)] on a new object: its [member] and [user] *)
Definition _patchMember (member : JSValue) : M heap (JSValue * JSValue) :=
  if truthy member then
    u <- get_opt member "user" ;; ret (member, u)
  else ret (JUndefined, JUndefined).

(** [_patchYouTube(i)].  [map_related] is the evaluation of
    [this.info.related_videos.map(v => new Song(v))].  Reads of
    [details] cannot throw ([details] is not nullish once [info.full]
    has been read), so the operands of [||] are read up front. *)
Definition _patchYouTube (map_related : M heap JSValue) (source : string)
    (member user : JSValue) (info : JSValue) : M heap t :=
  full <- get info "full" ;;
  this_info <-
    match full with
    | JBool true =>
        pr <- get info "player_response" ;;
        let err := playError pr in
        if truthy err then throw (ThrownValue err)
        else
          formats <- get info "formats" ;;
          len <- get_opt formats "length" ;;
          if negb (truthy len) then throw (Error "This video is unavailable")
          else ret info
    | _ => ret JUndefined
    end ;;
  videoDetails <- get info "videoDetails" ;;
  let details := js_or videoDetails info in
  videoId <- get details "videoId" ;;
  d_id <- get details "id" ;;
  let id := js_or videoId d_id in
  title <- get details "title" ;;
  d_name <- get details "name" ;;
  let name := js_or title d_name in
  d_isLive <- get details "isLive" ;;
  let isLive := truthy d_isLive in
  lengthSeconds <- get details "lengthSeconds" ;;
  length_seconds <- get details "length_seconds" ;;
  d_duration <- get details "duration" ;;
  let duration :=
    if isLive then 0%Q
    else toSecond (js_or (js_or lengthSeconds length_seconds) d_duration) in
  let formattedDuration := if isLive then "Live" else formatDuration duration in
  let url := JStr ("https://www.youtube.com/watch?v=" +:+ toString id) in
  i_formats <- get_opt this_info "formats" ;;
  i_len <- get_opt i_formats "length" ;;
  streamURL <-
    (if truthy i_len then
       match chooseFormat i_formats isLive with
       | inl e => throw e
       | inr format => get format "url"
       end
     else get details "streamURL") ;;
  thumbnails <- get details "thumbnails" ;;
  widest <-
    match thumbnails with
    | JUndefined | JNull => ret JUndefined
    | JArr l =>
        match sortByWidthDesc l with
        | inl e => throw e
        | inr sorted => get (default JUndefined (head sorted)) "url"
        end
    | _ => throw (TypeError "details.thumbnails.sort is not a function")
    end ;;
  d_thumbnail <- get details "thumbnail" ;;
  thumbnail_url <- get_opt d_thumbnail "url" ;;
  let thumbnail := js_or (js_or widest thumbnail_url) d_thumbnail in
  related <-
    (if nullish this_info then
       d_related <- get details "related" ;;
       ret (js_or d_related (JArr []))
     else map_related) ;;
  viewCount <- get details "viewCount" ;;
  view_count <- get details "view_count" ;;
  d_views <- get details "views" ;;
  d_likes <- get details "likes" ;;
  d_dislikes <- get details "dislikes" ;;
  i_uploader <- get info "uploader" ;;
  author <- get details "author" ;;
  up_name <- get_opt i_uploader "name" ;;
  au_name <- get_opt author "name" ;;
  up_url <- get_opt i_uploader "url" ;;
  au_channel <- get_opt author "channel_url" ;;
  au_url <- get_opt author "url" ;;
  d_age <- get details "age_restricted" ;;
  d_chapters <- get details "chapters" ;;
  ret {| source := source;
         info := this_info;
         member := member;
         user := user;
         id := id;
         name := name;
         isLive := isLive;
         duration := duration;
         formattedDuration := formattedDuration;
         url := url;
         streamURL := streamURL;
         thumbnail := thumbnail;
         related := related;
         views := parseNumber (js_or (js_or viewCount view_count) d_views);
         likes := parseNumber d_likes;
         dislikes := parseNumber d_dislikes;
         uploader_name := js_or up_name au_name;
         uploader_url := js_or (js_or up_url au_channel) au_url;
         age_restricted := truthy d_age;
         chapters := js_or d_chapters (JArr []);
         reposts := 0%Q;
         playlist := JUndefined |}.

(** [_patchOther(info)] *)
Definition _patchOther (source : string) (member user : JSValue)
    (info : JSValue) : M heap t :=
  i_id <- get info "id" ;;
  title <- get info "title" ;;
  i_name <- get info "name" ;;
  is_live <- get info "is_live" ;;
  i_isLive <- get info "isLive" ;;
  let isLive := truthy (js_or is_live i_isLive) in
  duration_raw <- get info "_duration_raw" ;;
  i_duration <- get info "duration" ;;
  let duration := if isLive then 0%Q else toSecond (js_or duration_raw i_duration) in
  webpage_url <- get info "webpage_url" ;;
  i_url <- get info "url" ;;
  i_thumbnail <- get info "thumbnail" ;;
  i_related <- get info "related" ;;
  view_count <- get info "view_count" ;;
  i_views <- get info "views" ;;
  like_count <- get info "like_count" ;;
  i_likes <- get info "likes" ;;
  dislike_count <- get info "dislike_count" ;;
  i_dislikes <- get info "dislikes" ;;
  repost_count <- get info "repost_count" ;;
  i_reposts <- get info "reposts" ;;
  uploader <- get info "uploader" ;;
  uploader_url <- get info "uploader_url" ;;
  age_limit <- get info "age_limit" ;;
  i_chapters <- get info "chapters" ;;
  ret {| source := source;
         info := JUndefined;
         member := member;
         user := user;
         id := if truthy i_id then i_id else JUndefined;
         name := if truthy title then title
                 else if truthy i_name then i_name else JUndefined;
         isLive := isLive;
         duration := duration;
         formattedDuration := if isLive then "Live" else formatDuration duration;
         url := js_or webpage_url i_url;
         streamURL := JUndefined;
         thumbnail := i_thumbnail;
         related := js_or i_related (JArr []);
         views := parseNumber (js_or view_count i_views);
         likes := parseNumber (js_or like_count i_likes);
         dislikes := parseNumber (js_or dislike_count i_dislikes);
         uploader_name := uploader;
         uploader_url := uploader_url;
         age_restricted := truthy age_limit && Qle_bool 18 (parseNumber age_limit);
         chapters := js_or i_chapters (JArr []);
         reposts := parseNumber (js_or repost_count i_reposts);
         playlist := JUndefined |}.

(** The body of the constructor, [new Song(info, member, src =
    "youtube")], given [map_related] as in [_patchYouTube]. *)
Definition construct (map_related : M heap JSValue)
    (info member src : JSValue) : M heap SongRef :=
  match src with
  | JUndefined | JStr _ =>
      let source :=
        toLowerCase (match src with JStr s => s | _ => "youtube" end) in
      mu <- _patchMember member ;;
      s <- (if String.eqb source "youtube" then
              _patchYouTube map_related source (fst mu) (snd mu) info
            else _patchOther source (fst mu) (snd mu) info) ;;
      alloc s
  | _ => throw (TypeError "Source must be a string")
  end.

(** [new Song(info, member, src)].  The related videos of a full
    YouTube record are themselves turned into songs by the constructor;
    they are parts of [info], which is what the recursion follows: the
    inner loop finds [info.related_videos] and maps [new Song(v)] over
    it. *)
Fixpoint new (info : JSValue) (member src : JSValue) {struct info}
    : M heap SongRef :=
  construct
    match info with
    | JObj props =>
        (fix find (ps : list (string * JSValue)) : M heap JSValue :=
           match ps with
           | [] => throw (TypeError "info.related_videos.map is not a function")
           | (k, v) :: rest =>
               if String.eqb "related_videos" k then
                 match v with
                 | JArr vs =>
                     refs <- mapM (λ v, new v JUndefined JUndefined) vs ;;
                     ret (JArr (JSongObj <$> refs))
                 | _ => throw (TypeError "info.related_videos.map is not a function")
                 end
               else find rest
           end) props
    | _ => throw (TypeError "info.related_videos.map is not a function")
    end
    info member src.

(** [info.related_videos.map(v => new Song(v))] in one piece, to
    compare with the loop inside [new] *)
Definition map_related_videos (info : JSValue) : M heap JSValue :=
  related_videos <- get info "related_videos" ;;
  match related_videos with
  | JArr vs =>
      refs <- mapM (λ v, new v JUndefined JUndefined) vs ;;
      ret (JArr (JSongObj <$> refs))
  | _ => throw (TypeError "info.related_videos.map is not a function")
  end.

(** [_patchPlaylist] needs the [Playlist] class, which is not part of
    these sources, and is left out. *)
End Construction.
End Song.

Abbreviation Heap := (gmap SongRef Song.t).

(** The equality of [Array.prototype.includes].  Arrays and plain objects
    carry no identity in this model and compare as distinct. *)
Definition same_value_zero (a b : JSValue) : bool :=
  match a, b with
  | JUndefined, JUndefined | JNull, JNull => true
  | JBool x, JBool y => Bool.eqb x y
  | JNum x, JNum y => Qeq_bool x y
  | JStr x, JStr y => String.eqb x y
  | JSongObj x, JSongObj y => Pos.eqb x y
  | _, _ => false
  end.

Definition includes (x : JSValue) (l : list JSValue) : bool :=
  existsb (same_value_zero x) l.

(** [a.indexOf(x)] on an array of strings, [None] for [-1] *)
Fixpoint indexOf (x : string) (l : list string) : option nat :=
  match l with
  | [] => None
  | y :: rest => if String.eqb x y then Some O else S <$> indexOf x rest
  end.

(** ** Numbers

    A JavaScript number is an IEEE 754 binary64 value: [prec = 53] and
    [emax = 1024] in the specification of the Standard Library. *)

Module Number.

Definition t : Type := spec_float.
Definition prec : Z := 53.
Definition emax : Z := 1024.

(** The number nearest to [m × 2^e], and the number an integer is *)
Definition dyadic (m e : Z) : t := binary_normalize prec emax m e false.
Definition of_Z (z : Z) : t := dyadic z 0.
Definition of_nat (n : nat) : t := of_Z (Z.of_nat n).
Definition nan : t := S754_nan.

(** [x + y], [x - y], [-x]; [x === y], [x < y], [x > y] *)
Definition add (x y : t) : t := SFadd prec emax x y.
Definition sub (x y : t) : t := SFsub prec emax x y.
Definition opp (x : t) : t := SFopp x.
Definition eqb (x y : t) : bool := SFeqb x y.
Definition ltb (x y : t) : bool := SFltb x y.
Definition gtb (x y : t) : bool := SFltb y x.

(** The values that are numbers: a canonical mantissa and an exponent in
    range *)
Definition valid (x : t) : Prop := valid_binary prec emax x = true.

(** [ToIntegerOrInfinity(x)]: [NaN] and the zeros give 0, a finite
    number loses its fraction. *)
Inductive Integer := NegInfinity | Int (z : Z) | PosInfinity.
Definition to_integer (x : t) : Integer :=
  match x with
  | S754_nan | S754_zero _ => Int 0
  | S754_infinity s => if s then NegInfinity else PosInfinity
  | S754_finite s m e =>
      Int (cond_Zopp s (if e <? 0 then Z.pos m / 2 ^ (- e) else Z.pos m * 2 ^ e))
  end.

(** The integers that numbers hold exactly, arithmetic included *)
Definition safe (z : Z) : Prop := - 2 ^ 53 < z < 2 ^ 53.

End Number.

Arguments Number.dyadic : simpl never.
Arguments Number.of_Z : simpl never.
Arguments Number.of_nat : simpl never.
Arguments Number.add : simpl never.
Arguments Number.sub : simpl never.
Arguments Number.opp : simpl never.
Arguments Number.eqb : simpl never.
Arguments Number.ltb : simpl never.
Arguments Number.gtb : simpl never.
Arguments Number.to_integer : simpl never.

(** [m] shifted left by [n] bits, and the number that a positive integer
    [v] below 2^53 is, with sign [s]: the mantissa is [v] shifted to 53
    bits ([of_Z_normal]). *)
Definition shl (n : nat) (m : positive) : positive := Nat.iter n xO m.
Definition normal (s : bool) (v : positive) : Number.t :=
  S754_finite s (shl (Z.to_nat (53 - Z.pos (digits2_pos v))) v)
    (Z.pos (digits2_pos v) - 53).

(** ** Array primitives of JavaScript used by the queue *)

Section Arrays.
Context {A : Type}.

(** The index at which [Array.prototype.splice] starts for a relative
    start [start], an integer, on an array of length [len]. *)
Definition splice_start (start : Z) (len : nat) : nat :=
  if start <? 0 then Z.to_nat (Z.max (Z.of_nat len + start) 0)
  else Z.to_nat (Z.min start (Z.of_nat len)).

(** The same for the argument of [splice], a number that is first taken
    to an integer or an infinity. *)
Definition splice_index (start : Number.t) (len : nat) : nat :=
  match Number.to_integer start with
  | Number.NegInfinity => 0%nat
  | Number.Int z => splice_start z len
  | Number.PosInfinity => len
  end.

(** [removed = a.splice(start)]: the array keeps the elements before the
    start index, the call returns the rest.  The result is
    [(array afterwards, removed elements)]. *)
Definition splice_from (start : Number.t) (a : list A) : list A * list A :=
  let k := splice_index start (length a) in (take k a, drop k a).

(** [a.splice(start, 0, ...items)] *)
Definition splice_insert (start : Number.t) (items a : list A) : list A :=
  let k := splice_index start (length a) in take k a ++ items ++ drop k a.

(** [[a[i], a[j]] = [a[j], a[i]]] for indices inside the array.  Outside
    the array JavaScript would grow it with holes; the shuffle below never
    gets there ([shuffle_index_in_range]), and the model leaves the array
    alone in that case. *)
Definition swap (i j : nat) (a : list A) : list A :=
  match a !! i, a !! j with
  | Some x, Some y => <[j := x]> (<[i := y]> a)
  | _, _ => a
  end.

(** [a[a.length - 1]] *)
Definition last_elem (a : list A) : option A := last a.
End Arrays.

(** [Math.floor(Math.random() * (i + 1))] for the draw [r] *)
Definition random_index (r : Q) (i : nat) : nat :=
  Z.to_nat (Qfloor (r * inject_Z (Z.of_nat i + 1))).

(** The loop of [shuffle]:
    [for (let i = a.length - 1; i > 0; i--) { j = ...; swap }].
    [draws k] is the value of the [k]-th call of [Math.random]. *)
Fixpoint shuffle_loop {A} (draws : nat → Q) (k i : nat) (a : list A) : list A :=
  match i with
  | O => a
  | S i' => shuffle_loop draws (S k) i' (swap i (random_index (draws k) i) a)
  end.

(** ** The queue *)

Record Options := {
  savePreviousSongs : bool;
  leaveOnStop : bool
}.

Module DisTube.
Record t := mk {
  options : Options;
  filters : gmap string string    (* filter name ↦ ffmpeg arguments *)
}.
End DisTube.

Record AudioResource := {
  playbackDuration : N;      (* milliseconds played so far *)
  has_volume : bool          (* [volume] transformer present *)
}.

(** A numeric argument as a caller may pass it. *)
Inductive NumberArg :=
| ArgNumber (z : Z)
| ArgNull
| ArgUndefined
| ArgNotNumber.

(** The argument of [jump]: a number, any binary64 value, or a value of
    another type. *)
Inductive JumpArg :=
| Num (x : Number.t)
| NotNum.

Inductive Effect :=
| AudioPlayerPause
| AudioPlayerUnpause
| AudioPlayerStop
| ConnectionDestroy
| ConnectionsDelete (id : string)
| DeleteQueue (id : string)
| ResourceSetVolume (v : Q)
| HandlerPlaySong
| HandlerResolveSong (url : JSValue).

Module Queue.

(** The fields of the class.  [distube] is the field of the base class;
    [this.options] there is [this.distube.options].  The fields that hold
    collaborators keep what the methods use of them: whether the audio
    player and the connection are defined, and the playback position and
    volume control of the audio resource. *)
Record t := mk {
  distube : DisTube.t;
  id : string;
  audioPlayer : bool;                       (* [audioPlayer] is defined *)
  connection : bool;                        (* [connection] is defined *)
  volume : Z;
  songs : list SongRef;
  previousSongs : list SongRef;
  stopped : bool;
  next : bool;
  prev : bool;
  playing : bool;
  paused : bool;
  repeatMode : Z;
  autoplay : bool;
  filters : list string;
  beginTime : Q;
  textChannel : option string;
  audioResource : option AudioResource
}.

Definition set_volume (v : Z) (q : t) : t :=
  mk (distube q) (id q) (audioPlayer q) (connection q) v (songs q)
     (previousSongs q) (stopped q) (next q) (prev q) (playing q) (paused q)
     (repeatMode q) (autoplay q) (filters q) (beginTime q) (textChannel q)
     (audioResource q).
Definition set_songs (l : list SongRef) (q : t) : t :=
  mk (distube q) (id q) (audioPlayer q) (connection q) (volume q) l
     (previousSongs q) (stopped q) (next q) (prev q) (playing q) (paused q)
     (repeatMode q) (autoplay q) (filters q) (beginTime q) (textChannel q)
     (audioResource q).
Definition set_previousSongs (l : list SongRef) (q : t) : t :=
  mk (distube q) (id q) (audioPlayer q) (connection q) (volume q) (songs q)
     l (stopped q) (next q) (prev q) (playing q) (paused q)
     (repeatMode q) (autoplay q) (filters q) (beginTime q) (textChannel q)
     (audioResource q).
Definition set_stopped (b : bool) (q : t) : t :=
  mk (distube q) (id q) (audioPlayer q) (connection q) (volume q) (songs q)
     (previousSongs q) b (next q) (prev q) (playing q) (paused q)
     (repeatMode q) (autoplay q) (filters q) (beginTime q) (textChannel q)
     (audioResource q).
Definition set_next (b : bool) (q : t) : t :=
  mk (distube q) (id q) (audioPlayer q) (connection q) (volume q) (songs q)
     (previousSongs q) (stopped q) b (prev q) (playing q) (paused q)
     (repeatMode q) (autoplay q) (filters q) (beginTime q) (textChannel q)
     (audioResource q).
Definition set_prev (b : bool) (q : t) : t :=
  mk (distube q) (id q) (audioPlayer q) (connection q) (volume q) (songs q)
     (previousSongs q) (stopped q) (next q) b (playing q) (paused q)
     (repeatMode q) (autoplay q) (filters q) (beginTime q) (textChannel q)
     (audioResource q).
Definition set_playing (b : bool) (q : t) : t :=
  mk (distube q) (id q) (audioPlayer q) (connection q) (volume q) (songs q)
     (previousSongs q) (stopped q) (next q) (prev q) b (paused q)
     (repeatMode q) (autoplay q) (filters q) (beginTime q) (textChannel q)
     (audioResource q).
Definition set_paused (b : bool) (q : t) : t :=
  mk (distube q) (id q) (audioPlayer q) (connection q) (volume q) (songs q)
     (previousSongs q) (stopped q) (next q) (prev q) (playing q) b
     (repeatMode q) (autoplay q) (filters q) (beginTime q) (textChannel q)
     (audioResource q).
Definition set_repeatMode (m : Z) (q : t) : t :=
  mk (distube q) (id q) (audioPlayer q) (connection q) (volume q) (songs q)
     (previousSongs q) (stopped q) (next q) (prev q) (playing q) (paused q)
     m (autoplay q) (filters q) (beginTime q) (textChannel q)
     (audioResource q).
Definition set_autoplay (b : bool) (q : t) : t :=
  mk (distube q) (id q) (audioPlayer q) (connection q) (volume q) (songs q)
     (previousSongs q) (stopped q) (next q) (prev q) (playing q) (paused q)
     (repeatMode q) b (filters q) (beginTime q) (textChannel q)
     (audioResource q).
Definition set_filters (l : list string) (q : t) : t :=
  mk (distube q) (id q) (audioPlayer q) (connection q) (volume q) (songs q)
     (previousSongs q) (stopped q) (next q) (prev q) (playing q) (paused q)
     (repeatMode q) (autoplay q) l (beginTime q) (textChannel q)
     (audioResource q).
Definition set_beginTime (x : Q) (q : t) : t :=
  mk (distube q) (id q) (audioPlayer q) (connection q) (volume q) (songs q)
     (previousSongs q) (stopped q) (next q) (prev q) (playing q) (paused q)
     (repeatMode q) (autoplay q) (filters q) x (textChannel q)
     (audioResource q).


(** The state a queue method runs in: the heap of song objects, the
    queue itself ([this]) and the calls made to collaborators so far. *)
Record World := mkWorld {
  heap : Heap;
  queue : t;
  effects : list Effect
}.

Definition this {A} (f : t → A) : M World A := gets (λ w, f (queue w)).
Definition assign (f : t → t) : M World unit :=
  modify (λ w, mkWorld (heap w) (f (queue w)) (effects w)).
Definition emit (e : Effect) : M World unit :=
  modify (λ w, mkWorld (heap w) (queue w) (effects w ++ [e])).
Definition update_heap (f : Heap → Heap) : M World unit :=
  modify (λ w, mkWorld (f (heap w)) (queue w) (effects w)).

(** [this.audioPlayer?.m()] *)
Definition audioPlayer_call (e : Effect) : M World unit :=
  present <- this audioPlayer ;; when present (emit e).

(** [new Queue(distube, message, song, textChannel)]; [guild_id] is
    [message.guild.id] and [message_channel] is [message?.channel]. *)
Definition new (dt : DisTube.t) (guild_id : string)
    (message_channel : option string) (song : SongRef + list SongRef)
    (text_channel : option string) : t :=
  {| distube := dt;
     id := guild_id;
     audioPlayer := false;
     connection := false;
     volume := 50;
     songs := match song with inl s => [s] | inr l => l end;
     previousSongs := [];
     stopped := false;
     next := false;
     prev := false;
     playing := true;
     paused := false;
     repeatMode := 0;
     autoplay := false;
     filters := [];
     beginTime := 0%Q;
     textChannel := match message_channel with
                    | Some c => Some c
                    | None => text_channel
                    end;
     audioResource := None |}.

(** [get currentTime()] *)
Definition currentTime (q : t) : Q :=
  match audioResource q with
  | Some r => (inject_Z (Z.of_N (playbackDuration r)) / 1000 + beginTime q)%Q
  | None => 0%Q
  end.

(** [addToQueue(song, position = -1)].  [song] is [None] for a falsy
    argument, [inl] for one song and [inr] for an array. *)
Definition addToQueue (song : option (SongRef + list SongRef))
    (position : option Number.t) : M World unit :=
  let position := default (Number.of_Z (-1)) position in
  match song with
  | None => throw (Error "No Song provided.")
  | Some (inr []) => throw (Error "No Song provided.")
  | Some arg =>
      if Number.eqb position (Number.of_Z 0) then
        throw (SyntaxError "Cannot add Song before the playing Song.")
      else
        let items := match arg with inl s => [s] | inr l => l end in
        old <- this songs ;;
        assign (set_songs (if Number.ltb position (Number.of_Z 0) then old ++ items
                           else splice_insert position items old)) ;;;
        update_heap (λ h, foldl (λ h r, alter Song.delete_info r h) h items)
  end.

(** [pause()] *)
Definition pause : M World unit :=
  p <- this paused ;;
  if p then throw (Error "The queue has been paused already.")
  else
    assign (set_playing false) ;;;
    assign (set_paused true) ;;;
    audioPlayer_call AudioPlayerPause.

(** [resume()] *)
Definition resume : M World unit :=
  p <- this playing ;;
  if p then throw (Error "The queue has been playing already.")
  else
    assign (set_playing true) ;;;
    assign (set_paused false) ;;;
    audioPlayer_call AudioPlayerUnpause.

(** [stop()] *)
Definition stop : M World unit :=
  assign (set_stopped true) ;;;
  audioPlayer_call AudioPlayerStop ;;;
  dt <- this distube ;;
  qid <- this id ;;
  conn <- this connection ;;
  when (leaveOnStop (DisTube.options dt))
       (when conn (emit ConnectionDestroy) ;;; emit (ConnectionsDelete qid)) ;;;
  emit (DeleteQueue qid).

(** [setVolume(percent)] *)
Definition setVolume (percent : NumberArg) : M World unit :=
  match percent with
  | ArgNumber v =>
      assign (set_volume v) ;;;
      res <- this audioResource ;;
      match res with
      | Some r => when (has_volume r) (emit (ResourceSetVolume (inject_Z v / 100)))
      | None => ret tt
      end
  | _ => throw (Error "Volume percent must be a number.")
  end.

(** [skip()]; the result is [songs[1]], possibly [undefined] *)
Definition skip : M World (option SongRef) :=
  l <- this songs ;;
  a <- this autoplay ;;
  if (length l <=? 1)%nat && negb a then throw (Error "There is no song to skip.")
  else
    assign (set_next true) ;;;
    audioPlayer_call AudioPlayerStop ;;;
    ret (l !! 1%nat).

(** [previous()] *)
Definition previous : M World (option SongRef) :=
  dt <- this distube ;;
  if negb (savePreviousSongs (DisTube.options dt)) then
    throw (Error "savePreviousSongs is disabled.")
  else
    p <- this previousSongs ;;
    r <- this repeatMode ;;
    l <- this songs ;;
    if (length p =? 0)%nat && negb (r =? 2) then
      throw (Error "There is no previous song.")
    else
      let song := if r =? 2 then last_elem l else last_elem p in
      assign (set_prev true) ;;;
      audioPlayer_call AudioPlayerStop ;;;
      ret song.

(** [shuffle()], with the values [Math.random] returns during the call *)
Definition shuffle (draws : nat → Q) : M World unit :=
  l <- this songs ;;
  match l with
  | [] => ret tt
  | playing :: rest =>
      assign (set_songs (playing :: shuffle_loop draws 0 (length rest - 1) rest))
  end.

(** [jump(num)] *)
Definition jump (num : JumpArg) : M World unit :=
  match num with
  | Num n =>
      l <- this songs ;;
      p <- this previousSongs ;;
      if Number.gtb n (Number.of_nat (length l))
         || Number.gtb (Number.opp n) (Number.of_nat (length p))
         || Number.eqb n (Number.of_Z 0) then
        throw (RangeError "InvalidSong")
      else if Number.gtb n (Number.of_Z 0) then
        assign (set_songs (snd (splice_from (Number.sub n (Number.of_Z 1)) l))) ;;;
        assign (set_next true) ;;;
        audioPlayer_call AudioPlayerStop
      else
        dt <- this distube ;;
        if negb (savePreviousSongs (DisTube.options dt)) then
          throw (RangeError "InvalidSong")
        else
          assign (set_prev true) ;;;
          when (negb (Number.eqb n (Number.of_Z (-1))))
               (let '(kept, removed) := splice_from (Number.add n (Number.of_Z 1)) p in
                assign (set_previousSongs kept) ;;;
                assign (set_songs (removed ++ l))) ;;;
          audioPlayer_call AudioPlayerStop
  | NotNum => throw (TypeError "num must be a number.")
  end.

(** [setRepeatMode(mode = null)] *)
Definition setRepeatMode (mode : NumberArg) : M World Z :=
  match mode with
  | ArgNotNumber => throw (TypeError "mode must be a number or null.")
  | ArgNull | ArgUndefined =>
      r <- this repeatMode ;;
      assign (set_repeatMode (Z.rem (r + 1) 3)) ;;;
      this repeatMode
  | ArgNumber m =>
      r <- this repeatMode ;;
      (if r =? m then assign (set_repeatMode 0) else assign (set_repeatMode m)) ;;;
      this repeatMode
  end.

(** [setFilter(filter)], [None] standing for [false] *)
Definition setFilter (filter : option string) : M World (list string) :=
  dt <- this distube ;;
  fs <- this filters ;;
  match filter with
  | None => assign (set_filters [])
  | Some f =>
      if negb (bool_decide (is_Some (DisTube.filters dt !! f))) then
        throw (TypeError (f +:+ " is not a filter name."))
      else
        match indexOf f fs with
        | Some i => assign (set_filters (delete i fs))
        | None => assign (set_filters (fs ++ [f]))
        end
  end ;;;
  now <- this currentTime ;;
  assign (set_beginTime now) ;;;
  emit HandlerPlaySong ;;;
  this filters.

(** [seek(time)] *)
Definition seek (time : Q) : M World unit :=
  assign (set_beginTime time) ;;;
  emit HandlerPlaySong.

(** [addRelatedSong()].  [resolved] is what awaiting
    [handler.resolveSong] yields: a rejection, or a song object of the
    heap ([None] for a null result). *)
Definition addRelatedSong (resolved : JSError + option SongRef) : M World unit :=
  l <- this songs ;;
  h <- gets heap ;;
  match l !! 0%nat with
  | None => throw (Error "There is no playing song.")
  | Some playing =>
      rel <- js_get (Song.read h) (JSongObj playing) "related" ;;
      p <- this previousSongs ;;
      candidates <- match rel with
                    | JArr vs => ret vs
                    | _ => throw (TypeError "related.find is not a function")
                    end ;;
      related <- findM (λ v,
                   played <- mapM (λ s, js_get (Song.read h) (JSongObj s) "id") p ;;
                   vid <- js_get (Song.read h) v "id" ;;
                   ret (negb (includes vid played))) candidates ;;
      match related with
      | Some (JSongObj r) =>
          u <- js_get (Song.read h) (JSongObj r) "url" ;;
          emit (HandlerResolveSong u) ;;;
          match resolved with
          | inl e => throw e
          | inr s => addToQueue (inl <$> s) None
          end
      | _ => throw (Error "Cannot find any related songs.")
      end
  end.

(** [toggleAutoplay()] *)
Definition toggleAutoplay : M World bool :=
  a <- this autoplay ;;
  assign (set_autoplay (negb a)) ;;;
  this autoplay.

End Queue.

(** ** Every operation of a queue

    The methods of the class as one type, to state properties of "every
    operation".  A run ends in the state the method leaves behind, whether
    it returned or threw. *)

Inductive QueueOp :=
| OpAddToQueue (song : option (SongRef + list SongRef)) (position : option Number.t)
| OpPause
| OpResume
| OpStop
| OpSetVolume (percent : NumberArg)
| OpSkip
| OpPrevious
| OpShuffle (draws : nat → Q)
| OpJump (num : JumpArg)
| OpSetRepeatMode (mode : NumberArg)
| OpSetFilter (filter : option string)
| OpSeek (time : Q)
| OpAddRelatedSong (resolved : JSError + option SongRef)
| OpToggleAutoplay.

Definition final {S A} (o : Outcome S A) : S :=
  match o with
  | Returned st _ => st
  | Thrown st _ => st
  end.

Definition run_op (op : QueueOp) (w : Queue.World) : Queue.World :=
  match op with
  | OpAddToQueue song position => final (Queue.addToQueue song position w)
  | OpPause => final (Queue.pause w)
  | OpResume => final (Queue.resume w)
  | OpStop => final (Queue.stop w)
  | OpSetVolume percent => final (Queue.setVolume percent w)
  | OpSkip => final (Queue.skip w)
  | OpPrevious => final (Queue.previous w)
  | OpShuffle draws => final (Queue.shuffle draws w)
  | OpJump num => final (Queue.jump num w)
  | OpSetRepeatMode mode => final (Queue.setRepeatMode mode w)
  | OpSetFilter filter => final (Queue.setFilter filter w)
  | OpSeek time => final (Queue.seek time w)
  | OpAddRelatedSong resolved => final (Queue.addRelatedSong resolved w)
  | OpToggleAutoplay => final (Queue.toggleAutoplay w)
  end.

(** The invariant of the data model on [repeatMode] and [beginTime] *)
Definition mode_time_inv (q : Queue.t) : Prop :=
  (0 ≤ Queue.repeatMode q ≤ 2) ∧ (0 <= Queue.beginTime q)%Q.

(** [playing] is the negation of [paused] *)
Definition flags_inv (q : Queue.t) : Prop :=
  Queue.playing q = negb (Queue.paused q).

(** Arguments that keep [repeatMode] and [beginTime] in range *)
Definition in_range (op : QueueOp) : Prop :=
  match op with
  | OpSetRepeatMode (ArgNumber m) => 0 ≤ m ≤ 2
  | OpSeek time => (0 <= time)%Q
  | _ => True
  end.

(** ** The claims as the specification words them, where the code differs *)

(** The target of [previous()]: "the last element of previousSongs, or,
    only under repeat-all with empty previousSongs, the last element of
    songs". *)
Definition spec_previous_target (q : Queue.t) : option SongRef :=
  match Queue.previousSongs q with
  | [] => if Queue.repeatMode q =? 2 then last (Queue.songs q) else None
  | _ => last (Queue.previousSongs q)
  end.

(** [jump(n)] "rejects exactly when n == 0, or n exceeds songs.length, or
    -n exceeds previousSongs.length, or n is negative while history
    retention is disabled", for a number [n]. *)
Definition spec_jump_rejects (n : Number.t) (q : Queue.t) : Prop :=
  Number.eqb n (Number.of_Z 0) = true ∨
  Number.gtb n (Number.of_nat (length (Queue.songs q))) = true ∨
  Number.gtb (Number.opp n) (Number.of_nat (length (Queue.previousSongs q))) = true ∨
  (Number.ltb n (Number.of_Z 0) = true ∧
   savePreviousSongs (DisTube.options (Queue.distube q)) = false).

(** [skip()] "rejects exactly when songs contains only one item and
    autoplay is disabled". *)
Definition spec_skip_rejects (q : Queue.t) : Prop :=
  length (Queue.songs q) = 1%nat ∧ Queue.autoplay q = false.

(** [addToQueue] with [position > 0] "inserts them starting at that
    index". *)
Definition spec_inserted_at (position : Z) (items after : list SongRef) : Prop :=
  ∀ i x, items !! i = Some x → after !! (Z.to_nat position + i)%nat = Some x.

(** ** Task Serializer *)

(** Modelled from the spec: the per-session Task Serializer.  Its code (the
    [taskQueue] of a queue, which the test of the queue manager mentions)
    is missing from the sources; sections 4.1 and 5 of the specification
    describe it.  Units of work are named by numbers.  [enqueue] appends a
    unit, which starts at once when no unit is running; the completion of
    the running unit, a success or a failure alike, is recorded and lets
    the oldest waiting unit start.  Asynchrony is the interleaving of the
    two kinds of event. *)
Module TaskSerializer.

Definition UnitId := nat.

Record t := mk {
  waiting : list UnitId;            (* submitted, not started; oldest first *)
  running : list UnitId;            (* started, not completed *)
  completed : list (UnitId * bool)  (* completed, with success; oldest first *)
}.

Definition empty : t := mk [] [] [].

(** [enqueue(unitOfWork)] *)
Definition enqueue (u : UnitId) (s : t) : t :=
  match running s with
  | [] => mk (waiting s) [u] (completed s)
  | _ => mk (waiting s ++ [u]) (running s) (completed s)
  end.

(** The running unit completes, with success [ok]. *)
Definition complete (ok : bool) (s : t) : t :=
  match running s with
  | [] => s
  | u :: others =>
      match waiting s with
      | [] => mk [] others (completed s ++ [(u, ok)])
      | v :: rest => mk rest (others ++ [v]) (completed s ++ [(u, ok)])
      end
  end.

Inductive Event :=
| Submit (u : UnitId)
| Complete (ok : bool).

Definition step (s : t) (e : Event) : t :=
  match e with
  | Submit u => enqueue u s
  | Complete ok => complete ok s
  end.

Definition run (events : list Event) (s : t) : t := foldl step s events.

(** The units submitted by a sequence of events, in submission order *)
Definition submitted (events : list Event) : list UnitId :=
  omap (λ e, match e with Submit u => Some u | Complete _ => None end) events.

(** The units not completed yet, oldest first *)
Definition pending (s : t) : list UnitId := running s ++ waiting s.

(** At most one unit runs, and units wait only while one runs. *)
Definition well_formed (s : t) : Prop :=
  (length (running s) ≤ 1)%nat ∧ (running s = [] → waiting s = []).

End TaskSerializer.

(** ** Sample states for the examples *)

Definition sample_distube (save : bool) : DisTube.t :=
  DisTube.mk {| savePreviousSongs := save; leaveOnStop := false |} ∅.

Definition sample_queue (save : bool) (songs previous : list SongRef)
    (mode : Z) : Queue.t :=
  Queue.set_repeatMode mode
    (Queue.set_previousSongs previous
       (Queue.new (sample_distube save) "guild" None (inr songs) None)).

Definition sample_world (q : Queue.t) : Queue.World := Queue.mkWorld ∅ q [].

(** The items an argument of [addToQueue] stands for *)
Definition items_of (song : option (SongRef + list SongRef)) : list SongRef :=
  match song with
  | Some (inl s) => [s]
  | Some (inr l) => l
  | None => []
  end.

(** The indices the loop swaps, in the order the loop computes them:
    [(i, j)] for [i] from the start index down to [1]. *)
Fixpoint shuffle_swaps (draws : nat → Q) (k i : nat) : list (nat * nat) :=
  match i with
  | O => []
  | S i' => (i, random_index (draws k) i) :: shuffle_swaps draws (S k) i'
  end.

(** The two flags of the pause state and the two fields of the data-model
    invariant, as parts of a queue *)
Definition flags (q : Queue.t) : bool * bool := (Queue.playing q, Queue.paused q).
Definition mode_time (q : Queue.t) : Z * Q := (Queue.repeatMode q, Queue.beginTime q).

(** [m] leaves the part [π] of the queue as it found it, whether it returns
    or throws. *)
Definition keeps {X A} (π : Queue.t → X) (m : M Queue.World A) : Prop :=
  ∀ w, π (Queue.queue (final (m w))) = π (Queue.queue w).

(** A live song has duration 0. *)
Definition live_zero (s : Song.t) : Prop :=
  Song.isLive s = true → Song.duration s = 0%Q.

(** Every object of [h'] is an object of [h] or a song whose duration is 0
    when it is live: what a run from [h] to [h'] may have created. *)
Definition created_live_zero (h h' : Heap) : Prop :=
  ∀ r s, h' !! r = Some s → h !! r = Some s ∨ live_zero s.

(** [m] creates only such songs, and its result satisfies [Q]. *)
Definition creates {A} (m : M Heap A) (Q : Heap → A → Prop) : Prop :=
  ∀ h, match m h with
       | Returned h' a => created_live_zero h h' ∧ Q h' a
       | Thrown h' _ => created_live_zero h h'
       end.

(** Stand-ins for the imported functions of [Song.ts] in the examples *)
Definition sample_toSecond (v : JSValue) : Q :=
  match v with JNum q => q | _ => 0%Q end.
Definition sample_chooseFormat (formats : JSValue) (live : bool) : JSError + JSValue :=
  match formats with
  | JArr (format :: _) => inr format
  | _ => inl (Error "No such format found")
  end.

Definition sample_new : JSValue → JSValue → JSValue → M Heap SongRef :=
  Song.new sample_toSecond (λ _, "0:00") sample_toSecond (λ s, s) (λ _, "id")
    (λ _, JNull) sample_chooseFormat (λ l, inr l).

(** A live stream of another source, and a full YouTube record with one
    live related video *)
Definition sample_other_info : JSValue :=
  JObj [("id", JStr "a1"); ("is_live", JBool true); ("duration", JNum 100)].
Definition sample_youtube_info : JSValue :=
  JObj [("full", JBool true);
        ("formats", JArr [JObj [("url", JStr "https://stream")]]);
        ("videoDetails", JObj [("videoId", JStr "v1"); ("lengthSeconds", JNum 212)]);
        ("related_videos",
         JArr [JObj [("id", JStr "v2"); ("isLive", JBool true);
                     ("length_seconds", JNum 30)]])].

(** The constructor creates only songs whose duration is 0 when they are
    live, and returns one of them. *)
Definition new_ok (new : JSValue → JSValue → JSValue → M Heap SongRef)
    (info : JSValue) : Prop :=
  ∀ member src,
    creates (new info member src) (λ h r, ∃ s, h !! r = Some s ∧ live_zero s).

(** A song object with the given [info], for the examples *)
Definition sample_song (info : JSValue) : Song.t :=
  {| Song.source := "youtube"; Song.info := info; Song.member := JUndefined;
     Song.user := JUndefined; Song.id := JStr "v1"; Song.name := JStr "title";
     Song.isLive := false; Song.duration := 212%Q;
     Song.formattedDuration := "03:32"; Song.url := JStr "https://www.youtube.com/watch?v=v1";
     Song.streamURL := JUndefined; Song.thumbnail := JUndefined;
     Song.related := JArr []; Song.views := 0%Q; Song.likes := 0%Q;
     Song.dislikes := 0%Q; Song.uploader_name := JUndefined;
     Song.uploader_url := JUndefined; Song.age_restricted := false;
     Song.chapters := JArr []; Song.reposts := 0%Q; Song.playlist := JUndefined |}.

(** ** More of the queue and of the songs *)
(** The enabled filters are distinct and are names of [distube.filters]. *)
Definition filters_ok (q : Queue.t) : Prop :=
  NoDup (Queue.filters q) ∧
  ∀ f, f ∈ Queue.filters q → is_Some (DisTube.filters (Queue.distube q) !! f).

(** The length of a JavaScript array is below 2^32. *)
Definition array_ok {A} (l : list A) : Prop := Z.of_nat (length l) < 2 ^ 32.

(** What [jump] computes when the number it is given is an integer,
    written with the arithmetic of integers ([jump_of_Z] below): the range
    tests and [n - 1], [n + 1] are exact, and [splice] starts at the
    integer. *)
Definition jump_integer (n : Z) : M Queue.World unit :=
  l <- Queue.this Queue.songs ;;
  p <- Queue.this Queue.previousSongs ;;
  if (n >? Z.of_nat (length l)) || (- n >? Z.of_nat (length p)) || (n =? 0) then
    throw (RangeError "InvalidSong")
  else if n >? 0 then
    Queue.assign (Queue.set_songs (drop (splice_start (n - 1) (length l)) l)) ;;;
    Queue.assign (Queue.set_next true) ;;;
    Queue.audioPlayer_call AudioPlayerStop
  else
    dt <- Queue.this Queue.distube ;;
    if negb (savePreviousSongs (DisTube.options dt)) then
      throw (RangeError "InvalidSong")
    else
      Queue.assign (Queue.set_prev true) ;;;
      when (negb (n =? -1))
           (let k := splice_start (n + 1) (length p) in
            Queue.assign (Queue.set_previousSongs (take k p)) ;;;
            Queue.assign (Queue.set_songs (drop k p ++ l))) ;;;
      Queue.audioPlayer_call AudioPlayerStop.

(** The position [addToQueue] works with, the argument or [-1], and the
    index at which it puts the items: the end for a negative position,
    the index of [splice] otherwise *)
Definition position_of (position : option Number.t) : Number.t :=
  default (Number.of_Z (-1)) position.
Definition insert_index (position : Number.t) (len : nat) : nat :=
  if Number.ltb position (Number.of_Z 0) then len else splice_index position len.

(** The ids of the previous songs, and whether a related song, an object of
    the heap, has the id of one of them *)
Definition played_ids (h : Heap) (previous : list SongRef) : list JSValue :=
  (λ s, Song.read h s "id") <$> previous.

Definition played (h : Heap) (previous : list SongRef) (v : JSValue) : Prop :=
  ∃ r, v = JSongObj r ∧ includes (Song.read h r "id") (played_ids h previous) = true.

(** A song object with a given id and related songs, for the examples *)
Definition sample_song_with (id : string) (related : list SongRef) : Song.t :=
  {| Song.source := "youtube"; Song.info := JUndefined; Song.member := JUndefined;
     Song.user := JUndefined; Song.id := JStr id; Song.name := JStr "title";
     Song.isLive := false; Song.duration := 100%Q;
     Song.formattedDuration := "01:40";
     Song.url := JStr ("https://www.youtube.com/watch?v=" +:+ id);
     Song.streamURL := JUndefined; Song.thumbnail := JUndefined;
     Song.related := JArr (JSongObj <$> related); Song.views := 0%Q;
     Song.likes := 0%Q; Song.dislikes := 0%Q; Song.uploader_name := JUndefined;
     Song.uploader_url := JUndefined; Song.age_restricted := false;
     Song.chapters := JArr []; Song.reposts := 0%Q; Song.playlist := JUndefined |}.

(** Songs 1, 2 and 3; the related songs of song 1 are songs 2 and 3. *)
Definition sample_heap : Heap :=
  {[ 1%positive := sample_song_with "v1" [2; 3]%positive;
     2%positive := sample_song_with "v2" [];
     3%positive := sample_song_with "v3" [] ]}.

(** [h'] holds the objects of [h] unchanged, and its other objects satisfy
    [P]: what a run from [h] to [h'] that only creates songs with [P] may
    do. *)
Definition grows (P : Song.t → Prop) (h h' : Heap) : Prop :=
  h ⊆ h' ∧ ∀ r s, h' !! r = Some s → h !! r = Some s ∨ P s.

(** [m] does so, and its result satisfies [Q]. *)
Definition makes {A} (P : Song.t → Prop) (m : M Heap A) (Q : A → Prop) : Prop :=
  ∀ h, match m h with
       | Returned h' a => grows P h h' ∧ Q a
       | Thrown h' _ => grows P h h'
       end.

(** What the constructor establishes for every song, given the imported
    [formatDuration] and the conversion [toString] of template literals:
    the formatted duration goes with the live flag; a YouTube song has the
    watch url of its id and no reposts; a song of another source keeps no
    raw info and no stream url. *)
Definition song_wf (formatDuration : Q → string) (toString : JSValue → string)
    (s : Song.t) : Prop :=
  (Song.isLive s = true → Song.formattedDuration s = "Live") ∧
  (Song.isLive s = false →
     Song.formattedDuration s = formatDuration (Song.duration s)) ∧
  (String.eqb (Song.source s) "youtube" = true →
     Song.url s = JStr ("https://www.youtube.com/watch?v=" +:+ toString (Song.id s)) ∧
     Song.reposts s = 0%Q) ∧
  (String.eqb (Song.source s) "youtube" = false →
     Song.info s = JUndefined ∧ Song.streamURL s = JUndefined).

(** [src] as the constructor takes it: the string given, or "youtube" when
    the argument is left out; [None] for an argument that is not a string *)
Definition source_argument (src : JSValue) : option string :=
  match src with
  | JUndefined => Some "youtube"
  | JStr s => Some s
  | _ => None
  end.

(** [info.formats] without a format: [!info.formats?.length] *)
Definition no_formats (formats : JSValue) : Prop :=
  match formats with
  | JUndefined | JNull | JArr [] => True
  | _ => False
  end.







(** * Properties *)

Ltac monad_unfold :=
  cbv beta iota delta
    [bind ret throw gets modify when Queue.this Queue.assign Queue.emit
     Queue.update_heap Queue.audioPlayer_call] in *.

(** Opens a world and its queue into their fields and runs the method. *)
Ltac open_world w :=
  destruct w as [?h [] ?eff]; monad_unfold; cbn in *.

(** ** previous() *)

(** C1 (as the code has it).  [previous()] rejects with "savePreviousSongs
    is disabled." when history retention is off; otherwise rejects with
    "There is no previous song." when previousSongs is empty and repeatMode
    is not 2; otherwise it sets [prev], leaves both lists alone and returns
    the last element of [songs] under repeat-all (whether or not
    previousSongs is empty) and the last element of [previousSongs] under
    the other modes. *)
Theorem C1_previous (w : Queue.World) :
  let q := Queue.queue w in
  let save := savePreviousSongs (DisTube.options (Queue.distube q)) in
  (save = false →
     Queue.previous w = Thrown w (Error "savePreviousSongs is disabled.")) ∧
  (save = true → Queue.previousSongs q = [] → Queue.repeatMode q ≠ 2 →
     Queue.previous w = Thrown w (Error "There is no previous song.")) ∧
  (save = true → Queue.previousSongs q ≠ [] ∨ Queue.repeatMode q = 2 →
     ∃ w', Queue.previous w =
             Returned w' (if decide (Queue.repeatMode q = 2)
                          then last (Queue.songs q)
                          else last (Queue.previousSongs q)) ∧
           Queue.prev (Queue.queue w') = true ∧
           Queue.songs (Queue.queue w') = Queue.songs q ∧
           Queue.previousSongs (Queue.queue w') = Queue.previousSongs q).
Proof.
  unfold Queue.previous. open_world w.
  split; [| split].
  - intros ->. reflexivity.
  - intros -> -> Hmode. cbn.
    destruct (Z.eqb_spec repeatMode 2); [done | reflexivity].
  - intros -> Hcase. cbn.
    assert ((length previousSongs =? 0)%nat && negb (repeatMode =? 2) = false)
      as ->.
    { destruct Hcase as [Hne | ->]; [| by rewrite andb_false_r].
      destruct previousSongs; [done | reflexivity]. }
    unfold last_elem.
    destruct (Z.eqb_spec repeatMode 2), (decide (repeatMode = 2)); try done;
      destruct audioPlayer; cbn; eauto.
Qed.

Lemma C1_witness :
  ∃ w', Queue.previous (sample_world (sample_queue true [2; 3] [1] 0%Z))%positive =
          Returned w' (Some 1%positive) ∧
        Queue.prev (Queue.queue w') = true.
Proof.
  destruct (C1_previous (sample_world (sample_queue true [2; 3] [1] 0%Z))%positive)
    as (_ & _ & H).
  destruct H as (w' & Hrun & Hprev & _); [reflexivity | left; discriminate |].
  exists w'. split; [exact Hrun | exact Hprev].
Defined.

(** C1 (as the specification words it) fails: under repeat-all with a
    non-empty history the code returns the last element of [songs], not of
    [previousSongs]. *)
Lemma C1_counterexample :
  ¬ (∀ w' target,
       Queue.previous (sample_world (sample_queue true [2; 3] [1] 2%Z))%positive =
         Returned w' target →
       target = spec_previous_target (sample_queue true [2; 3] [1] 2%Z)%positive).
Proof.
  intros H. specialize (H _ _ eq_refl). discriminate H.
Qed.

(** ** Integers as numbers

    On integers below 2^53 in absolute value the operations on numbers are
    the operations on integers: nothing is rounded. *)

Lemma iter_pos_nat {A} (f : A → A) (p : positive) (x : A) :
  SpecFloat.iter_pos f p x = Nat.iter (Pos.to_nat p) f x.
Proof.
  revert x. induction p as [p IH | p IH |]; intros x; cbn [SpecFloat.iter_pos].
  - rewrite !IH, Pos2Nat.inj_xI, <- Nat.iter_add, <- Nat.iter_succ_r.
    f_equal. lia.
  - rewrite !IH, Pos2Nat.inj_xO, <- Nat.iter_add. f_equal. lia.
  - reflexivity.
Qed.

Lemma Pos_iter_shl (m d : positive) : Pos.iter xO m d = shl (Pos.to_nat d) m.
Proof. apply Pos2Nat.inj_iter. Qed.

Lemma digits_shl (n : nat) (m : positive) :
  Z.pos (digits2_pos (shl n m)) = Z.pos (digits2_pos m) + Z.of_nat n.
Proof.
  induction n as [| n IH]; [cbn; lia |].
  change (shl (S n) m) with (xO (shl n m)). cbn [digits2_pos].
  rewrite Pos2Z.inj_succ, IH. lia.
Qed.

Lemma Zpos_shl (n : nat) (m : positive) :
  Z.pos (shl n m) = Z.pos m * 2 ^ Z.of_nat n.
Proof.
  induction n as [| n IH]; [cbn; lia |].
  change (shl (S n) m) with (xO (shl n m)).
  rewrite Pos2Z.inj_xO, IH, Nat2Z.inj_succ, Z.pow_succ_r by lia.
  lia.
Qed.

Lemma shl_add (a b : nat) (m : positive) : shl (a + b) m = shl a (shl b m).
Proof. apply Nat.iter_add. Qed.

Lemma shr_shl (n : nat) (m : positive) :
  Nat.iter n shr_1 (Build_shr_record (Z.pos (shl n m)) false false) =
    Build_shr_record (Z.pos m) false false.
Proof.
  induction n as [| n IH]; [reflexivity |].
  rewrite Nat.iter_succ_r. cbn [shl Nat.iter shr_1 orb]. exact IH.
Qed.

Lemma digits_bounds (m : positive) :
  2 ^ (Z.pos (digits2_pos m) - 1) ≤ Z.pos m < 2 ^ Z.pos (digits2_pos m).
Proof.
  induction m as [m IH | m IH |]; cbn [digits2_pos]; [| | by vm_compute].
  - rewrite Pos2Z.inj_succ.
    replace (Z.succ (Z.pos (digits2_pos m)) - 1) with (Z.succ (Z.pos (digits2_pos m) - 1)) by lia.
    rewrite !Z.pow_succ_r by lia. lia.
  - rewrite Pos2Z.inj_succ.
    replace (Z.succ (Z.pos (digits2_pos m)) - 1) with (Z.succ (Z.pos (digits2_pos m) - 1)) by lia.
    rewrite !Z.pow_succ_r by lia. lia.
Qed.

Lemma shr_exact (m : positive) (e : Z) (n : nat) :
  shr (Build_shr_record (Z.pos (shl n m)) false false) e (Z.of_nat n) =
    (Build_shr_record (Z.pos m) false false, e + Z.of_nat n).
Proof.
  destruct n as [| n].
  - cbn [Z.of_nat shr shl Nat.iter]. by rewrite Z.add_0_r.
  - change (Z.of_nat (S n)) with (Z.pos (Pos.of_succ_nat n)). unfold shr.
    by rewrite iter_pos_nat, SuccNat2Pos.id_succ, shr_shl.
Qed.

(** A mantissa of 53 bits followed by zeros is rounded to these 53 bits. *)
Lemma round_aux_shifted (s : bool) (m : positive) (n : nat) (e : Z) :
  Z.pos (digits2_pos m) = 53 → -1074 ≤ e + Z.of_nat n ≤ 971 →
  binary_round_aux Number.prec Number.emax s (Z.pos (shl n m)) e loc_Exact =
    S754_finite s m (e + Z.of_nat n).
Proof.
  intros Hd He. unfold binary_round_aux, shr_fexp, fexp, emin, Number.prec, Number.emax.
  cbn [Zdigits2 shr_record_of_loc]. rewrite digits_shl, Hd.
  replace (Z.max (53 + Z.of_nat n + e - 53) (3 - 1024 - 53) - e) with (Z.of_nat n) by lia.
  rewrite shr_exact.
  cbn [shr_m loc_of_shr_record round_nearest_even Zdigits2]. rewrite Hd.
  replace (Z.max (53 + (e + Z.of_nat n) - 53) (3 - 1024 - 53) - (e + Z.of_nat n))
    with 0 by lia.
  cbn [shr shr_m].
  destruct (Z.leb_spec (e + Z.of_nat n) (1024 - 53)); [done | lia].
Qed.

(** Rounding [v × 2^k × 2^(-k)] gives [v] when [v] has at most 53 bits,
    whatever the shift. *)
Lemma round_shifted (s : bool) (v : positive) (k : nat) :
  Z.pos (digits2_pos v) ≤ 53 →
  binary_round Number.prec Number.emax s (shl k v) (- Z.of_nat k) = normal s v.
Proof.
  intros Hd. unfold binary_round, shl_align, normal.
  pose proof (Pos2Z.is_pos (digits2_pos v)) as Hpos.
  set (n0 := Z.to_nat (53 - Z.pos (digits2_pos v))).
  assert (Hn0 : Z.of_nat n0 = 53 - Z.pos (digits2_pos v)) by lia.
  assert (Hd0 : Z.pos (digits2_pos (shl n0 v)) = 53) by (rewrite digits_shl; lia).
  rewrite digits_shl. unfold Number.prec, Number.emax.
  replace (fexp 53 1024 (Z.pos (digits2_pos v) + Z.of_nat k + - Z.of_nat k))
    with (Z.pos (digits2_pos v) - 53) by (unfold fexp, emin; lia).
  destruct (Z.pos (digits2_pos v) - 53 - - Z.of_nat k) as [| d | d] eqn:Hshift.
  - (* the mantissa has 53 bits already *)
    replace k with n0 by lia.
    change (shl n0 v) with (shl 0 (shl n0 v)) at 1.
    rewrite (round_aux_shifted s (shl n0 v) 0) by (done || lia).
    f_equal. lia.
  - (* more than 53 bits: shifted right, exactly *)
    replace k with (Pos.to_nat d + n0)%nat at 1 by lia.
    rewrite shl_add, round_aux_shifted by (done || lia).
    f_equal. lia.
  - (* fewer than 53 bits: shifted left *)
    rewrite Pos_iter_shl, <- shl_add.
    replace (Pos.to_nat d + k)%nat with n0 by lia.
    change (shl n0 v) with (shl 0 (shl n0 v)) at 1.
    rewrite (round_aux_shifted s (shl n0 v) 0) by (done || lia).
    f_equal. lia.
Qed.

Lemma digits_safe (v : positive) : Z.pos v < 2 ^ 53 → Z.pos (digits2_pos v) ≤ 53.
Proof.
  intros Hv. pose proof (digits_bounds v) as [Hlow _].
  destruct (Z.le_gt_cases (Z.pos (digits2_pos v)) 53) as [| Hgt]; [done |].
  assert (2 ^ 53 ≤ 2 ^ (Z.pos (digits2_pos v) - 1)) by (apply Z.pow_le_mono_r; lia).
  lia.
Qed.

(** An exact integer times a power of two, given with the opposite
    exponent, is rounded to the integer. *)
Lemma normalize_exact (z : Z) (k : nat) :
  Number.safe z →
  binary_normalize Number.prec Number.emax (z * 2 ^ Z.of_nat k) (- Z.of_nat k) false =
    match z with
    | 0 => S754_zero false
    | Z.pos v => normal false v
    | Z.neg v => normal true v
    end.
Proof.
  intros [Hlow Hhigh]. destruct z as [| v | v].
  - reflexivity.
  - rewrite <- Zpos_shl. cbn [binary_normalize]. apply round_shifted, digits_safe. lia.
  - rewrite <- Pos2Z.opp_pos, Z.mul_opp_l, <- Zpos_shl, Pos2Z.opp_pos.
    cbn [binary_normalize]. apply round_shifted, digits_safe. lia.
Qed.

Lemma of_Z_normal (z : Z) :
  Number.safe z →
  Number.of_Z z =
    match z with
    | 0 => S754_zero false
    | Z.pos v => normal false v
    | Z.neg v => normal true v
    end.
Proof.
  intros Hz. pose proof (normalize_exact z 0 Hz) as H.
  cbn [Z.of_nat Z.opp] in H. rewrite Z.pow_0_r, Z.mul_1_r in H. exact H.
Qed.

(** The sign, mantissa and exponent of an integer that is not 0 *)
Lemma of_Z_finite (z : Z) :
  Number.safe z → z ≠ 0 →
  ∃ (m : positive) (n : nat),
    Number.of_Z z = S754_finite (z <? 0) m (- Z.of_nat n) ∧
    Z.pos m = Z.abs z * 2 ^ Z.of_nat n ∧
    Z.pos (digits2_pos m) = 53.
Proof.
  intros Hz Hne. rewrite of_Z_normal by done.
  destruct Hz as [Hlow Hhigh].
  destruct z as [| v | v]; [done | |]; unfold normal;
    (assert (Hd : Z.pos (digits2_pos v) ≤ 53) by (apply digits_safe; lia));
    exists (shl (Z.to_nat (53 - Z.pos (digits2_pos v))) v),
           (Z.to_nat (53 - Z.pos (digits2_pos v)));
    (split; [cbn [Z.ltb Z.compare]; f_equal; lia |]);
    (split; [by rewrite Zpos_shl | rewrite digits_shl; lia]).
Qed.

Lemma to_integer_of_Z (z : Z) :
  Number.safe z → Number.to_integer (Number.of_Z z) = Number.Int z.
Proof.
  intros Hz. destruct (Z.eq_dec z 0) as [-> | Hne]; [reflexivity |].
  destruct (of_Z_finite z Hz Hne) as (m & n & -> & Hm & _).
  unfold Number.to_integer. f_equal. rewrite Hm.
  destruct (Z.ltb_spec (- Z.of_nat n) 0).
  - rewrite Z.opp_involutive, Z.div_mul by (apply Z.pow_nonzero; lia).
    unfold cond_Zopp. destruct (Z.ltb_spec z 0); lia.
  - replace (- Z.of_nat n) with 0 by lia. replace (Z.of_nat n) with 0 by lia.
    unfold cond_Zopp. destruct (Z.ltb_spec z 0); lia.
Qed.

Lemma mantissa_order (a b : Z) (ma mb : positive) (na nb : nat) :
  Z.pos ma = a * 2 ^ Z.of_nat na → Z.pos mb = b * 2 ^ Z.of_nat nb →
  Z.pos (digits2_pos ma) = 53 → Z.pos (digits2_pos mb) = 53 →
  0 < a → 0 < b →
  match - Z.of_nat na ?= - Z.of_nat nb with
  | Lt => Lt
  | Gt => Gt
  | Eq => Pos.compare_cont Eq ma mb
  end = (a ?= b).
Proof.
  intros Ha Hb Hda Hdb Hpa Hpb.
  pose proof (digits_bounds ma) as Hma. pose proof (digits_bounds mb) as Hmb.
  rewrite Hda in Hma. rewrite Hdb in Hmb.
  change (2 ^ (53 - 1)) with 4503599627370496 in *.
  change (2 ^ 53) with 9007199254740992 in *.
  destruct (Z.compare_spec (- Z.of_nat na) (- Z.of_nat nb)) as [Heq | Hlt | Hgt].
  - assert (na = nb) as -> by lia.
    change (Pos.compare_cont Eq ma mb) with (Z.pos ma ?= Z.pos mb).
    rewrite Ha, Hb. assert (0 < 2 ^ Z.of_nat nb) by lia.
    destruct (Z.compare_spec a b) as [-> | |];
      [apply Z.compare_refl | apply Z.compare_lt_iff; nia | apply Z.compare_gt_iff; nia].
  - symmetry. apply Z.compare_lt_iff.
    replace (Z.of_nat na) with (Z.of_nat nb + (Z.of_nat na - Z.of_nat nb)) in Ha by lia.
    rewrite Z.pow_add_r in Ha by lia.
    assert (2 ^ 1 ≤ 2 ^ (Z.of_nat na - Z.of_nat nb)) as HR by (apply Z.pow_le_mono_r; lia).
    change (2 ^ 1) with 2 in HR.
    assert (0 < 2 ^ Z.of_nat nb) as HP by lia.
    set (P := 2 ^ Z.of_nat nb) in *. set (R := 2 ^ (Z.of_nat na - Z.of_nat nb)) in *.
    assert (a * P * 2 ≤ a * P * R) by nia.
    apply (Z.mul_lt_mono_pos_r P); [done | lia].
  - symmetry. apply Z.compare_gt_iff.
    replace (Z.of_nat nb) with (Z.of_nat na + (Z.of_nat nb - Z.of_nat na)) in Hb by lia.
    rewrite Z.pow_add_r in Hb by lia.
    assert (2 ^ 1 ≤ 2 ^ (Z.of_nat nb - Z.of_nat na)) as HR by (apply Z.pow_le_mono_r; lia).
    change (2 ^ 1) with 2 in HR.
    assert (0 < 2 ^ Z.of_nat na) as HP by lia.
    set (P := 2 ^ Z.of_nat na) in *. set (R := 2 ^ (Z.of_nat nb - Z.of_nat na)) in *.
    assert (b * P * 2 ≤ b * P * R) by nia.
    apply (Z.mul_lt_mono_pos_r P); [done | lia].
Qed.

(** The order of integers is the order of the numbers they are. *)
Lemma compare_of_Z (a b : Z) :
  Number.safe a → Number.safe b →
  SFcompare (Number.of_Z a) (Number.of_Z b) = Some (a ?= b).
Proof.
  intros Ha Hb.
  destruct (Z.eq_dec a 0) as [-> | Hna]; destruct (Z.eq_dec b 0) as [-> | Hnb].
  - reflexivity.
  - destruct (of_Z_finite b Hb Hnb) as (mb & nb & -> & _).
    cbn. by destruct b.
  - destruct (of_Z_finite a Ha Hna) as (ma & na & -> & _).
    cbn. by destruct a.
  - destruct (of_Z_finite a Ha Hna) as (ma & na & -> & Hma & Hda).
    destruct (of_Z_finite b Hb Hnb) as (mb & nb & -> & Hmb & Hdb).
    cbn [SFcompare]. f_equal.
    destruct (Z.ltb_spec a 0), (Z.ltb_spec b 0).
    + (* both negative *)
      rewrite Z.abs_neq in Hma, Hmb by lia.
      assert (Hflip : match - Z.of_nat na ?= - Z.of_nat nb with
                      | Lt => Gt | Gt => Lt
                      | Eq => CompOpp (Pos.compare_cont Eq ma mb)
                      end =
                      match - Z.of_nat nb ?= - Z.of_nat na with
                      | Lt => Lt | Gt => Gt
                      | Eq => Pos.compare_cont Eq mb ma
                      end).
      { rewrite (Z.compare_antisym (- Z.of_nat na) (- Z.of_nat nb)).
        destruct (- Z.of_nat na ?= - Z.of_nat nb); cbn; try done.
        change (CompOpp (ma ?= mb)%positive = (mb ?= ma)%positive).
        by rewrite <- Pos.compare_antisym. }
      rewrite Hflip.
      rewrite (mantissa_order (- b) (- a) mb ma nb na) by (lia || done).
      apply Z.compare_opp.
    + symmetry. apply Z.compare_lt_iff. lia.
    + symmetry. apply Z.compare_gt_iff. lia.
    + rewrite Z.abs_eq in Hma, Hmb by lia.
      apply mantissa_order; (lia || done).
Qed.

Lemma ltb_of_Z (a b : Z) :
  Number.safe a → Number.safe b →
  Number.ltb (Number.of_Z a) (Number.of_Z b) = (a <? b).
Proof.
  intros Ha Hb. unfold Number.ltb, SFltb, Z.ltb.
  rewrite compare_of_Z by done. by destruct (a ?= b).
Qed.

Lemma gtb_of_Z (a b : Z) :
  Number.safe a → Number.safe b →
  Number.gtb (Number.of_Z a) (Number.of_Z b) = (a >? b).
Proof.
  intros Ha Hb. unfold Number.gtb. fold (Number.ltb (Number.of_Z b) (Number.of_Z a)).
  rewrite ltb_of_Z, Z.gtb_ltb by done. reflexivity.
Qed.

Lemma eqb_of_Z (a b : Z) :
  Number.safe a → Number.safe b →
  Number.eqb (Number.of_Z a) (Number.of_Z b) = (a =? b).
Proof.
  intros Ha Hb. unfold Number.eqb, SFeqb.
  rewrite compare_of_Z by done.
  destruct (Z.compare_spec a b), (Z.eqb_spec a b); (done || lia).
Qed.

Lemma safe_opp (z : Z) : Number.safe z → Number.safe (- z).
Proof. unfold Number.safe. lia. Qed.

Lemma opp_of_Z (z : Z) :
  Number.safe z → z ≠ 0 → Number.opp (Number.of_Z z) = Number.of_Z (- z).
Proof.
  intros Hz Hne. rewrite !of_Z_normal by (done || by apply safe_opp).
  by destruct z.
Qed.

(** [-0] is not a number [of_Z] gives, but it compares as [0] does. *)
Lemma gtb_opp_of_Z (a b : Z) :
  Number.safe a → Number.safe b →
  Number.gtb (Number.opp (Number.of_Z a)) (Number.of_Z b) = (- a >? b).
Proof.
  intros Ha Hb. destruct (Z.eq_dec a 0) as [-> | Hne].
  - rewrite <- (gtb_of_Z (- 0) b) by done.
    unfold Number.gtb, SFltb. cbn [Z.opp]. 
    change (Number.opp (Number.of_Z 0)) with (S754_zero true).
    change (Number.of_Z 0) with (S754_zero false).
    by destruct (Number.of_Z b).
  - rewrite opp_of_Z by done. apply gtb_of_Z; [by apply safe_opp | done].
Qed.

Lemma shl_align_fst (m : positive) (e ez : Z) :
  ez ≤ e → Z.pos (fst (shl_align m e ez)) = Z.pos m * 2 ^ (e - ez).
Proof.
  intros He. unfold shl_align. destruct (ez - e) as [| d | d] eqn:Hd; cbn [fst].
  - replace (e - ez) with 0 by lia. lia.
  - lia.
  - rewrite Pos_iter_shl, Zpos_shl. do 2 f_equal. lia.
Qed.

Lemma cond_Zopp_abs (z p : Z) : cond_Zopp (z <? 0) (Z.abs z * p) = z * p.
Proof. unfold cond_Zopp. destruct (Z.ltb_spec z 0); lia. Qed.

(** The sum and the difference of two integers, computed on numbers, are
    the integers they should be as long as they stay below 2^53. *)
Lemma aligned_of_Z (a b : Z) (ma mb : positive) (na nb : nat) :
  Z.pos ma = Z.abs a * 2 ^ Z.of_nat na →
  Z.pos mb = Z.abs b * 2 ^ Z.of_nat nb →
  let ez := Z.min (- Z.of_nat na) (- Z.of_nat nb) in
  ez = - Z.of_nat (na `max` nb) ∧
  cond_Zopp (a <? 0) (Z.pos (fst (shl_align ma (- Z.of_nat na) ez))) =
    a * 2 ^ Z.of_nat (na `max` nb) ∧
  cond_Zopp (b <? 0) (Z.pos (fst (shl_align mb (- Z.of_nat nb) ez))) =
    b * 2 ^ Z.of_nat (na `max` nb).
Proof.
  intros Hma Hmb ez.
  assert (Hez : ez = - Z.of_nat (na `max` nb)) by (unfold ez; lia).
  split; [done |]. rewrite Hez.
  rewrite !shl_align_fst by lia. rewrite Hma, Hmb.
  rewrite <- !Z.mul_assoc, <- !Z.pow_add_r by lia.
  replace (Z.of_nat na + (- Z.of_nat na - - Z.of_nat (na `max` nb)))
    with (Z.of_nat (na `max` nb)) by lia.
  replace (Z.of_nat nb + (- Z.of_nat nb - - Z.of_nat (na `max` nb)))
    with (Z.of_nat (na `max` nb)) by lia.
  by rewrite !cond_Zopp_abs.
Qed.

Lemma sub_of_Z (a b : Z) :
  Number.safe a → Number.safe b → Number.safe (a - b) →
  Number.sub (Number.of_Z a) (Number.of_Z b) = Number.of_Z (a - b).
Proof.
  intros Ha Hb Hab.
  destruct (Z.eq_dec b 0) as [-> | Hnb].
  { rewrite Z.sub_0_r. change (Number.of_Z 0) with (S754_zero false).
    unfold Number.sub, SFsub. by destruct (Number.of_Z a) as [[] | | |]. }
  destruct (Z.eq_dec a 0) as [-> | Hna].
  { rewrite Z.sub_0_l, <- opp_of_Z by done.
    change (Number.of_Z 0) with (S754_zero false).
    destruct (of_Z_finite b Hb Hnb) as (mb & nb & -> & _). reflexivity. }
  destruct (of_Z_finite a Ha Hna) as (ma & na & -> & Hma & _).
  destruct (of_Z_finite b Hb Hnb) as (mb & nb & -> & Hmb & _).
  unfold Number.sub, SFsub.
  destruct (aligned_of_Z a b ma mb na nb Hma Hmb) as (-> & -> & ->).
  rewrite <- Z.mul_sub_distr_r, normalize_exact by done.
  symmetry. by apply of_Z_normal.
Qed.

Lemma add_of_Z (a b : Z) :
  Number.safe a → Number.safe b → Number.safe (a + b) →
  Number.add (Number.of_Z a) (Number.of_Z b) = Number.of_Z (a + b).
Proof.
  intros Ha Hb Hab.
  destruct (Z.eq_dec b 0) as [-> | Hnb].
  { rewrite Z.add_0_r. change (Number.of_Z 0) with (S754_zero false).
    rewrite (of_Z_normal a) by done. by destruct a. }
  destruct (Z.eq_dec a 0) as [-> | Hna].
  { rewrite Z.add_0_l. change (Number.of_Z 0) with (S754_zero false).
    destruct (of_Z_finite b Hb Hnb) as (mb & nb & -> & _). reflexivity. }
  destruct (of_Z_finite a Ha Hna) as (ma & na & -> & Hma & _).
  destruct (of_Z_finite b Hb Hnb) as (mb & nb & -> & Hmb & _).
  unfold Number.add, SFadd.
  destruct (aligned_of_Z a b ma mb na nb Hma Hmb) as (-> & -> & ->).
  rewrite <- Z.mul_add_distr_r, normalize_exact by done.
  symmetry. by apply of_Z_normal.
Qed.

(** A number strictly between 0 and 1 is truncated to 0. *)
Lemma to_integer_fraction (x : Number.t) :
  Number.valid x →
  Number.gtb x (Number.of_Z 0) = true → Number.ltb x (Number.of_Z 1) = true →
  Number.to_integer x = Number.Int 0.
Proof.
  intros Hvalid Hpos Hone.
  destruct x as [[] | [] | | [] m e]; try done. clear Hpos.
  unfold Number.valid, valid_binary, bounded, canonical_mantissa, fexp, emin,
    Number.prec, Number.emax in Hvalid.
  apply andb_prop in Hvalid as [Hcanon _]. apply Z.eqb_eq in Hcanon.
  assert (Hd : Z.pos (digits2_pos m) ≤ 53) by lia.
  pose proof (digits_bounds m) as [_ Hm].
  assert (Hm53 : Z.pos m < 2 ^ 53).
  { eapply Z.lt_le_trans; [exact Hm | apply Z.pow_le_mono_r; lia]. }
  change (Number.of_Z 1) with (S754_finite false 4503599627370496 (-52)) in Hone.
  unfold Number.ltb, SFltb, SFcompare in Hone.
  unfold Number.to_integer, cond_Zopp. f_equal.
  destruct (e ?= -52) eqn:Hcmp; [| | discriminate Hone].
  - apply Z.compare_eq_iff in Hcmp. subst e.
    match type of Hone with
    | context [PosDef.Pos.compare_cont Eq m ?p] =>
        destruct (PosDef.Pos.compare_cont Eq m p) eqn:Hm52;
          [discriminate Hone | | discriminate Hone];
        assert (Hlt : (m < p)%positive) by exact Hm52
    end.
    change (-52 <? 0) with true. cbv iota.
    apply Z.div_small.
    split; [apply Pos2Z.is_nonneg | exact (Pos2Z.pos_lt_pos _ _ Hlt)].
  - change (e < -52) in Hcmp.
    destruct (Z.ltb_spec e 0); [| lia].
    apply Z.div_small. split; [apply Pos2Z.is_nonneg |].
    eapply Z.lt_le_trans; [exact Hm53 | apply Z.pow_le_mono_r; lia].
Qed.

(** ** jump() *)

Lemma splice_start_forward (n : Z) (len : nat) :
  0 < n ≤ Z.of_nat len → splice_start (n - 1) len = Z.to_nat (n - 1).
Proof.
  intros Hn. unfold splice_start.
  destruct (Z.ltb_spec (n - 1) 0); [lia | f_equal; lia].
Qed.

Lemma splice_start_backward (n : Z) (len : nat) :
  n < -1 → - n ≤ Z.of_nat len →
  splice_start (n + 1) len = (len - Z.to_nat (- n - 1))%nat.
Proof.
  intros Hn Hlen. unfold splice_start.
  destruct (Z.ltb_spec (n + 1) 0); lia.
Qed.

Ltac case_bools :=
  repeat match goal with
    | |- context [(?a >? ?b)%Z] => destruct (Z.gtb_spec a b)
    | |- context [(?a =? ?b)%Z] => destruct (Z.eqb_spec a b)
    | H : context [(?a >? ?b)%Z] |- _ => destruct (Z.gtb_spec a b)
    | H : context [(?a =? ?b)%Z] |- _ => destruct (Z.eqb_spec a b)
    end; cbn in *.

Lemma splice_index_of_Z (z : Z) (len : nat) :
  Number.safe z → splice_index (Number.of_Z z) len = splice_start z len.
Proof. intros Hz. unfold splice_index. by rewrite to_integer_of_Z. Qed.

Lemma array_ok_safe {A} (l : list A) :
  array_ok l → Number.safe (Z.of_nat (length l)).
Proof. unfold array_ok, Number.safe. lia. Qed.

(** On an integer, [jump] computes with integers. *)
Lemma jump_of_Z (w : Queue.World) (n : Z) :
  Number.safe n →
  array_ok (Queue.songs (Queue.queue w)) →
  array_ok (Queue.previousSongs (Queue.queue w)) →
  Queue.jump (Num (Number.of_Z n)) w = jump_integer n w.
Proof.
  intros Hn Hs Hp. unfold Queue.jump, jump_integer.
  apply array_ok_safe in Hs, Hp.
  assert (Hone : Number.safe 1) by (unfold Number.safe; lia).
  assert (Hzero : Number.safe 0) by (unfold Number.safe; lia).
  assert (Hminus : Number.safe (-1)) by (unfold Number.safe; lia).
  open_world w. unfold Number.of_nat.
  rewrite !gtb_of_Z, gtb_opp_of_Z, !eqb_of_Z by done.
  unfold splice_from.
  destruct (Z.gtb_spec n (Z.of_nat (length songs))); [done |].
  destruct (Z.gtb_spec (- n) (Z.of_nat (length previousSongs))); [done |].
  destruct (Z.eqb_spec n 0); [done |]. cbn.
  destruct (Z.gtb_spec n 0).
  - rewrite sub_of_Z, splice_index_of_Z by (done || unfold Number.safe in *; lia).
    done.
  - rewrite add_of_Z, splice_index_of_Z by (done || unfold Number.safe in *; lia).
    done.
Qed.

(** [jump] on an integer [n]: it rejects, with the range error
    "InvalidSong" and without changing anything, exactly when [n = 0], or
    [n > songs.length], or [-n > previousSongs.length], or [n < 0] while
    history retention is disabled.  A forward jump keeps the suffix of
    [songs] from index [n - 1] and sets [next] (so [jump(1)] leaves [songs]
    as it is); a backward jump sets [prev] and moves the last [-n - 1]
    elements of [previousSongs] to the front of [songs]. *)
Lemma jump_integer_spec (w : Queue.World) (n : Z) :
  let q := Queue.queue w in
  let save := savePreviousSongs (DisTube.options (Queue.distube q)) in
  let ns := Z.of_nat (length (Queue.songs q)) in
  let np := Z.of_nat (length (Queue.previousSongs q)) in
  ((∃ w' e, jump_integer n w = Thrown w' e) ↔
     (n = 0 ∨ n > ns ∨ - n > np ∨ (n < 0 ∧ save = false))) ∧
  (∀ w' e, jump_integer n w = Thrown w' e →
     w' = w ∧ e = RangeError "InvalidSong") ∧
  (0 < n ≤ ns →
     ∃ w', jump_integer n w = Returned w' tt ∧
           Queue.songs (Queue.queue w') = drop (Z.to_nat (n - 1)) (Queue.songs q) ∧
           Queue.next (Queue.queue w') = true ∧
           Queue.previousSongs (Queue.queue w') = Queue.previousSongs q) ∧
  (n = 1 → 1 ≤ ns →
     ∃ w', jump_integer n w = Returned w' tt ∧
           Queue.songs (Queue.queue w') = Queue.songs q) ∧
  (n < 0 → - n ≤ np → save = true →
     ∃ w', jump_integer n w = Returned w' tt ∧
           Queue.prev (Queue.queue w') = true ∧
           let keep := (length (Queue.previousSongs q) - Z.to_nat (- n - 1))%nat in
           Queue.previousSongs (Queue.queue w') = take keep (Queue.previousSongs q) ∧
           Queue.songs (Queue.queue w') =
             drop keep (Queue.previousSongs q) ++ Queue.songs q).
Proof.
  unfold jump_integer. open_world w.
  destruct distube as [[save lv] known]; cbn in *.
  split; [| split; [| split; [| split]]].
  - split.
    + intros (w' & e & H). revert H. case_bools; try lia.
      * destruct audioPlayer; discriminate.
      * destruct save; cbn; [| intros _; right; right; right; split; [lia | done]].
        destruct audioPlayer; discriminate.
      * destruct save; cbn; [| intros _; right; right; right; split; [lia | done]].
        destruct audioPlayer; discriminate.
    + intros Hc. case_bools; try by eexists _, _.
      all: destruct Hc as [? | [? | [? | [? ->]]]]; try lia; cbn; by eexists _, _.
  - intros w' e. case_bools; try (intros [= <- <-]; done).
    + destruct audioPlayer; discriminate.
    + destruct save; cbn; [| intros [= <- <-]; done].
      destruct audioPlayer; discriminate.
    + destruct save; cbn; [| intros [= <- <-]; done].
      destruct audioPlayer; discriminate.
  - intros Hn. case_bools; try lia.
    rewrite splice_start_forward by lia.
    destruct audioPlayer; cbn; eauto.
  - intros -> Hn. case_bools; try lia.
    rewrite splice_start_forward by lia.
    destruct audioPlayer; cbn; eauto.
  - intros Hn Hp ->. case_bools; try lia.
    + replace (Z.to_nat (- n - 1)) with 0%nat by lia.
      rewrite Nat.sub_0_r, firstn_all, drop_all.
      destruct audioPlayer; cbn; eauto.
    + rewrite splice_start_backward by lia. destruct audioPlayer; cbn; eauto.
Qed.

(** C4 (as the code has it).  For every number [x], [jump(x)] rejects,
    with the range error "InvalidSong" and without changing anything,
    exactly when [x == 0], or [x > songs.length], or
    [-x > previousSongs.length], or [x > 0] is false (so for a negative [x]
    and for [NaN]) while history retention is disabled.  A jump with
    [x > 0] that does not reject sets [next] and keeps the suffix of
    [songs] from the index that [splice] takes from [x - 1]; any other
    jump that does not reject sets [prev] and, unless [x == -1], moves the
    elements of [previousSongs] from the index that [splice] takes from
    [x + 1] to the front of [songs].  For an integer [n] this is what the
    specification says: the rejection is exactly for [n = 0],
    [n > songs.length], [-n > previousSongs.length], or [n < 0] while
    history retention is disabled; a forward jump keeps the suffix of
    [songs] from index [n - 1] (so [jump(1)] leaves [songs] as it is); a
    backward jump moves the last [-n - 1] elements of [previousSongs] to
    the front of [songs]. *)
Theorem C4_jump (w : Queue.World) :
  let q := Queue.queue w in
  let save := savePreviousSongs (DisTube.options (Queue.distube q)) in
  let songs := Queue.songs q in
  let previous := Queue.previousSongs q in
  (∀ x : Number.t,
     ((∃ w' e, Queue.jump (Num x) w = Thrown w' e) ↔
        (Number.eqb x (Number.of_Z 0) = true ∨
         Number.gtb x (Number.of_nat (length songs)) = true ∨
         Number.gtb (Number.opp x) (Number.of_nat (length previous)) = true ∨
         (Number.gtb x (Number.of_Z 0) = false ∧ save = false))) ∧
     (∀ w' e, Queue.jump (Num x) w = Thrown w' e →
        w' = w ∧ e = RangeError "InvalidSong") ∧
     (∀ w', Queue.jump (Num x) w = Returned w' tt →
        if Number.gtb x (Number.of_Z 0) then
          Queue.next (Queue.queue w') = true ∧
          Queue.previousSongs (Queue.queue w') = previous ∧
          Queue.songs (Queue.queue w') =
            drop (splice_index (Number.sub x (Number.of_Z 1)) (length songs)) songs
        else
          Queue.prev (Queue.queue w') = true ∧
          if Number.eqb x (Number.of_Z (-1)) then
            Queue.previousSongs (Queue.queue w') = previous ∧
            Queue.songs (Queue.queue w') = songs
          else
            let k := splice_index (Number.add x (Number.of_Z 1)) (length previous) in
            Queue.previousSongs (Queue.queue w') = take k previous ∧
            Queue.songs (Queue.queue w') = drop k previous ++ songs)) ∧
  (∀ n : Z,
     Number.safe n → array_ok songs → array_ok previous →
     let ns := Z.of_nat (length songs) in
     let np := Z.of_nat (length previous) in
     ((∃ w' e, Queue.jump (Num (Number.of_Z n)) w = Thrown w' e) ↔
        (n = 0 ∨ n > ns ∨ - n > np ∨ (n < 0 ∧ save = false))) ∧
     (0 < n ≤ ns →
        ∃ w', Queue.jump (Num (Number.of_Z n)) w = Returned w' tt ∧
              Queue.songs (Queue.queue w') = drop (Z.to_nat (n - 1)) songs ∧
              Queue.next (Queue.queue w') = true ∧
              Queue.previousSongs (Queue.queue w') = previous) ∧
     (n = 1 → 1 ≤ ns →
        ∃ w', Queue.jump (Num (Number.of_Z n)) w = Returned w' tt ∧
              Queue.songs (Queue.queue w') = songs) ∧
     (n < 0 → - n ≤ np → save = true →
        ∃ w', Queue.jump (Num (Number.of_Z n)) w = Returned w' tt ∧
              Queue.prev (Queue.queue w') = true ∧
              let keep := (length previous - Z.to_nat (- n - 1))%nat in
              Queue.previousSongs (Queue.queue w') = take keep previous ∧
              Queue.songs (Queue.queue w') = drop keep previous ++ songs)).
Proof.
  intros q save songs previous. split.
  - intros x. subst q save songs previous.
    unfold Queue.jump, splice_from. open_world w.
    destruct distube as [[save lv] known]; cbn in *.
    destruct (Number.gtb x (Number.of_nat (length songs))),
      (Number.gtb (Number.opp x) (Number.of_nat (length previousSongs))),
      (Number.eqb x (Number.of_Z 0)), (Number.gtb x (Number.of_Z 0)), save,
      (Number.eqb x (Number.of_Z (-1))), audioPlayer; cbn.
    all: split; [split |].
    all: try (intros (w' & e & Hrun);
              first [ discriminate Hrun | by left | by right; left
                    | by right; right; left | by right; right; right ]).
    all: try (intros Hc;
              first [ by eexists _, _
                    | exfalso; destruct Hc as [? | [? | [? | [? ?]]]]; discriminate ]).
    all: split; [intros ? ? [=]; by subst | intros ? [=]; by subst].
  - intros n Hn Hs Hp ns np.
    rewrite (jump_of_Z w n Hn Hs Hp).
    destruct (jump_integer_spec w n) as (Hreject & _ & Hforward & Hone & Hback).
    split; [exact Hreject |].
    split; [exact Hforward |]. split; [exact Hone | exact Hback].
Qed.

Lemma C4_witness :
  ∃ w', Queue.jump (Num (Number.of_Z (-2)))
          (sample_world (sample_queue true [4] [1; 2; 3] 0%Z))%positive =
          Returned w' tt ∧
        Queue.prev (Queue.queue w') = true ∧
        Queue.previousSongs (Queue.queue w') = [1; 2]%positive ∧
        Queue.songs (Queue.queue w') = [3; 4]%positive.
Proof.
  destruct (C4_jump (sample_world (sample_queue true [4] [1; 2; 3] 0%Z))%positive)
    as [_ Hint].
  destruct (Hint (-2)) as (_ & _ & _ & H);
    [by vm_compute | by vm_compute | by vm_compute |].
  destruct H as (w' & Hrun & Hprev & Hp & Hs); [reflexivity | cbn; lia | reflexivity |].
  exists w'. repeat split; [exact Hrun | exact Hprev | exact Hp | exact Hs].
Defined.

(** C4 (as the specification words it) fails for [NaN]: with history
    retention disabled [jump(NaN)] is rejected although [NaN] is not 0,
    does not exceed [songs.length], its opposite does not exceed
    [previousSongs.length], and it is not negative. *)
Lemma C4_counterexample :
  let w := sample_world (sample_queue false [1; 2; 3] [] 0%Z)%positive in
  Queue.jump (Num Number.nan) w = Thrown w (RangeError "InvalidSong") ∧
  ¬ spec_jump_rejects Number.nan (Queue.queue w).
Proof.
  split; [reflexivity |].
  intros [H | [H | [H | [H _]]]]; discriminate H.
Qed.

(** The boundary cases of the specification: with three items and an
    empty history, [jump(4)] and [jump(-1)] are rejected with
    "InvalidSong" and [jump(1)] leaves [songs] as it is. *)
Example jump_boundaries :
  let w := sample_world (sample_queue true [1; 2; 3] [] 0%Z)%positive in
  Queue.jump (Num (Number.of_Z 4)) w = Thrown w (RangeError "InvalidSong") ∧
  Queue.jump (Num (Number.of_Z (-1))) w = Thrown w (RangeError "InvalidSong") ∧
  (∃ w', Queue.jump (Num (Number.of_Z 1)) w = Returned w' tt ∧
         Queue.songs (Queue.queue w') = [1; 2; 3]%positive).
Proof. vm_compute. repeat split. by eexists. Qed.

(** Numbers that are not integers: [jump(1.5)] keeps every song, since
    [splice(0.5)] starts at index 0; with history retention enabled
    [jump(NaN)] and [jump(-1.5)] move all of [previousSongs] to the front
    of [songs]; and [jump(2^-54)] keeps the last song only, since
    [2^-54 - 1] is rounded to [-1]. *)
Example jump_fractions :
  let w := sample_world (sample_queue true [4; 5; 6] [1; 2; 3] 0%Z)%positive in
  let songs_after x := Queue.songs (Queue.queue (final (Queue.jump (Num x) w))) in
  songs_after (Number.dyadic 3 (-1)) = [4; 5; 6]%positive ∧
  songs_after Number.nan = [1; 2; 3; 4; 5; 6]%positive ∧
  songs_after (Number.dyadic (-3) (-1)) = [1; 2; 3; 4; 5; 6]%positive ∧
  songs_after (Number.dyadic 1 (-54)) = [6]%positive.
Proof. by vm_compute. Qed.

(** ** shuffle() *)

(** A draw of [Math.random], which lies in [[0, 1)], gives an index in
    [[0, i]]. *)
Lemma random_index_in_range (r : Q) (i : nat) :
  (0 <= r)%Q → (r < 1)%Q → (random_index r i ≤ i)%nat.
Proof.
  intros H0 H1. unfold random_index.
  set (m := Z.of_nat i + 1).
  assert (Hm : (0 < inject_Z m)%Q).
  { change 0%Q with (inject_Z 0). rewrite <- Zlt_Qlt. unfold m. lia. }
  assert (Hlt : (r * inject_Z m < inject_Z m)%Q).
  { rewrite <- (Qmult_1_l (inject_Z m)) at 2. by apply Qmult_lt_compat_r. }
  assert (Hfl : Qfloor (r * inject_Z m) < m).
  { rewrite Zlt_Qlt. eapply Qle_lt_trans; [apply Qfloor_le | exact Hlt]. }
  subst m. lia.
Qed.

Lemma swap_length {A} (i j : nat) (a : list A) : length (swap i j a) = length a.
Proof.
  unfold swap. destruct (a !! i), (a !! j); try done.
  by rewrite !length_insert.
Qed.

Lemma swap_Permutation {A} (i j : nat) (a : list A) : swap i j a ≡ₚ a.
Proof.
  unfold swap. destruct (a !! i) as [x |] eqn:Hi; [| done].
  destruct (a !! j) as [y |] eqn:Hj; [| done].
  by apply Permutation_insert_swap.
Qed.

(** Inside the array a swap exchanges the two elements. *)
Lemma swap_lookup {A} (i j : nat) (a : list A) (x y : A) :
  a !! i = Some x → a !! j = Some y →
  swap i j a !! i = Some y ∧ swap i j a !! j = Some x.
Proof.
  intros Hi Hj. unfold swap. rewrite Hi, Hj.
  assert (i < length a)%nat by (by eapply lookup_lt_Some).
  assert (j < length a)%nat by (by eapply lookup_lt_Some).
  split.
  - destruct (decide (i = j)) as [-> |].
    + rewrite list_lookup_insert_eq by (by rewrite length_insert). congruence.
    + rewrite list_lookup_insert_ne by done.
      by rewrite list_lookup_insert_eq.
  - by rewrite list_lookup_insert_eq by (by rewrite length_insert).
Qed.

Lemma shuffle_loop_Permutation {A} (draws : nat → Q) (k i : nat) (a : list A) :
  shuffle_loop draws k i a ≡ₚ a.
Proof.
  revert k a. induction i as [| i IH]; intros k a; cbn; [done |].
  by rewrite IH, swap_Permutation.
Qed.

Lemma shuffle_loop_swaps {A} (draws : nat → Q) (k i : nat) (a : list A) :
  shuffle_loop draws k i a =
    foldl (λ a ij, swap ij.1 ij.2 a) a (shuffle_swaps draws k i).
Proof.
  revert k a. induction i as [| i IH]; intros k a; cbn; [done |]. apply IH.
Qed.

Lemma shuffle_swaps_in_range (draws : nat → Q) (k i : nat) :
  (∀ n, (0 <= draws n)%Q ∧ (draws n < 1)%Q) →
  Forall (λ ij, (ij.2 ≤ ij.1 ≤ i)%nat) (shuffle_swaps draws k i).
Proof.
  intros Hdraws. revert k. induction i as [| i IH]; intros k; cbn; [done |].
  constructor.
  - cbn. split; [| done]. apply random_index_in_range; apply Hdraws.
  - eapply Forall_impl; [apply IH |]. cbn. lia.
Qed.

(** C5.  On a queue that is not empty, whatever [Math.random] returns,
    [shuffle()] keeps the head of [songs] in place and leaves the rest a
    permutation of what it was; every swap it makes is between two
    positions of that rest. *)
Theorem C5_shuffle (w : Queue.World) (draws : nat → Q) :
  Queue.songs (Queue.queue w) ≠ [] →
  (∀ n, (0 <= draws n)%Q ∧ (draws n < 1)%Q) →
  ∃ w', Queue.shuffle draws w = Returned w' tt ∧
        head (Queue.songs (Queue.queue w')) = head (Queue.songs (Queue.queue w)) ∧
        tail (Queue.songs (Queue.queue w')) ≡ₚ tail (Queue.songs (Queue.queue w)) ∧
        tail (Queue.songs (Queue.queue w')) =
          foldl (λ a ij, swap ij.1 ij.2 a) (tail (Queue.songs (Queue.queue w)))
            (shuffle_swaps draws 0 (length (tail (Queue.songs (Queue.queue w))) - 1)) ∧
        Forall (λ ij, (ij.2 ≤ ij.1 < length (tail (Queue.songs (Queue.queue w))))%nat)
          (shuffle_swaps draws 0 (length (tail (Queue.songs (Queue.queue w))) - 1)).
Proof.
  intros Hne Hdraws. unfold Queue.shuffle. open_world w.
  destruct songs as [| current rest]; [done |]. cbn.
  eexists. split; [reflexivity |]. cbn.
  split; [done |]. split; [apply shuffle_loop_Permutation |].
  split; [apply shuffle_loop_swaps |].
  destruct rest as [| x rest]; [constructor |].
  eapply Forall_impl; [by apply shuffle_swaps_in_range |].
  intros [i j] [Hj Hi]. cbn in *. lia.
Qed.

Lemma C5_witness :
  ∃ w', Queue.shuffle (λ _, 1 # 2)%Q
          (sample_world (sample_queue true [1; 2; 3; 4]%positive [] 0)) =
          Returned w' tt ∧
        head (Queue.songs (Queue.queue w')) = Some 1%positive ∧
        tail (Queue.songs (Queue.queue w')) ≡ₚ [2; 3; 4]%positive.
Proof.
  destruct (C5_shuffle (sample_world (sample_queue true [1; 2; 3; 4]%positive [] 0))
              (λ _, 1 # 2)%Q) as (w' & Hrun & Hhead & Hperm & _).
  - discriminate.
  - intros _. split; [discriminate | reflexivity].
  - exists w'. split; [exact Hrun |]. split; [exact Hhead | exact Hperm].
Defined.

(** With every draw equal to 1/2 the rest [2, 3, 4] becomes [2, 4, 3]. *)
Example shuffle_half :
  ∃ w', Queue.shuffle (λ _, 1 # 2)%Q
          (sample_world (sample_queue true [1; 2; 3; 4]%positive [] 0)) =
          Returned w' tt ∧
        Queue.songs (Queue.queue w') = [1; 2; 4; 3]%positive.
Proof. eexists. split; reflexivity. Qed.

(** ** skip() *)

(** C6 (as the code has it).  [skip()] rejects, with "There is no song to
    skip.", exactly when [songs] holds at most one item (one or none) and
    autoplay is disabled; otherwise it returns [songs[1]], sets [next] and
    leaves [songs] and [previousSongs] unchanged. *)
Theorem C6_skip (w : Queue.World) :
  let q := Queue.queue w in
  let blocked := (length (Queue.songs q) ≤ 1)%nat ∧ Queue.autoplay q = false in
  ((∃ w' e, Queue.skip w = Thrown w' e) ↔ blocked) ∧
  (blocked → Queue.skip w = Thrown w (Error "There is no song to skip.")) ∧
  (¬ blocked →
     ∃ w', Queue.skip w = Returned w' (Queue.songs q !! 1%nat) ∧
           Queue.next (Queue.queue w') = true ∧
           Queue.songs (Queue.queue w') = Queue.songs q ∧
           Queue.previousSongs (Queue.queue w') = Queue.previousSongs q).
Proof.
  unfold Queue.skip. open_world w.
  destruct (Nat.leb_spec (length songs) 1) as [Hle | Hgt];
    destruct autoplay; cbn.
  2: { split; [| split]; [| done |].
       - split; [intros _; split; [lia | done] | intros _; by eexists _, _].
       - intros []. split; [lia | done]. }
  all: split; [| split];
    [ split; [ intros (? & ? & H); destruct audioPlayer; discriminate H
             | intros [? ?]; (done || lia) ]
    | intros [? ?]; (done || lia)
    | intros _; destruct audioPlayer; cbn; eauto ].
Qed.

Lemma C6_witness :
  ∃ w', Queue.skip (sample_world (sample_queue true [1; 2] [] 0%Z))%positive =
          Returned w' (Some 2%positive) ∧
        Queue.next (Queue.queue w') = true.
Proof.
  destruct (C6_skip (sample_world (sample_queue true [1; 2] [] 0%Z))%positive)
    as (_ & _ & H).
  destruct H as (w' & Hrun & Hnext & _).
  - cbn. intros [Hlen _]. lia.
  - exists w'. split; [exact Hrun | exact Hnext].
Defined.

(** C6 (as the specification words it) fails on a queue whose [songs] is
    empty: the call is rejected although [songs] does not hold exactly one
    item. *)
Lemma C6_counterexample :
  ¬ ((∃ w' e, Queue.skip (sample_world (sample_queue true [] [] 0%Z)) = Thrown w' e)
     ↔ spec_skip_rejects (sample_queue true [] [] 0%Z)).
Proof.
  intros [Hrej _].
  destruct Hrej as [Hlen _]; [by eexists _, _ | discriminate Hlen].
Qed.

(** ** pause() and resume() *)

(** C7.  [pause()] rejects exactly when the queue is paused and otherwise
    sets [playing = false], [paused = true]; [resume()] rejects exactly
    when the queue is playing and otherwise sets [playing = true],
    [paused = false]; a rejected call changes nothing.  So a second
    [pause()] after a first one is rejected, and [resume()] then succeeds. *)
Theorem C7_pause_resume (w : Queue.World) :
  let q := Queue.queue w in
  ((∃ w' e, Queue.pause w = Thrown w' e) ↔ Queue.paused q = true) ∧
  (Queue.paused q = false →
     ∃ w', Queue.pause w = Returned w' tt ∧
           Queue.playing (Queue.queue w') = false ∧
           Queue.paused (Queue.queue w') = true) ∧
  ((∃ w' e, Queue.resume w = Thrown w' e) ↔ Queue.playing q = true) ∧
  (Queue.playing q = false →
     ∃ w', Queue.resume w = Returned w' tt ∧
           Queue.playing (Queue.queue w') = true ∧
           Queue.paused (Queue.queue w') = false) ∧
  (∀ w' e, Queue.pause w = Thrown w' e → w' = w) ∧
  (∀ w' e, Queue.resume w = Thrown w' e → w' = w) ∧
  (Queue.paused q = false →
     ∃ w1 w2 e, Queue.pause w = Returned w1 tt ∧
                Queue.pause w1 = Thrown w1 e ∧
                Queue.resume w1 = Returned w2 tt ∧
                Queue.paused (Queue.queue w2) = false ∧
                Queue.playing (Queue.queue w2) = true).
Proof.
  unfold Queue.pause, Queue.resume. open_world w.
  repeat split.
  - intros (w' & e' & H). destruct paused; [done | ].
    destruct audioPlayer; discriminate H.
  - intros ->. eauto.
  - intros ->. destruct audioPlayer; cbn; eauto.
  - intros (w' & e' & H). destruct playing; [done | ].
    destruct audioPlayer; discriminate H.
  - intros ->. eauto.
  - intros ->. destruct audioPlayer; cbn; eauto.
  - intros w' e' H. destruct paused; [congruence | ].
    destruct audioPlayer; discriminate H.
  - intros w' e' H. destruct playing; [congruence | ].
    destruct audioPlayer; discriminate H.
  - intros ->. destruct audioPlayer; cbn; eauto 10.
Qed.

Lemma C7_witness :
  ∃ w1 w2 e,
    Queue.pause (sample_world (sample_queue true [1] [] 0%Z))%positive = Returned w1 tt ∧
    Queue.pause w1 = Thrown w1 e ∧
    Queue.resume w1 = Returned w2 tt ∧
    Queue.paused (Queue.queue w2) = false ∧
    Queue.playing (Queue.queue w2) = true.
Proof.
  destruct (C7_pause_resume (sample_world (sample_queue true [1] [] 0%Z))%positive)
    as (_ & _ & _ & _ & _ & _ & H).
  apply H. reflexivity.
Defined.

(** ** addToQueue() *)

Lemma delete_info_idemp (s : Song.t) :
  Song.delete_info (Song.delete_info s) = Song.delete_info s.
Proof. reflexivity. Qed.

(** The heap after [delete s.info] on every item *)
Lemma delete_infos_lookup (items : list SongRef) (h : Heap) (r : SongRef) :
  foldl (λ h r, alter Song.delete_info r h) h items !! r =
    if decide (r ∈ items) then Song.delete_info <$> h !! r else h !! r.
Proof.
  revert h. induction items as [| x items IH]; intros h; cbn.
  - rewrite decide_False; [done | apply not_elem_of_nil].
  - rewrite IH, lookup_alter.
    destruct (decide (r ∈ items)), (decide (x = r)) as [-> |].
    + rewrite decide_True by apply list_elem_of_here.
      destruct (h !! r); cbn; [by rewrite delete_info_idemp | done].
    + rewrite decide_True; [done | by apply list_elem_of_further].
    + rewrite decide_True; [done | by apply list_elem_of_here].
    + rewrite decide_False; [done |].
      rewrite elem_of_cons. intros [-> | ?]; done.
Qed.

Lemma splice_start_insert (position : Z) (len : nat) :
  0 < position → splice_start position len = (Z.to_nat position `min` len)%nat.
Proof.
  intros Hp. unfold splice_start.
  destruct (Z.ltb_spec position 0); lia.
Qed.

Lemma splice_start_zero (len : nat) : splice_start 0 len = 0%nat.
Proof. unfold splice_start. cbn. lia. Qed.

Lemma sublist_insert_block {A} (k : nat) (items l : list A) :
  sublist l (take k l ++ items ++ drop k l).
Proof.
  rewrite <- (take_drop k l) at 1.
  apply sublist_app; [done |]. by apply sublist_inserts_l.
Qed.

(** What [addToQueue] does, for every position: it throws before writing
    when there is no item or the position is 0, and puts the items at
    [insert_index] otherwise. *)
Lemma addToQueue_run (w : Queue.World) (song : option (SongRef + list SongRef))
    (position : option Number.t) :
  let pos := position_of position in
  let songs := Queue.songs (Queue.queue w) in
  let k := insert_index pos (length songs) in
  if bool_decide (items_of song = []) || Number.eqb pos (Number.of_Z 0) then
    ∃ e, Queue.addToQueue song position w = Thrown w e
  else
    Queue.addToQueue song position w =
      Returned
        (Queue.mkWorld
           (foldl (λ h r, alter Song.delete_info r h) (Queue.heap w) (items_of song))
           (Queue.set_songs (take k songs ++ items_of song ++ drop k songs)
              (Queue.queue w))
           (Queue.effects w)) tt.
Proof.
  unfold Queue.addToQueue, insert_index, splice_insert.
  fold (position_of position). set (pos := position_of position). clearbody pos.
  destruct w as [h q eff]. monad_unfold.
  cbn [Queue.queue Queue.heap Queue.effects].
  assert (Hend : ∀ items : list SongRef,
            Queue.songs q ++ items =
              take (length (Queue.songs q)) (Queue.songs q) ++ items ++
              drop (length (Queue.songs q)) (Queue.songs q)).
  { intros items. by rewrite firstn_all, drop_all, app_nil_r. }
  destruct song as [[s | [| x l]] |]; cbn [items_of];
    try (rewrite bool_decide_eq_true_2 by done; by eexists).
  all: rewrite bool_decide_eq_false_2 by done; cbn [orb].
  all: destruct (Number.eqb pos (Number.of_Z 0)); [by eexists |].
  all: destruct (Number.ltb pos (Number.of_Z 0)); [by rewrite <- Hend | done].
Qed.

(** The index at which the items go for an integer position *)
Lemma insert_index_of_Z (p : Z) (len : nat) :
  Number.safe p →
  insert_index (Number.of_Z p) len =
    if p <? 0 then len else splice_start p len.
Proof.
  intros Hp. assert (Hzero : Number.safe 0) by by vm_compute.
  unfold insert_index. by rewrite ltb_of_Z, splice_index_of_Z.
Qed.

(** Where the items go: at [min(position, songs.length)] for a positive
    integer, at the end for a negative one, and at index 0 for [NaN] and
    for a number strictly between 0 and 1, which is not refused as 0 is. *)
Lemma insert_index_cases (pos : Number.t) (len : nat) :
  (∀ p : Z, Number.safe p → pos = Number.of_Z p →
     (Number.eqb pos (Number.of_Z 0) = true ↔ p = 0) ∧
     (p < 0 → insert_index pos len = len) ∧
     (0 < p → insert_index pos len = (Z.to_nat p `min` len)%nat)) ∧
  (pos = Number.nan ∨
   (Number.valid pos ∧ Number.gtb pos (Number.of_Z 0) = true ∧
    Number.ltb pos (Number.of_Z 1) = true) →
     Number.eqb pos (Number.of_Z 0) = false ∧ insert_index pos len = 0%nat).
Proof.
  split.
  - intros p Hp ->.
    assert (Hzero : Number.safe 0) by by vm_compute.
    rewrite eqb_of_Z, insert_index_of_Z by done.
    split; [apply Z.eqb_eq |]. split; intros Hsign.
    + by destruct (Z.ltb_spec p 0); [| lia].
    + destruct (Z.ltb_spec p 0); [lia |]. by apply splice_start_insert.
  - intros [Hnan | (Hvalid & Hpos & Hone)].
    { rewrite Hnan. split; [reflexivity |].
      unfold insert_index, splice_index.
      change (Number.ltb Number.nan (Number.of_Z 0)) with false.
      change (Number.to_integer Number.nan) with (Number.Int 0).
      apply splice_start_zero. }
    assert (Heq : Number.eqb pos (Number.of_Z 0) = false).
    { revert Hpos. unfold Number.eqb, Number.gtb, SFeqb, SFltb.
      change (Number.of_Z 0) with (S754_zero false).
      by destruct pos as [[] | [] | | [] ? ?]. }
    assert (Hlt : Number.ltb pos (Number.of_Z 0) = false).
    { revert Hpos. unfold Number.ltb, Number.gtb, SFltb.
      change (Number.of_Z 0) with (S754_zero false).
      by destruct pos as [[] | [] | | [] ? ?]. }
    split; [done |]. unfold insert_index, splice_index.
    rewrite Hlt, to_integer_fraction by done. apply splice_start_zero.
Qed.

(** [0.5] is such a position. *)
Example insert_index_half (len : nat) :
  insert_index (Number.dyadic 1 (-1)) len = 0%nat.
Proof. apply insert_index_cases. right. by vm_compute. Qed.

(** C8 (as the code has it).  [addToQueue(song, position)] rejects,
    changing nothing, exactly when no item is given (a falsy argument or an
    empty array) or [position == 0].  Otherwise the items go to the end of
    [songs] when [position < 0] (the default [-1] included) and else to
    the index that [splice] takes from [position]; the items already there
    keep their relative order; and the [info] of every inserted item is
    deleted, the other objects of the heap staying as they are.  For an
    integer [position > 0] the index is [min(position, songs.length)].
    For [NaN] and for every position strictly between 0 and 1 the index is
    0: the items are put before the playing song. *)
Theorem C8_addToQueue (w : Queue.World) (song : option (SongRef + list SongRef))
    (position : option Number.t) :
  let q := Queue.queue w in
  let pos := position_of position in
  let items := items_of song in
  let len := length (Queue.songs q) in
  ((∃ w' e, Queue.addToQueue song position w = Thrown w' e) ↔
     (items = [] ∨ Number.eqb pos (Number.of_Z 0) = true)) ∧
  (∀ w' e, Queue.addToQueue song position w = Thrown w' e → w' = w) ∧
  (items ≠ [] → Number.eqb pos (Number.of_Z 0) = false →
     ∃ w', Queue.addToQueue song position w = Returned w' tt ∧
       let k := insert_index pos len in
       Queue.songs (Queue.queue w') =
         take k (Queue.songs q) ++ items ++ drop k (Queue.songs q) ∧
       (Number.ltb pos (Number.of_Z 0) = true →
          Queue.songs (Queue.queue w') = Queue.songs q ++ items) ∧
       sublist (Queue.songs q) (Queue.songs (Queue.queue w')) ∧
       (∀ r, r ∈ items →
          Queue.heap w' !! r = Song.delete_info <$> Queue.heap w !! r) ∧
       (∀ r s, r ∈ items → Queue.heap w' !! r = Some s → Song.info s = JUndefined) ∧
       (∀ r, r ∉ items → Queue.heap w' !! r = Queue.heap w !! r)) ∧
  (position = None →
     Number.eqb pos (Number.of_Z 0) = false ∧ insert_index pos len = len) ∧
  (∀ p : Z, Number.safe p → pos = Number.of_Z p →
     (Number.eqb pos (Number.of_Z 0) = true ↔ p = 0) ∧
     (p < 0 → insert_index pos len = len) ∧
     (0 < p → insert_index pos len = (Z.to_nat p `min` len)%nat)) ∧
  (pos = Number.nan ∨
   (Number.valid pos ∧ Number.gtb pos (Number.of_Z 0) = true ∧
    Number.ltb pos (Number.of_Z 1) = true) →
     Number.eqb pos (Number.of_Z 0) = false ∧ insert_index pos len = 0%nat).
Proof.
  intros q pos items len.
  pose proof (addToQueue_run w song position) as Hrun. cbn zeta in Hrun.
  fold pos q items len in Hrun.
  split; [| split; [| split; [| split; [| split]]]].
  - destruct (bool_decide_reflect (items = [])) as [Hnil | Hitems];
      destruct (Number.eqb pos (Number.of_Z 0)); cbn [orb] in Hrun.
    + destruct Hrun as [e Hrun]. split; [by left | by eexists _, _].
    + destruct Hrun as [e Hrun]. split; [by left | by eexists _, _].
    + destruct Hrun as [e Hrun]. split; [by right | by eexists _, _].
    + rewrite Hrun. split; [by intros (? & ? & ?) | by intros [|]].
  - intros w' e Hthrown.
    destruct (bool_decide (items = []) || Number.eqb pos (Number.of_Z 0)).
    + destruct Hrun as [e' Hrun]. rewrite Hrun in Hthrown. by injection Hthrown.
    + by rewrite Hrun in Hthrown.
  - intros Hitems Hpos. rewrite bool_decide_eq_false_2, Hpos in Hrun by done.
    eexists. split; [exact Hrun |]. cbn.
    split; [done |]. split; [| split; [apply sublist_insert_block |]].
    + intros Hlt. unfold insert_index, len. rewrite Hlt.
      by rewrite firstn_all, drop_all, app_nil_r.
    + split; [| split].
      * intros r Hr. by rewrite delete_infos_lookup, decide_True.
      * intros r s Hr. rewrite delete_infos_lookup, decide_True by done.
        destruct (Queue.heap w !! r); [intros [= <-]; reflexivity | done].
      * intros r Hr. by rewrite delete_infos_lookup, decide_False.
  - intros Hnone. subst pos. by rewrite Hnone.
  - apply insert_index_cases.
  - apply insert_index_cases.
Qed.

Lemma C8_witness :
  ∃ w', Queue.addToQueue (Some (inr [7; 8]%positive)) (Some (Number.of_Z 1))
          (sample_world (sample_queue true [1; 2]%positive [] 0)) =
          Returned w' tt ∧
        Queue.songs (Queue.queue w') = [1; 7; 8; 2]%positive.
Proof.
  destruct (C8_addToQueue (sample_world (sample_queue true [1; 2]%positive [] 0))
              (Some (inr [7; 8]%positive)) (Some (Number.of_Z 1))) as (_ & _ & H & _).
  destruct H as (w' & Hrun & Hsongs & _); [discriminate | reflexivity |].
  exists w'. split; [exact Hrun | exact Hsongs].
Defined.

(** C8 (as the specification words it) fails for a position beyond the end
    of [songs]: the items are put at the end, not at that index. *)
Lemma C8_counterexample :
  ¬ (∀ w', Queue.addToQueue (Some (inl 2%positive)) (Some (Number.of_Z 5))
             (sample_world (sample_queue true [1%positive] [] 0)) =
             Returned w' tt →
           spec_inserted_at 5 [2]%positive (Queue.songs (Queue.queue w'))).
Proof.
  intros H. specialize (H _ eq_refl 0%nat 2%positive eq_refl).
  discriminate H.
Qed.

(** Positions that are not integers: a song added at position [0.5], or
    at [NaN], is put before the playing song. *)
Example addToQueue_fractions :
  let w := sample_world (sample_queue true [1; 2]%positive [] 0) in
  let songs_after x :=
    Queue.songs (Queue.queue (final (Queue.addToQueue (Some (inl 9%positive)) (Some x) w))) in
  songs_after (Number.dyadic 1 (-1)) = [9; 1; 2]%positive ∧
  songs_after Number.nan = [9; 1; 2]%positive ∧
  songs_after (Number.dyadic 3 (-1)) = [1; 9; 2]%positive.
Proof. by vm_compute. Qed.

(** The song object is shared: adding again an object that is already in
    the queue deletes the [info] that the queue item had. *)
Example addToQueue_deletes_info :
  let h : Heap := {[ 7%positive := sample_song (JObj [("full", JBool true)]) ]} in
  let w := Queue.mkWorld h (sample_queue true [7%positive] [] 0) [] in
  ∃ w', Queue.addToQueue (Some (inl 7%positive)) None w = Returned w' tt ∧
        Queue.songs (Queue.queue w') = [7; 7]%positive ∧
        Song.info <$> Queue.heap w' !! 7%positive = Some JUndefined.
Proof.
  eexists. split; [vm_compute; reflexivity |]. split; [reflexivity |].
  by vm_compute.
Qed.

(** ** What a method leaves untouched *)

Lemma final_bind {S A B} (m : M S A) (k : A → M S B) (st : S) :
  final (bind m k st) =
    match m st with
    | Returned st' a => final (k a st')
    | Thrown st' _ => st'
    end.
Proof. unfold bind. by destruct (m st). Qed.

Section Keeps.
Context {X : Type} (π : Queue.t → X).

Local Abbreviation keeps := (keeps π).

Lemma keeps_ret {A} (a : A) : keeps (ret a).
Proof. by intros w. Qed.

Lemma keeps_throw {A} (e : JSError) : keeps (@throw _ A e).
Proof. by intros w. Qed.

Lemma keeps_bind {A B} (m : M Queue.World A) (k : A → M Queue.World B) :
  keeps m → (∀ a, keeps (k a)) → keeps (bind m k).
Proof.
  intros Hm Hk w. rewrite final_bind. specialize (Hm w).
  destruct (m w) as [w' a | w' e]; cbn in *; [| done].
  by rewrite Hk.
Qed.

Lemma keeps_this {A} (f : Queue.t → A) : keeps (Queue.this f).
Proof. by intros w. Qed.

Lemma keeps_heap : keeps (gets Queue.heap).
Proof. by intros w. Qed.

Lemma keeps_emit (e : Effect) : keeps (Queue.emit e).
Proof. by intros w. Qed.

Lemma keeps_update_heap (f : Heap → Heap) : keeps (Queue.update_heap f).
Proof. by intros w. Qed.

Lemma keeps_assign (f : Queue.t → Queue.t) :
  (∀ q, π (f q) = π q) → keeps (Queue.assign f).
Proof. intros Hf w. apply Hf. Qed.

Lemma keeps_js_get (deref : SongRef → string → JSValue) (v : JSValue) (k : string) :
  keeps (js_get deref v k).
Proof. by destruct v. Qed.

Lemma keeps_mapM {A B} (f : A → M Queue.World B) (l : list A) :
  (∀ x, keeps (f x)) → keeps (mapM f l).
Proof.
  intros Hf. induction l as [| x l IH]; cbn; [apply keeps_ret |].
  apply keeps_bind; [done |]. intros y.
  apply keeps_bind; [done |]. intros ys. apply keeps_ret.
Qed.

Lemma keeps_findM {A} (f : A → M Queue.World bool) (l : list A) :
  (∀ x, keeps (f x)) → keeps (findM f l).
Proof.
  intros Hf. induction l as [| x l IH]; cbn; [apply keeps_ret |].
  apply keeps_bind; [done |]. intros [|]; [apply keeps_ret | done].
Qed.
End Keeps.

(** Walks through a method: every step is a read, a call recorded as an
    event, or an assignment, and the assignments must leave [π] alone. *)
Ltac keeps_step :=
  first
    [ apply keeps_ret | apply keeps_throw | apply keeps_this
    | apply keeps_heap | apply keeps_emit | apply keeps_update_heap
    | apply keeps_js_get
    | apply keeps_assign; intros []; reflexivity
    | apply keeps_bind; [| intros ?]
    | apply keeps_mapM; intros ?
    | apply keeps_findM; intros ?
    | match goal with
      | |- keeps _ (match ?x with _ => _ end) => destruct x
      end ].

Ltac keeps_method :=
  repeat (unfold Queue.audioPlayer_call, Queue.addToQueue, when; keeps_step).

Ltac keeps_op :=
  match goal with
  | |- ∀ w, ?π (Queue.queue (final (?m w))) = ?π (Queue.queue w) =>
      change (keeps π m)
  end;
  unfold Queue.addToQueue, Queue.pause, Queue.resume, Queue.stop,
    Queue.setVolume, Queue.skip, Queue.previous, Queue.shuffle, Queue.jump,
    Queue.setRepeatMode, Queue.setFilter, Queue.seek, Queue.addRelatedSong,
    Queue.toggleAutoplay;
  keeps_method.


(** Only [pause()] and [resume()] write [playing] and [paused]. *)
Lemma flags_written_by_pause_resume_only (op : QueueOp) (w : Queue.World) :
  op ≠ OpPause → op ≠ OpResume →
  Queue.playing (Queue.queue (run_op op w)) = Queue.playing (Queue.queue w) ∧
  Queue.paused (Queue.queue (run_op op w)) = Queue.paused (Queue.queue w).
Proof.
  intros Hp Hr.
  enough (flags (Queue.queue (run_op op w)) = flags (Queue.queue w)) as H.
  { split; [exact (f_equal fst H) | exact (f_equal snd H)]. }
  revert w. destruct op; try done; cbn [run_op]; keeps_op.
Qed.

(** Only [setRepeatMode()], [setFilter()] and [seek()] write [repeatMode]
    or [beginTime]. *)
Lemma mode_time_written_by (op : QueueOp) (w : Queue.World) :
  match op with
  | OpSetRepeatMode _ | OpSetFilter _ | OpSeek _ => True
  | _ =>
      Queue.repeatMode (Queue.queue (run_op op w)) = Queue.repeatMode (Queue.queue w) ∧
      Queue.beginTime (Queue.queue (run_op op w)) = Queue.beginTime (Queue.queue w)
  end.
Proof.
  enough (match op with
          | OpSetRepeatMode _ | OpSetFilter _ | OpSeek _ => True
          | _ => mode_time (Queue.queue (run_op op w)) = mode_time (Queue.queue w)
          end) as H.
  { destruct op; try done;
      (split; [exact (f_equal fst H) | exact (f_equal snd H)]). }
  revert w. destruct op; try done; cbn [run_op]; keeps_op.
Qed.

(** ** The invariants of the data model *)

Lemma currentTime_nonneg (q : Queue.t) :
  (0 <= Queue.beginTime q)%Q → (0 <= Queue.currentTime q)%Q.
Proof.
  intros Hb. unfold Queue.currentTime.
  destruct (Queue.audioResource q) as [r |]; [| done].
  assert (Hpd : (0 <= inject_Z (Z.of_N (playbackDuration r)))%Q).
  { change 0%Q with (inject_Z 0). rewrite <- Zle_Qle. lia. }
  assert (Hdiv : (0 <= inject_Z (Z.of_N (playbackDuration r)) / 1000)%Q).
  { apply Qle_shift_div_l; [done |]. by rewrite Qmult_0_l. }
  rewrite <- (Qplus_0_l 0). by apply Qplus_le_compat.
Qed.

(** C10.  A new queue has [playing = true] and [paused = false]; every
    operation keeps [playing] equal to the negation of [paused]; and no
    operation other than [pause()] and [resume()] writes either flag. *)
Theorem C10_playing_not_paused :
  (∀ dt guild_id channel song text_channel,
     let q := Queue.new dt guild_id channel song text_channel in
     Queue.playing q = true ∧ Queue.paused q = false ∧ flags_inv q) ∧
  (∀ op w, flags_inv (Queue.queue w) → flags_inv (Queue.queue (run_op op w))) ∧
  (∀ op w, op ≠ OpPause → op ≠ OpResume →
     Queue.playing (Queue.queue (run_op op w)) = Queue.playing (Queue.queue w) ∧
     Queue.paused (Queue.queue (run_op op w)) = Queue.paused (Queue.queue w)).
Proof.
  split; [done |].
  assert (Hframe : ∀ op w, op ≠ OpPause → op ≠ OpResume →
            Queue.playing (Queue.queue (run_op op w)) = Queue.playing (Queue.queue w) ∧
            Queue.paused (Queue.queue (run_op op w)) = Queue.paused (Queue.queue w)).
  { intros op w Hp Hr. by apply flags_written_by_pause_resume_only. }
  split; [| exact Hframe].
  intros op w Hinv. unfold flags_inv in *.
  destruct op;
    try (match goal with
         | |- context [run_op ?o w] =>
             destruct (Hframe o w) as [-> ->]; [discriminate | discriminate | exact Hinv]
         end).
  - cbn [run_op]. unfold Queue.pause. open_world w.
    destruct paused, audioPlayer; cbn; done.
  - cbn [run_op]. unfold Queue.resume. open_world w.
    destruct playing, audioPlayer; cbn; done.
Qed.

Lemma C10_witness :
  flags_inv (Queue.queue
               (run_op OpPause (sample_world (sample_queue true [1%positive] [] 0)))).
Proof.
  destruct C10_playing_not_paused as (_ & H & _).
  apply H. reflexivity.
Defined.

(** C2 (as the code has it).  A new queue has [repeatMode = 0] and
    [beginTime = 0].  Every operation keeps [repeatMode] in {0, 1, 2} and
    [beginTime] non-negative provided that [setRepeatMode] is given
    [null], nothing, or one of 0, 1, 2, and that [seek] is given a
    non-negative time.  [setRepeatMode] rejects no integer: it stores
    the integer it is given, or 0 when that is the mode of the queue
    already, and returns what it stored; [seek] rejects no time and stores
    the time it is given. *)
Theorem C2_mode_time_invariant :
  (∀ dt guild_id channel song text_channel,
     let q := Queue.new dt guild_id channel song text_channel in
     Queue.repeatMode q = 0 ∧ Queue.beginTime q = 0%Q ∧ mode_time_inv q) ∧
  (∀ op w, in_range op → mode_time_inv (Queue.queue w) →
     mode_time_inv (Queue.queue (run_op op w))) ∧
  (∀ w m, ∃ w',
     Queue.setRepeatMode (ArgNumber m) w =
       Returned w' (Queue.repeatMode (Queue.queue w')) ∧
     Queue.repeatMode (Queue.queue w') =
       if Queue.repeatMode (Queue.queue w) =? m then 0 else m) ∧
  (∀ w time, ∃ w',
     Queue.seek time w = Returned w' tt ∧
     Queue.beginTime (Queue.queue w') = time).
Proof.
  split; [by (intros; repeat split) |].
  split; [| split].
  2: { intros w m. unfold Queue.setRepeatMode. open_world w.
       destruct (repeatMode =? m); cbn;
         match goal with |- ∃ w', Returned ?x _ = _ ∧ _ => exists x end;
         split; reflexivity. }
  2: { intros w time. unfold Queue.seek. open_world w.
       match goal with |- ∃ w', Returned ?x _ = _ ∧ _ => exists x end;
       split; reflexivity. }
  intros op w Hop Hinv.
  pose proof (currentTime_nonneg (Queue.queue w)) as Hnow.
  unfold mode_time_inv in *.
  destruct op;
    try (match goal with
         | |- context [run_op ?o w] =>
             lazymatch o with
             | OpSetRepeatMode _ => fail
             | OpSetFilter _ => fail
             | OpSeek _ => fail
             | _ => destruct (mode_time_written_by o w) as [-> ->]; exact Hinv
             end
         end).
  - (* setRepeatMode *)
    cbn [run_op]. unfold Queue.setRepeatMode. open_world w.
    destruct Hinv as [Hmode Htime].
    destruct mode as [m | | |]; cbn in *; try done.
    + destruct (Z.eqb_spec repeatMode m); cbn; split; (done || lia).
    + split; [| done].
      assert (repeatMode = 0 ∨ repeatMode = 1 ∨ repeatMode = 2) as [-> | [-> | ->]]
        by lia; by vm_compute.
    + split; [| done].
      assert (repeatMode = 0 ∨ repeatMode = 1 ∨ repeatMode = 2) as [-> | [-> | ->]]
        by lia; by vm_compute.
  - (* setFilter *)
    cbn [run_op]. unfold Queue.setFilter. open_world w.
    destruct Hinv as [Hmode Htime]. specialize (Hnow Htime).
    destruct filter as [f |]; cbn.
    + destruct (bool_decide _); cbn; [| done].
      destruct (indexOf f filters); cbn; done.
    + done.
  - (* seek *)
    cbn [run_op]. unfold Queue.seek. open_world w.
    destruct Hinv as [Hmode _]. done.
Qed.

Lemma C2_witness :
  mode_time_inv
    (Queue.queue
       (run_op (OpSetRepeatMode (ArgNumber 2))
          (sample_world (sample_queue true [1%positive] [] 0)))).
Proof.
  destruct C2_mode_time_invariant as (_ & H & _).
  apply H; [by vm_compute | split; [by vm_compute | discriminate]].
Defined.

(** C2 (as the specification words it) fails: [setRepeatMode(5)] is
    accepted and leaves [repeatMode = 5], and [seek(-1)] is accepted and
    leaves [beginTime = -1]. *)
Lemma C2_counterexample :
  let w := sample_world (sample_queue true [1%positive] [] 0) in
  mode_time_inv (Queue.queue w) ∧
  (∃ w', Queue.setRepeatMode (ArgNumber 5) w = Returned w' 5 ∧
         ¬ mode_time_inv (Queue.queue w')) ∧
  (∃ w', Queue.seek (-1) w = Returned w' tt ∧
         ¬ mode_time_inv (Queue.queue w')).
Proof.
  intros w. split; [split; [by vm_compute | discriminate] |]. split.
  - eexists. split; [reflexivity |]. intros [[_ Hmode] _]. by apply Hmode.
  - eexists. split; [reflexivity |]. intros [_ Htime]. by apply Htime.
Qed.

(** ** The Task Serializer *)

Module TaskSerializerFacts.
Import TaskSerializer.

Lemma well_formed_empty : well_formed empty.
Proof. split; cbn; [lia | done]. Qed.

Lemma well_formed_step (s : t) (e : Event) :
  well_formed s → well_formed (step s e).
Proof.
  destruct s as [ws rs cs]. intros [Hlen Hidle]; cbn in *.
  destruct e as [u | ok]; cbn.
  - unfold enqueue; cbn. destruct rs as [| r rs]; cbn in *.
    + split; cbn; [lia | done].
    + split; cbn; [lia | done].
  - unfold complete; cbn. destruct rs as [| r rs]; cbn in *; [by split |].
    destruct rs; [| cbn in Hlen; lia].
    destruct ws as [| v ws]; cbn; split; cbn; (lia || done).
Qed.

(** A step completes nothing out of order and loses nothing: the units
    completed so far, followed by those pending, only grow at the end. *)
Lemma step_order (s : t) (e : Event) :
  well_formed s →
  (completed (step s e)).*1 ++ pending (step s e) =
    (completed s).*1 ++ pending s ++ submitted [e].
Proof.
  destruct s as [ws rs cs]. intros [Hlen Hidle]; unfold pending; cbn in *.
  destruct e as [u | ok]; cbn.
  - unfold enqueue; cbn. destruct rs as [| r rs]; cbn.
    + by rewrite Hidle.
    + by rewrite <- !(assoc_L (++)).
  - unfold complete; cbn. rewrite !app_nil_r.
    destruct rs as [| r rs]; cbn; [done |].
    destruct rs; [| cbn in Hlen; lia].
    destruct ws as [| v ws]; cbn; rewrite fmap_app; cbn;
      by rewrite <- !(assoc_L (++)).
Qed.

Lemma submitted_app (es1 es2 : list Event) :
  submitted (es1 ++ es2) = submitted es1 ++ submitted es2.
Proof. apply omap_app. Qed.

Lemma run_order (events : list Event) (s : t) :
  well_formed s →
  well_formed (run events s) ∧
  (completed (run events s)).*1 ++ pending (run events s) =
    (completed s).*1 ++ pending s ++ submitted events.
Proof.
  revert s. induction events as [| e events IH]; intros s Hwf.
  - cbn. split; [done |]. by rewrite app_nil_r.
  - change (run (e :: events) s) with (run events (step s e)).
    destruct (IH (step s e)) as [Hwf' Horder]; [by apply well_formed_step |].
    split; [done |].
    rewrite Horder, (assoc_L (++) _ (pending (step s e))), step_order by done.
    change (submitted (e :: events)) with (submitted ([e] ++ events)).
    rewrite submitted_app. by rewrite <- !(assoc_L (++)).
Qed.

(** Completions, successful or not, drain the pending units in order. *)
Lemma drain (outcomes : list bool) (s : t) :
  well_formed s → length outcomes = length (pending s) →
  run (Complete <$> outcomes) s =
    mk [] [] (completed s ++ zip (pending s) outcomes).
Proof.
  revert s. induction outcomes as [| ok outcomes IH];
    intros [ws rs cs] [Hlen Hidle] Hn; unfold pending in *; cbn in Hlen, Hidle, Hn.
  - destruct rs; [| done]. rewrite Hidle by done. cbn. by rewrite app_nil_r.
  - change (run (Complete <$> ok :: outcomes) (mk ws rs cs))
      with (run (Complete <$> outcomes) (complete ok (mk ws rs cs))).
    destruct rs as [| r rs]; [by rewrite Hidle in Hn |].
    destruct rs; [| cbn in Hlen; lia].
    destruct ws as [| v ws]; cbn in Hn.
    + rewrite IH; [| split; cbn; [lia | done] | cbn; lia].
      cbn. by rewrite <- (assoc_L (++)).
    + rewrite IH; [| split; cbn; [lia | done] | cbn; lia].
      cbn. by rewrite <- (assoc_L (++)).
Qed.
End TaskSerializerFacts.

(** C3 (on the model of the serializer).  Whatever the interleaving of
    submissions and completions: at most one unit is in flight; the units
    completed so far, in completion order, followed by the pending ones are
    exactly the submitted units in submission order; and the pending units
    then complete in that order whatever their outcomes, a failure being
    recorded like a success and followed by the start of the next unit. *)
Theorem C3_serializer_fifo (events : list TaskSerializer.Event) :
  let s := TaskSerializer.run events TaskSerializer.empty in
  (length (TaskSerializer.running s) ≤ 1)%nat ∧
  (TaskSerializer.completed s).*1 ++ TaskSerializer.pending s =
    TaskSerializer.submitted events ∧
  (∀ outcomes : list bool,
     length outcomes = length (TaskSerializer.pending s) →
     let s' := TaskSerializer.run (TaskSerializer.Complete <$> outcomes) s in
     TaskSerializer.running s' = [] ∧ TaskSerializer.waiting s' = [] ∧
     TaskSerializer.completed s' =
       TaskSerializer.completed s ++ zip (TaskSerializer.pending s) outcomes ∧
     (TaskSerializer.completed s').*1 = TaskSerializer.submitted events).
Proof.
  intros s.
  destruct (TaskSerializerFacts.run_order events TaskSerializer.empty
              TaskSerializerFacts.well_formed_empty) as [Hwf Horder].
  fold s in Hwf, Horder. cbn in Horder.
  split; [apply Hwf |]. split; [exact Horder |].
  intros outcomes Hlen s'. unfold s'.
  rewrite TaskSerializerFacts.drain by done. cbn.
  split; [done |]. split; [done |]. split; [done |].
  rewrite <- Horder, fmap_app. f_equal.
  by rewrite fst_zip by lia.
Qed.

Lemma C3_witness :
  let events := [TaskSerializer.Submit 1; TaskSerializer.Submit 2;
                 TaskSerializer.Complete false; TaskSerializer.Submit 3]%nat in
  let s := TaskSerializer.run events TaskSerializer.empty in
  TaskSerializer.completed
    (TaskSerializer.run (TaskSerializer.Complete <$> [false; true]) s) =
    [(1, false); (2, false); (3, true)]%nat.
Proof.
  intros events s.
  destruct (C3_serializer_fifo events) as (_ & _ & H).
  destruct (H [false; true]) as (_ & _ & Hdone & _); [reflexivity |].
  exact Hdone.
Defined.

(** ** Construction of songs *)

(** Allocation leaves the objects of the heap as they are. *)
Lemma alloc_keeps_objects (s : Song.t) (h : Heap) (r : SongRef) (s' : Song.t) :
  h !! r = Some s' → final (Song.alloc s h) !! r = Some s'.
Proof.
  intros Hr. unfold Song.alloc. cbn.
  rewrite lookup_insert_ne; [done |].
  intros <-. pose proof (is_fresh (dom h)) as Hfresh.
  apply Hfresh, elem_of_dom. by eexists.
Qed.

(** Induction on a value with the hypothesis for the values inside it *)
Lemma JSValue_deep_ind (P : JSValue → Prop) :
  P JUndefined → P JNull → (∀ b, P (JBool b)) → (∀ q, P (JNum q)) →
  (∀ s, P (JStr s)) →
  (∀ l, Forall P l → P (JArr l)) →
  (∀ props, Forall (λ p, P p.2) props → P (JObj props)) →
  (∀ r, P (JSongObj r)) →
  ∀ v, P v.
Proof.
  intros Hu Hn Hb Hq Hs Ha Ho Hr.
  fix IH 1. intros [| | b | q | s | l | props | r].
  - exact Hu.
  - exact Hn.
  - apply Hb.
  - apply Hq.
  - apply Hs.
  - apply Ha. induction l as [| x l IHl]; constructor; [apply IH | exact IHl].
  - apply Ho. induction props as [| [k x] props IHp]; constructor;
      [apply IH | exact IHp].
  - apply Hr.
Qed.

Lemma created_refl (h : Heap) : created_live_zero h h.
Proof. intros r s Hs. by left. Qed.

Lemma created_trans (h1 h2 h3 : Heap) :
  created_live_zero h1 h2 → created_live_zero h2 h3 → created_live_zero h1 h3.
Proof.
  intros H12 H23 r s Hs.
  destruct (H23 r s Hs) as [Hs2 | Hlive]; [by apply H12 | by right].
Qed.

Lemma creates_ret {A} (a : A) (Q : Heap → A → Prop) :
  (∀ h, Q h a) → creates (ret a) Q.
Proof. intros HQ h. split; [apply created_refl | apply HQ]. Qed.

Lemma creates_throw {A} (e : JSError) (Q : Heap → A → Prop) :
  creates (throw e) Q.
Proof. intros h. apply created_refl. Qed.

Lemma creates_ret_any {A} (a : A) : creates (ret a) (λ _ _, True).
Proof. by apply creates_ret. Qed.

Lemma creates_bind {A B} (m : M Heap A) (k : A → M Heap B)
    (Q : Heap → B → Prop) :
  creates m (λ _ _, True) →
  (∀ a, creates (k a) Q) →
  creates (bind m k) Q.
Proof.
  intros Hm Hk h. unfold bind. specialize (Hm h).
  destruct (m h) as [h1 a | h1 e]; [| done].
  destruct Hm as [H1 _]. specialize (Hk a h1).
  destruct (k a h1) as [h2 b | h2 e].
  - destruct Hk as [H2 HQ]. split; [by eapply created_trans | done].
  - by eapply created_trans.
Qed.

(** The same, when what follows depends on what [m] has established. *)
Lemma creates_bind_with {A B} (m : M Heap A) (k : A → M Heap B)
    (Q1 : A → Prop) (Q2 : Heap → B → Prop) :
  creates m (λ _ a, Q1 a) →
  (∀ a, Q1 a → creates (k a) Q2) →
  creates (bind m k) Q2.
Proof.
  intros Hm Hk h. unfold bind. specialize (Hm h).
  destruct (m h) as [h1 a | h1 e]; [| done].
  destruct Hm as [H1 HQ1]. specialize (Hk a HQ1 h1).
  destruct (k a h1) as [h2 b | h2 e].
  - destruct Hk as [H2 HQ]. split; [by eapply created_trans | done].
  - by eapply created_trans.
Qed.

Lemma creates_weaken {A} (m : M Heap A) (Q Q' : Heap → A → Prop) :
  creates m Q → (∀ h a, Q h a → Q' h a) → creates m Q'.
Proof.
  intros Hm HQ h. specialize (Hm h).
  destruct (m h); [| done]. destruct Hm. split; [done | by apply HQ].
Qed.

Lemma creates_get (v : JSValue) (k : string) :
  creates (Song.get v k) (λ _ _, True).
Proof.
  intros h. unfold Song.get, js_get.
  destruct v; cbn; (apply created_refl || (split; [apply created_refl | done])).
Qed.

Lemma creates_get_opt (v : JSValue) (k : string) :
  creates (Song.get_opt v k) (λ _ _, True).
Proof.
  intros h. unfold Song.get_opt, js_get_opt, js_get.
  destruct v; cbn; (apply created_refl || (split; [apply created_refl | done])).
Qed.

Lemma creates_alloc (s : Song.t) :
  live_zero s →
  creates (Song.alloc s) (λ h r, ∃ s', h !! r = Some s' ∧ live_zero s').
Proof.
  intros Hs h. unfold Song.alloc. cbn. split.
  - intros r s'. rewrite lookup_insert. case_decide; [| by left].
    intros [= <-]. by right.
  - exists s. by rewrite lookup_insert_eq.
Qed.

Lemma creates_mapM {A B} (f : A → M Heap B) (l : list A) :
  Forall (λ x, creates (f x) (λ _ _, True)) l →
  creates (mapM f l) (λ _ _, True).
Proof.
  induction 1 as [| x l Hx Hl IH]; cbn; [by apply creates_ret |].
  apply creates_bind; [exact Hx |]. intros y.
  apply creates_bind; [exact IH |]. intros ys. by apply creates_ret.
Qed.

(** A step of a constructor that reads, throws or returns *)
Ltac creates_step :=
  first
    [ apply creates_throw
    | apply creates_get
    | apply creates_get_opt
    | apply creates_ret_any
    | apply creates_bind; [| intros ?]
    | match goal with
      | |- creates (match ?x with _ => _ end) _ => destruct x
      end ].

Section SongConstructionFacts.
Variable toSecond : JSValue → Q.
Variable formatDuration : Q → string.
Variable parseNumber : JSValue → Q.
Variable toLowerCase : string → string.
Variable toString : JSValue → string.
Variable playError : JSValue → JSValue.
Variable chooseFormat : JSValue → bool → JSError + JSValue.
Variable sortByWidthDesc : list JSValue → JSError + list JSValue.

Lemma creates_patchMember (member : JSValue) :
  creates (Song._patchMember member) (λ _ _, True).
Proof.
  unfold Song._patchMember. repeat creates_step.
Qed.

Lemma creates_patchOther (source : string) (member user info : JSValue) :
  creates (Song._patchOther toSecond formatDuration parseNumber source member user info)
          (λ _ s, live_zero s).
Proof.
  unfold Song._patchOther. repeat creates_step.
  apply creates_ret. intros ?. unfold live_zero. cbn. by intros ->.
Qed.

Lemma creates_patchYouTube (map_related : M Heap JSValue)
    (source : string) (member user info : JSValue) :
  creates map_related (λ _ _, True) →
  creates (Song._patchYouTube toSecond formatDuration parseNumber toString
             playError chooseFormat sortByWidthDesc map_related source
             member user info)
          (λ _ s, live_zero s).
Proof.
  intros Hrel. unfold Song._patchYouTube.
  repeat first [ exact Hrel | creates_step ].
  all: apply creates_ret; intros ?; unfold live_zero; cbn; by intros ->.
Qed.

Local Abbreviation new :=
  (Song.new toSecond formatDuration parseNumber toLowerCase toString
     playError chooseFormat sortByWidthDesc).
Local Abbreviation construct :=
  (Song.construct toSecond formatDuration parseNumber toLowerCase toString
     playError chooseFormat sortByWidthDesc).
Local Abbreviation map_related_videos :=
  (Song.map_related_videos toSecond formatDuration parseNumber toLowerCase
     toString playError chooseFormat sortByWidthDesc).

(** The loop inside [new] is [info.related_videos.map(v => new Song(v))]:
    on an object, the constructor runs its body with that expression. *)
Lemma new_object_related (props : list (string * JSValue))
    (member src : JSValue) :
  ∃ map_related,
    new (JObj props) member src = construct map_related (JObj props) member src ∧
    ∀ h, map_related h = map_related_videos (JObj props) h.
Proof.
  let body := eval cbn -[Song.construct String.eqb mapM] in (new (JObj props) member src) in
  lazymatch body with
  | Song.construct _ _ _ _ _ _ _ _ ?m _ _ _ => exists m
  end.
  split; [reflexivity |].
  intros h. unfold Song.map_related_videos, Song.get, bind.
  cbn -[String.eqb mapM].
  induction props as [| [k v] props IH]; [reflexivity |].
  cbn -[String.eqb mapM]. destruct (String.eqb "related_videos" k); [| exact IH].
  by destruct v.
Qed.

Lemma creates_construct (map_related : M Heap JSValue)
    (info member src : JSValue) :
  creates map_related (λ _ _, True) →
  creates (construct map_related info member src)
          (λ h r, ∃ s, h !! r = Some s ∧ live_zero s).
Proof.
  intros Hrel. unfold Song.construct.
  destruct src; try apply creates_throw.
  all: (apply creates_bind; [apply creates_patchMember | intros mu]).
  all: (eapply creates_bind_with; [| intros song Hsong; by apply creates_alloc]).
  all: (match goal with
        | |- creates (if ?b then _ else _) _ => destruct b
        end; [by apply creates_patchYouTube | apply creates_patchOther]).
Qed.

Local Abbreviation new_ok := (new_ok new).

Lemma new_ok_leaf (info : JSValue) :
  match info with JObj _ => False | _ => True end → new_ok info.
Proof.
  intros Hleaf member src.
  destruct info; try done; cbn -[Song.construct];
    apply creates_construct, creates_throw.
Qed.

Lemma new_ok_object (props : list (string * JSValue)) :
  Forall (λ p, match p.2 with JArr vs => Forall new_ok vs | _ => True end) props →
  new_ok (JObj props).
Proof.
  intros Hprops member src. cbn -[Song.construct String.eqb mapM].
  apply creates_construct.
  induction Hprops as [| [k v] props Hv _ IH]; [apply creates_throw |].
  cbn -[String.eqb mapM] in *.
  destruct (String.eqb "related_videos" k); [| exact IH].
  destruct v; try apply creates_throw.
  apply creates_bind; [| intros refs; apply creates_ret_any].
  apply creates_mapM. eapply Forall_impl; [exact Hv |].
  intros x Hx. eapply creates_weaken; [apply Hx | done].
Qed.

Lemma new_creates (info : JSValue) : new_ok info.
Proof.
  enough (new_ok info ∧
          match info with JArr vs => Forall new_ok vs | _ => True end) as [H _]
    by exact H.
  revert info. apply JSValue_deep_ind; try (split; [by apply new_ok_leaf | done]).
  - intros l Hl. split; [by apply new_ok_leaf |].
    eapply Forall_impl; [exact Hl | by intros ? []].
  - intros props Hprops. split; [| done]. apply new_ok_object.
    eapply Forall_impl; [exact Hprops | by intros ? []].
Qed.
End SongConstructionFacts.

(** C9.  A song that [new Song(info, member, src)] returns, by the YouTube
    path or by the path of the other sources, has duration 0 when its
    [isLive] is true; so has every song the call creates on its way (the
    related videos of a full YouTube record). *)
Theorem C9_live_song_duration
    (toSecond : JSValue → Q) (formatDuration : Q → string)
    (parseNumber : JSValue → Q) (toLowerCase : string → string)
    (toString : JSValue → string) (playError : JSValue → JSValue)
    (chooseFormat : JSValue → bool → JSError + JSValue)
    (sortByWidthDesc : list JSValue → JSError + list JSValue)
    (info member src : JSValue) (h h' : Heap) (r : SongRef) :
  Song.new toSecond formatDuration parseNumber toLowerCase toString playError
    chooseFormat sortByWidthDesc info member src h = Returned h' r →
  (∃ s, h' !! r = Some s ∧
        (Song.isLive s = true → Song.duration s = 0%Q)) ∧
  (∀ r' s', h' !! r' = Some s' →
     h !! r' = Some s' ∨ (Song.isLive s' = true → Song.duration s' = 0%Q)).
Proof.
  intros Hnew.
  pose proof (new_creates toSecond formatDuration parseNumber toLowerCase
                toString playError chooseFormat sortByWidthDesc info member src h)
    as H.
  rewrite Hnew in H. destruct H as [Hcreated Hsong]. split; [exact Hsong |].
  exact Hcreated.
Qed.

Lemma C9_witness :
  ∃ h' r s,
    sample_new sample_other_info JUndefined (JStr "soundcloud") ∅ = Returned h' r ∧
    h' !! r = Some s ∧
    (Song.isLive s = true → Song.duration s = 0%Q).
Proof.
  assert (∃ h' r, sample_new sample_other_info JUndefined (JStr "soundcloud") ∅ =
                    Returned h' r) as (h' & r & Hnew)
    by (eexists _, _; vm_compute; reflexivity).
  destruct (C9_live_song_duration _ _ _ _ _ _ _ _ _ _ _ _ _ _ Hnew)
    as [(s & Hs & Hlive) _].
  exists h', r, s. split; [exact Hnew |]. split; [exact Hs | exact Hlive].
Defined.

(** The two paths on examples: a live stream of another source gets
    duration 0 whatever its raw duration; a full YouTube record keeps its
    length, and its live related video gets duration 0. *)
Example new_other_live :
  ∃ h' r s,
    sample_new sample_other_info JUndefined (JStr "soundcloud") ∅ = Returned h' r ∧
    h' !! r = Some s ∧ Song.isLive s = true ∧ Song.duration s = 0%Q.
Proof. eexists _, _, _. vm_compute. repeat split. Qed.

Example new_youtube_full :
  ∃ h' r r2 s s2,
    sample_new sample_youtube_info JUndefined JUndefined ∅ = Returned h' r ∧
    h' !! r = Some s ∧ Song.isLive s = false ∧ Song.duration s = 212%Q ∧
    Song.related s = JArr [JSongObj r2] ∧
    h' !! r2 = Some s2 ∧ Song.isLive s2 = true ∧ Song.duration s2 = 0%Q.
Proof. eexists _, _, _, _, _. vm_compute. repeat split. Qed.

(** * Further properties of the queue *)

(** ** Repeat mode and autoplay *)

(** X1.  Called without an argument on a queue whose repeat mode is 0, 1 or
    2, [setRepeatMode] steps to the next mode, and three calls in a row
    come back to the state they started from; from mode 0 the calls return
    1, 2 and 0. *)
Theorem X1_setRepeatMode_cycle (w : Queue.World) :
  0 ≤ Queue.repeatMode (Queue.queue w) ≤ 2 →
  ∃ w1 w2 m1 m2,
    Queue.setRepeatMode ArgUndefined w = Returned w1 m1 ∧
    Queue.setRepeatMode ArgUndefined w1 = Returned w2 m2 ∧
    Queue.setRepeatMode ArgUndefined w2 = Returned w (Queue.repeatMode (Queue.queue w)) ∧
    m1 = (Queue.repeatMode (Queue.queue w) + 1) `mod` 3 ∧
    m2 = (Queue.repeatMode (Queue.queue w) + 2) `mod` 3 ∧
    m1 ≠ Queue.repeatMode (Queue.queue w) ∧ m2 ≠ Queue.repeatMode (Queue.queue w) ∧
    m1 ≠ m2.
Proof.
  intros Hmode. unfold Queue.setRepeatMode. open_world w.
  assert (repeatMode = 0 ∨ repeatMode = 1 ∨ repeatMode = 2) as [-> | [-> | ->]]
    by lia; eexists _, _, _, _; repeat split; done.
Qed.

Lemma X1_witness :
  ∃ w1 w2,
    Queue.setRepeatMode ArgUndefined (sample_world (sample_queue true [1%positive] [] 0)) =
      Returned w1 1 ∧
    Queue.setRepeatMode ArgUndefined w1 = Returned w2 2 ∧
    Queue.setRepeatMode ArgUndefined w2 =
      Returned (sample_world (sample_queue true [1%positive] [] 0)) 0.
Proof.
  destruct (X1_setRepeatMode_cycle (sample_world (sample_queue true [1%positive] [] 0)))
    as (w1 & w2 & m1 & m2 & H1 & H2 & H3 & -> & -> & _); [by vm_compute |].
  exists w1, w2. split; [exact H1 |]. split; [exact H2 | exact H3].
Defined.

(** X2.  [setRepeatMode(m)] with a number never rejects.  It returns the
    mode it stores, which is 0 when the queue was already in mode [m] and
    [m] otherwise; so a second call with the same non-zero [m] turns
    repeating off again.  Nothing but [repeatMode] changes. *)
Theorem X2_setRepeatMode_number (w : Queue.World) (m : Z) :
  let stored := if decide (Queue.repeatMode (Queue.queue w) = m) then 0 else m in
  Queue.setRepeatMode (ArgNumber m) w =
    Returned (Queue.mkWorld (Queue.heap w)
                (Queue.set_repeatMode stored (Queue.queue w)) (Queue.effects w))
             stored ∧
  (m ≠ 0 → Queue.repeatMode (Queue.queue w) ≠ m →
     ∃ w1 w2, Queue.setRepeatMode (ArgNumber m) w = Returned w1 m ∧
              Queue.setRepeatMode (ArgNumber m) w1 = Returned w2 0).
Proof.
  unfold Queue.setRepeatMode. open_world w. split.
  - destruct (Z.eqb_spec repeatMode m), (decide (repeatMode = m)); done.
  - intros Hm Hne. destruct (Z.eqb_spec repeatMode m); [done |]. cbn.
    eexists _, _. split; [reflexivity |]. cbn. by rewrite Z.eqb_refl.
Qed.

Lemma X2_witness :
  ∃ w1 w2,
    Queue.setRepeatMode (ArgNumber 2) (sample_world (sample_queue true [1%positive] [] 0)) =
      Returned w1 2 ∧
    Queue.setRepeatMode (ArgNumber 2) w1 = Returned w2 0.
Proof.
  destruct (X2_setRepeatMode_number (sample_world (sample_queue true [1%positive] [] 0)) 2)
    as [_ H].
  apply H; discriminate.
Defined.

(** X3.  [toggleAutoplay()] never rejects and returns the new value, the
    negation of the old one; two calls leave the state as it was. *)
Theorem X3_toggleAutoplay_twice (w : Queue.World) :
  ∃ w1,
    Queue.toggleAutoplay w = Returned w1 (negb (Queue.autoplay (Queue.queue w))) ∧
    Queue.autoplay (Queue.queue w1) = negb (Queue.autoplay (Queue.queue w)) ∧
    Queue.toggleAutoplay w1 = Returned w (Queue.autoplay (Queue.queue w)).
Proof.
  unfold Queue.toggleAutoplay. open_world w.
  eexists. split; [reflexivity |]. split; [reflexivity |]. cbn.
  by rewrite negb_involutive.
Qed.

(** ** stop() *)

(** X4.  [stop()] never rejects.  It sets [stopped] and changes no other
    field; it stops the audio player when there is one; it destroys the
    connection (when there is one) and forgets it only under
    [leaveOnStop]; and its last call is always the removal of the queue. *)
Theorem X4_stop (w : Queue.World) :
  let q := Queue.queue w in
  let leave := leaveOnStop (DisTube.options (Queue.distube q)) in
  ∃ calls,
    Queue.stop w =
      Returned (Queue.mkWorld (Queue.heap w) (Queue.set_stopped true q)
                  (Queue.effects w ++ calls ++ [DeleteQueue (Queue.id q)])) tt ∧
    (AudioPlayerStop ∈ calls ↔ Queue.audioPlayer q = true) ∧
    (ConnectionDestroy ∈ calls ↔ leave = true ∧ Queue.connection q = true) ∧
    (ConnectionsDelete (Queue.id q) ∈ calls ↔ leave = true).
Proof.
  unfold Queue.stop. open_world w.
  destruct distube as [[save leave] known]; cbn.
  exists ((if audioPlayer then [AudioPlayerStop] else []) ++
          (if leave
           then (if connection then [ConnectionDestroy] else []) ++ [ConnectionsDelete id]
           else [])).
  destruct audioPlayer, leave, connection; cbn;
    rewrite <- ?(assoc_L (++)); cbn;
    (split; [reflexivity |]);
    rewrite ?elem_of_cons, ?elem_of_nil; intuition congruence.
Qed.

(** ** setFilter() *)

Lemma indexOf_None (x : string) (l : list string) :
  indexOf x l = None ↔ x ∉ l.
Proof.
  induction l as [| y l IH]; cbn.
  - split; [intros _; apply not_elem_of_nil | done].
  - rewrite not_elem_of_cons. destruct (String.eqb_spec x y) as [-> | Hne].
    + split; [done | by intros []].
    + destruct (indexOf x l); cbn; split; try done.
      * intros [_ Hl]. by apply IH in Hl.
      * intros _. split; [done | by apply IH].
Qed.

Lemma indexOf_Some (x : string) (l : list string) (i : nat) :
  indexOf x l = Some i → l !! i = Some x ∧ x ∉ take i l.
Proof.
  revert i. induction l as [| y l IH]; intros i; cbn; [done |].
  destruct (String.eqb_spec x y) as [-> | Hne].
  - intros [= <-]. split; [done | apply not_elem_of_nil].
  - destruct (indexOf x l) as [j |]; cbn; [| done].
    intros [= <-]. destruct (IH j eq_refl) as [Hj Hbefore].
    split; [done |]. cbn. rewrite not_elem_of_cons. done.
Qed.

Lemma indexOf_last (x : string) (l : list string) :
  x ∉ l → indexOf x (l ++ [x]) = Some (length l).
Proof.
  induction l as [| y l IH]; cbn.
  - intros _. by rewrite String.eqb_refl.
  - rewrite not_elem_of_cons. intros [Hne Hl].
    destruct (String.eqb_spec x y); [done |]. by rewrite IH.
Qed.

Lemma delete_last {A} (l : list A) (x : A) : delete (length l) (l ++ [x]) = l.
Proof. induction l as [| y l IH]; cbn; [done | by f_equal]. Qed.

Lemma NoDup_delete_lookup {A} (l : list A) (i : nat) (x : A) :
  NoDup l → l !! i = Some x → NoDup (delete i l) ∧ x ∉ delete i l.
Proof.
  intros Hnd Hi. pose proof (delete_Permutation l i x Hi) as Hperm.
  rewrite Hperm in Hnd. apply NoDup_cons in Hnd. tauto.
Qed.

(** X5.  [setFilter(name)] with a name that is not a property of
    [distube.filters] rejects with a type error that quotes the name; the
    filters and the start time stay as they were and the stream is not
    restarted. *)
Theorem X5_setFilter_unknown (w : Queue.World) (f : string) :
  DisTube.filters (Queue.distube (Queue.queue w)) !! f = None →
  Queue.setFilter (Some f) w = Thrown w (TypeError (f +:+ " is not a filter name.")).
Proof.
  intros Hf. unfold Queue.setFilter. open_world w.
  rewrite bool_decide_eq_false_2; [done |]. rewrite Hf. by intros [? ?].
Qed.

Lemma X5_witness :
  Queue.setFilter (Some "bassboost") (sample_world (sample_queue true [1%positive] [] 0)) =
    Thrown (sample_world (sample_queue true [1%positive] [] 0))
           (TypeError "bassboost is not a filter name.").
Proof.
  apply (X5_setFilter_unknown (sample_world (sample_queue true [1%positive] [] 0))
           "bassboost").
  reflexivity.
Defined.

(** X6.  Whatever its argument, [setFilter] keeps the enabled filters free
    of duplicates and among the names of [distube.filters]. *)
Theorem X6_setFilter_keeps_filters_ok (w : Queue.World) (filter : option string) :
  filters_ok (Queue.queue w) →
  filters_ok (Queue.queue (final (Queue.setFilter filter w))).
Proof.
  unfold filters_ok, Queue.setFilter. open_world w. intros [Hnd Hknown].
  destruct filter as [f |]; cbn.
  - case_bool_decide as Hf; cbn; [| done].
    destruct (indexOf f filters) as [i |] eqn:Hi; cbn.
    + apply indexOf_Some in Hi as [Hi _].
      destruct (NoDup_delete_lookup _ _ _ Hnd Hi) as [Hnd' _].
      split; [done |]. intros g Hg. apply Hknown.
      by eapply list_elem_of_delete_inv.
    + apply indexOf_None in Hi. split.
      * apply NoDup_app. split; [done |]. split; [| apply NoDup_singleton].
        intros g Hg ->%list_elem_of_singleton. done.
      * intros g [Hg | ->%list_elem_of_singleton]%elem_of_app; [by apply Hknown | done].
  - split; [apply NoDup_nil_2 | by intros ? ?%elem_of_nil].
Qed.

Lemma X6_witness :
  filters_ok
    (Queue.queue
       (final (Queue.setFilter None (sample_world (sample_queue true [1%positive] [] 0))))).
Proof.
  apply (X6_setFilter_keeps_filters_ok
           (sample_world (sample_queue true [1%positive] [] 0)) None).
  split; [apply NoDup_nil_2 | by intros ? ?%elem_of_nil].
Defined.

(** X7.  [setFilter(name)] with a known name toggles it: the name is
    enabled afterwards exactly when it was not before, and a second call
    brings back the filters that were enabled, in their order when the
    name was not among them. *)
Theorem X7_setFilter_toggle (w : Queue.World) (f : string) :
  filters_ok (Queue.queue w) →
  is_Some (DisTube.filters (Queue.distube (Queue.queue w)) !! f) →
  ∃ w1 w2 l1 l2,
    Queue.setFilter (Some f) w = Returned w1 l1 ∧
    Queue.filters (Queue.queue w1) = l1 ∧
    (f ∈ l1 ↔ f ∉ Queue.filters (Queue.queue w)) ∧
    Queue.setFilter (Some f) w1 = Returned w2 l2 ∧
    Queue.filters (Queue.queue w2) = l2 ∧
    l2 ≡ₚ Queue.filters (Queue.queue w) ∧
    (f ∉ Queue.filters (Queue.queue w) → l2 = Queue.filters (Queue.queue w)).
Proof.
  unfold filters_ok, Queue.setFilter. open_world w. intros [Hnd Hknown] Hf.
  rewrite bool_decide_eq_true_2 by done. cbn.
  destruct (indexOf f filters) as [i |] eqn:Hi; cbn.
  - apply indexOf_Some in Hi as [Hi _].
    destruct (NoDup_delete_lookup _ _ _ Hnd Hi) as [Hnd' Hout].
    assert (Hin : f ∈ filters) by (by eapply list_elem_of_lookup_2).
    eexists _, _, _, _. split; [reflexivity |]. cbn. split; [reflexivity |].
    split; [done |].
    rewrite bool_decide_eq_true_2 by done. cbn.
    apply indexOf_None in Hout. rewrite Hout. cbn.
    split; [reflexivity |]. split; [reflexivity |]. split; [| done].
    rewrite (delete_Permutation filters i f Hi) at 2.
    by rewrite Permutation_app_comm.
  - apply indexOf_None in Hi.
    eexists _, _, _, _. split; [reflexivity |]. cbn. split; [reflexivity |].
    split; [split; [done | intros _; apply elem_of_app; right; apply list_elem_of_here] |].
    rewrite bool_decide_eq_true_2 by done. cbn.
    rewrite indexOf_last by done. cbn. rewrite delete_last.
    split; [reflexivity |]. split; [reflexivity |]. done.
Qed.

Lemma X7_witness :
  let dt := DisTube.mk {| savePreviousSongs := true; leaveOnStop := false |}
              {[ "bassboost" := "bass=g=10" ]} in
  let w := Queue.mkWorld ∅ (Queue.new dt "guild" None (inl 1%positive) None) [] in
  ∃ w1 w2 l1,
    Queue.setFilter (Some "bassboost") w = Returned w1 l1 ∧
    "bassboost" ∈ l1 ∧
    Queue.setFilter (Some "bassboost") w1 = Returned w2 [].
Proof.
  intros dt w.
  destruct (X7_setFilter_toggle w "bassboost")
    as (w1 & w2 & l1 & l2 & H1 & _ & Hin & H2 & _ & _ & Hl2).
  - split; [apply NoDup_nil_2 | by intros ? ?%elem_of_nil].
  - exists "bass=g=10". by vm_compute.
  - exists w1, w2, l1.
    rewrite Hl2 in H2 by apply not_elem_of_nil.
    split; [exact H1 |]. split; [| exact H2].
    apply Hin, not_elem_of_nil.
Defined.

(** X8.  A call of [setFilter] that does not reject sets [beginTime] to the
    current playback time, asks the handler once to play the song again,
    and returns the filters it leaves; [setFilter(false)] leaves none.
    Nothing else of the queue changes. *)
Theorem X8_setFilter_restart (w w' : Queue.World) (filter : option string)
    (result : list string) :
  Queue.setFilter filter w = Returned w' result →
  Queue.filters (Queue.queue w') = result ∧
  Queue.queue w' =
    Queue.set_beginTime (Queue.currentTime (Queue.queue w))
      (Queue.set_filters result (Queue.queue w)) ∧
  Queue.effects w' = Queue.effects w ++ [HandlerPlaySong] ∧
  Queue.heap w' = Queue.heap w ∧
  (filter = None → result = []).
Proof.
  unfold Queue.setFilter. open_world w.
  destruct filter as [f |]; cbn.
  - case_bool_decide; cbn; [| done].
    destruct (indexOf f filters); cbn; intros [= <- <-]; done.
  - intros [= <- <-]. done.
Qed.

Lemma X8_witness :
  ∃ w', Queue.setFilter None (sample_world (sample_queue true [1%positive] [] 0)) =
          Returned w' [] ∧
        Queue.effects w' = [HandlerPlaySong].
Proof.
  eexists. split; [reflexivity |].
  by destruct (X8_setFilter_restart
                 (sample_world (sample_queue true [1%positive] [] 0)) _ None [] eq_refl)
    as (_ & _ & Heff & _).
Defined.

(** ** jump(), addToQueue() and shuffle() once more *)

(** X9.  Whatever number it is given, a [jump] that does not reject and
    is not forward (for which [n > 0] is false) loses and duplicates
    nothing: [previousSongs] followed by [songs] is the same list before
    and after; and a forward [jump] that does not reject leaves
    [previousSongs] alone and of [songs] a suffix.  For an integer [n > 0]
    this suffix is not empty and is shorter than [songs] by [n - 1]. *)
Theorem X9_jump_conserves (w w' : Queue.World) (x : Number.t) :
  Queue.jump (Num x) w = Returned w' tt →
  (Number.gtb x (Number.of_Z 0) = false →
     Queue.previousSongs (Queue.queue w') ++ Queue.songs (Queue.queue w') =
       Queue.previousSongs (Queue.queue w) ++ Queue.songs (Queue.queue w)) ∧
  (Number.gtb x (Number.of_Z 0) = true →
     Queue.previousSongs (Queue.queue w') = Queue.previousSongs (Queue.queue w) ∧
     Queue.songs (Queue.queue w') `suffix_of` Queue.songs (Queue.queue w)) ∧
  (∀ n : Z,
     x = Number.of_Z n → Number.safe n → 0 < n →
     array_ok (Queue.songs (Queue.queue w)) →
     array_ok (Queue.previousSongs (Queue.queue w)) →
     Queue.songs (Queue.queue w') ≠ [] ∧
     Z.of_nat (length (Queue.songs (Queue.queue w'))) =
       Z.of_nat (length (Queue.songs (Queue.queue w))) - (n - 1)).
Proof.
  intros Hrun. split; [| split].
  - revert Hrun. unfold Queue.jump, splice_from. open_world w.
    destruct distube as [[save lv] known]; cbn in *.
    destruct (_ || _); [done |].
    destruct (Number.gtb x (Number.of_Z 0)); [done |]. intros Hrun _.
    destruct save; [| done]. cbn in Hrun.
    destruct (Number.eqb x (Number.of_Z (-1))), audioPlayer; cbn in Hrun;
      injection Hrun as <-; cbn; try done;
      by rewrite (assoc_L (++)), take_drop.
  - revert Hrun. unfold Queue.jump, splice_from. open_world w.
    destruct (_ || _); [done |].
    destruct (Number.gtb x (Number.of_Z 0)); [| done]. intros Hrun _.
    destruct audioPlayer; cbn in Hrun; injection Hrun as <-; cbn;
      (split; [done | apply suffix_drop]).
  - intros n -> Hn Hpos Hs Hp. rewrite jump_of_Z in Hrun by done.
    revert Hrun. unfold jump_integer. open_world w.
    case_bools; try done; try lia.
    rewrite splice_start_forward by lia.
    destruct audioPlayer; cbn; intros [= <-]; cbn;
      (split; [intros Hnil; apply (f_equal length) in Hnil;
               rewrite length_drop in Hnil; cbn in Hnil; lia
              | rewrite length_drop; lia]).
Qed.

Lemma X9_witness :
  ∃ w', Queue.jump (Num (Number.of_Z (-3)))
          (sample_world (sample_queue true [4; 5] [1; 2; 3] 0))%positive =
          Returned w' tt ∧
        Queue.previousSongs (Queue.queue w') ++ Queue.songs (Queue.queue w') =
          [1; 2; 3; 4; 5]%positive.
Proof.
  assert (∃ w', Queue.jump (Num (Number.of_Z (-3)))
                  (sample_world (sample_queue true [4; 5] [1; 2; 3] 0))%positive =
                  Returned w' tt) as [w' Hrun]
    by (eexists; vm_compute; reflexivity).
  exists w'. split; [exact Hrun |].
  destruct (X9_jump_conserves _ _ _ Hrun) as [Hback _].
  rewrite Hback by reflexivity. reflexivity.
Defined.

(** What a forward [jump] by an integer within [songs] does *)
Lemma jump_forward_run (w : Queue.World) (n : Z) :
  array_ok (Queue.songs (Queue.queue w)) →
  array_ok (Queue.previousSongs (Queue.queue w)) →
  0 < n ≤ Z.of_nat (length (Queue.songs (Queue.queue w))) →
  Queue.jump (Num (Number.of_Z n)) w =
    Returned
      (Queue.mkWorld (Queue.heap w)
         (Queue.set_next true
            (Queue.set_songs (drop (Z.to_nat (n - 1)) (Queue.songs (Queue.queue w)))
               (Queue.queue w)))
         (Queue.effects w ++
          if Queue.audioPlayer (Queue.queue w) then [AudioPlayerStop] else []))
      tt.
Proof.
  intros Hs Hp Hn.
  rewrite jump_of_Z by (done || unfold array_ok, Number.safe in *; lia).
  unfold jump_integer. open_world w.
  case_bools; try lia.
  rewrite splice_start_forward by lia.
  destruct audioPlayer; cbn; [done | by rewrite app_nil_r].
Qed.

(** X10.  Forward jumps by integers compose: for positive integers [a] and
    [b], [jump(a)] followed by [jump(b)] leaves the queue that
    [jump(a + b - 1)] leaves. *)
Theorem X10_jump_forward_twice (w : Queue.World) (a b : Z) :
  array_ok (Queue.songs (Queue.queue w)) →
  array_ok (Queue.previousSongs (Queue.queue w)) →
  0 < a → 0 < b →
  a + b - 1 ≤ Z.of_nat (length (Queue.songs (Queue.queue w))) →
  ∃ w1 w2 w3,
    Queue.jump (Num (Number.of_Z a)) w = Returned w1 tt ∧
    Queue.jump (Num (Number.of_Z b)) w1 = Returned w2 tt ∧
    Queue.jump (Num (Number.of_Z (a + b - 1))) w = Returned w3 tt ∧
    Queue.queue w2 = Queue.queue w3.
Proof.
  intros Hs Hp Ha Hb Hlen.
  eexists _, _, _.
  split; [apply jump_forward_run; (done || lia) |].
  split; [apply jump_forward_run; unfold array_ok in *; cbn;
          rewrite ?length_drop; (done || lia) |].
  split; [apply jump_forward_run; (done || lia) |].
  destruct w as [h [] eff]; cbn. unfold Queue.set_next, Queue.set_songs; cbn.
  f_equal. rewrite drop_drop. f_equal. lia.
Qed.

Lemma X10_witness :
  ∃ w1 w2 w3,
    Queue.jump (Num (Number.of_Z 2))
      (sample_world (sample_queue true [1; 2; 3; 4] [] 0))%positive = Returned w1 tt ∧
    Queue.jump (Num (Number.of_Z 3)) w1 = Returned w2 tt ∧
    Queue.jump (Num (Number.of_Z 4))
      (sample_world (sample_queue true [1; 2; 3; 4] [] 0))%positive = Returned w3 tt ∧
    Queue.queue w2 = Queue.queue w3.
Proof.
  apply (X10_jump_forward_twice
           (sample_world (sample_queue true [1; 2; 3; 4] [] 0))%positive 2 3);
    by vm_compute.
Defined.

(** X11.  With an integer position, or none, [addToQueue] never displaces
    the playing song: on a queue that is not empty, the first song is the
    same before and after.  With [NaN], or with a position strictly
    between 0 and 1, it does: the first of the added items becomes the
    first song. *)
Theorem X11_addToQueue_keeps_head (w w' : Queue.World)
    (song : option (SongRef + list SongRef)) (position : option Number.t) :
  Queue.songs (Queue.queue w) ≠ [] →
  Queue.addToQueue song position w = Returned w' tt →
  (position = None ∨ (∃ p : Z, Number.safe p ∧ position = Some (Number.of_Z p)) →
     head (Queue.songs (Queue.queue w')) = head (Queue.songs (Queue.queue w))) ∧
  (position = Some Number.nan ∨
   (∃ x, position = Some x ∧ Number.valid x ∧
         Number.gtb x (Number.of_Z 0) = true ∧ Number.ltb x (Number.of_Z 1) = true) →
     head (Queue.songs (Queue.queue w')) = head (items_of song)).
Proof.
  intros Hne Hrun.
  pose proof (addToQueue_run w song position) as Hspec. cbn zeta in Hspec.
  destruct (insert_index_cases (position_of position)
              (length (Queue.songs (Queue.queue w)))) as (Hint & Hfrac).
  destruct (bool_decide_reflect (items_of song = [])) as [Hnil | Hitems];
    [cbn [orb] in Hspec; destruct Hspec as [e He]; by rewrite He in Hrun |].
  destruct (Number.eqb (position_of position) (Number.of_Z 0)) eqn:Hzero;
    cbn [orb] in Hspec; [destruct Hspec as [e He]; by rewrite He in Hrun |].
  rewrite Hspec in Hrun. injection Hrun as <-. cbn.
  destruct (Queue.songs (Queue.queue w)) as [| current rest] eqn:Hsongs; [done |].
  split.
  - intros Hposition.
    assert (∃ p, Number.safe p ∧ position_of position = Number.of_Z p) as (p & Hp & Hpos).
    { destruct Hposition as [-> | (p & Hp & ->)]; [exists (-1) | exists p]; done. }
    destruct (Hint p Hp Hpos) as (Hzero' & Hneg & Hplus).
    assert (Hp0 : p ≠ 0).
    { intros Heq0. apply Hzero' in Heq0. congruence. }
    destruct (Z.lt_trichotomy p 0) as [Hlt | [-> | Hgt]]; [| done |].
    + rewrite Hneg by done. by rewrite firstn_all.
    + rewrite Hplus by done.
      destruct (Z.to_nat p) as [| k] eqn:Hk; [lia |]. done.
  - intros Hposition.
    assert (insert_index (position_of position) (length (current :: rest)) = 0%nat)
      as ->.
    { apply Hfrac. destruct Hposition as [-> | (x & -> & Hx)]; [by left | by right]. }
    cbn. by destruct (items_of song).
Qed.

Lemma X11_witness :
  ∃ w', Queue.addToQueue (Some (inl 9%positive)) (Some (Number.of_Z 1))
          (sample_world (sample_queue true [1; 2]%positive [] 0)) = Returned w' tt ∧
        head (Queue.songs (Queue.queue w')) = Some 1%positive.
Proof.
  assert (∃ w', Queue.addToQueue (Some (inl 9%positive)) (Some (Number.of_Z 1))
                  (sample_world (sample_queue true [1; 2]%positive [] 0)) =
                  Returned w' tt) as [w' Hrun]
    by (eexists; vm_compute; reflexivity).
  exists w'. split; [exact Hrun |].
  destruct (X11_addToQueue_keeps_head
              (sample_world (sample_queue true [1; 2]%positive [] 0)) w'
              (Some (inl 9%positive)) (Some (Number.of_Z 1))) as [Hhead _];
    [discriminate | exact Hrun |].
  rewrite Hhead; [reflexivity |].
  right. exists 1. split; [by vm_compute | reflexivity].
Defined.

(** X12.  [addToQueue] adds the items and nothing else: afterwards [songs]
    is a rearrangement of the old [songs] followed by the items, longer by
    their number; no other field changes and no collaborator is called. *)
Theorem X12_addToQueue_adds (w w' : Queue.World)
    (song : option (SongRef + list SongRef)) (position : option Number.t) :
  Queue.addToQueue song position w = Returned w' tt →
  Queue.songs (Queue.queue w') ≡ₚ Queue.songs (Queue.queue w) ++ items_of song ∧
  length (Queue.songs (Queue.queue w')) =
    (length (Queue.songs (Queue.queue w)) + length (items_of song))%nat ∧
  Queue.queue w' = Queue.set_songs (Queue.songs (Queue.queue w')) (Queue.queue w) ∧
  Queue.effects w' = Queue.effects w.
Proof.
  intros Hrun.
  pose proof (addToQueue_run w song position) as Hspec. cbn zeta in Hspec.
  destruct (_ || _); [destruct Hspec as [e He]; by rewrite He in Hrun |].
  rewrite Hspec in Hrun. injection Hrun as <-. cbn.
  set (k := insert_index _ _).
  assert (Hperm : take k (Queue.songs (Queue.queue w)) ++ items_of song ++
                    drop k (Queue.songs (Queue.queue w))
                  ≡ₚ Queue.songs (Queue.queue w) ++ items_of song).
  { rewrite (Permutation_app_comm (items_of song)), (assoc_L (++)).
    by rewrite take_drop. }
  split; [exact Hperm |]. split; [by rewrite Hperm, length_app |].
  by destruct w as [h [] eff].
Qed.

Lemma X12_witness :
  ∃ w', Queue.addToQueue (Some (inr [8; 9]%positive)) (Some (Number.of_Z 1))
          (sample_world (sample_queue true [1; 2]%positive [] 0)) = Returned w' tt ∧
        length (Queue.songs (Queue.queue w')) = 4%nat.
Proof.
  assert (∃ w', Queue.addToQueue (Some (inr [8; 9]%positive)) (Some (Number.of_Z 1))
                  (sample_world (sample_queue true [1; 2]%positive [] 0)) =
                  Returned w' tt) as [w' Hrun]
    by (eexists; vm_compute; reflexivity).
  exists w'. split; [exact Hrun |].
  destruct (X12_addToQueue_adds _ _ _ _ Hrun) as (_ & Hlen & _).
  rewrite Hlen. reflexivity.
Defined.

(** X13.  Adding at the end composes: adding the array [a] and then the
    array [b] ends in the state and result of adding [a] followed by [b]
    at once. *)
Theorem X13_addToQueue_append_twice (w w1 : Queue.World) (a b : list SongRef) :
  b ≠ [] →
  Queue.addToQueue (Some (inr a)) None w = Returned w1 tt →
  Queue.addToQueue (Some (inr b)) None w1 =
    Queue.addToQueue (Some (inr (a ++ b))) None w.
Proof.
  intros Hb Hrun.
  pose proof (addToQueue_run w (Some (inr a)) None) as Ha.
  pose proof (addToQueue_run w1 (Some (inr b)) None) as Hb1.
  pose proof (addToQueue_run w (Some (inr (a ++ b))) None) as Hab.
  cbn zeta in Ha, Hb1, Hab. cbn [items_of] in Ha, Hb1, Hab.
  change (Number.eqb (position_of None) (Number.of_Z 0)) with false in Ha, Hb1, Hab.
  change (insert_index (position_of None) ?len) with len in Ha, Hb1, Hab.
  rewrite orb_false_r in Ha, Hb1, Hab.
  destruct (bool_decide_reflect (a = [])) as [-> | Hne];
    [destruct Ha as [e He]; by rewrite He in Hrun |].
  rewrite Ha in Hrun. injection Hrun as <-.
  rewrite bool_decide_eq_false_2 in Hb1 by done.
  rewrite bool_decide_eq_false_2 in Hab by (by destruct a).
  rewrite Hb1, Hab. cbn.
  rewrite !firstn_all, !drop_all, !app_nil_r, foldl_app, <- (assoc_L (++)).
  by destruct w as [h [] eff].
Qed.

Lemma X13_witness :
  ∃ w1,
    Queue.addToQueue (Some (inr [7]%positive)) None
      (sample_world (sample_queue true [1]%positive [] 0)) = Returned w1 tt ∧
    Queue.addToQueue (Some (inr [8]%positive)) None w1 =
      Queue.addToQueue (Some (inr [7; 8]%positive)) None
        (sample_world (sample_queue true [1]%positive [] 0)).
Proof.
  assert (∃ w1, Queue.addToQueue (Some (inr [7]%positive)) None
                  (sample_world (sample_queue true [1]%positive [] 0)) =
                  Returned w1 tt) as [w1 Hrun]
    by (eexists; vm_compute; reflexivity).
  exists w1. split; [exact Hrun |].
  apply (X13_addToQueue_append_twice _ _ [7]%positive [8]%positive);
    [discriminate | exact Hrun].
Defined.

Lemma shuffle_loop_length {A} (draws : nat → Q) (k i : nat) (a : list A) :
  length (shuffle_loop draws k i a) = length a.
Proof.
  revert k a. induction i as [| i IH]; intros k a; cbn; [done |].
  by rewrite IH, swap_length.
Qed.

(** X14.  [shuffle()] never rejects, calls no collaborator and changes
    nothing but the order of [songs], whose length it keeps; a queue of at
    most two songs is left exactly as it was. *)
Theorem X14_shuffle_only_reorders (w : Queue.World) (draws : nat → Q) :
  (∀ n, (0 <= draws n)%Q ∧ (draws n < 1)%Q) →
  ∃ after,
    Queue.shuffle draws w =
      Returned (Queue.mkWorld (Queue.heap w)
                  (Queue.set_songs after (Queue.queue w)) (Queue.effects w)) tt ∧
    length after = length (Queue.songs (Queue.queue w)) ∧
    ((length (Queue.songs (Queue.queue w)) ≤ 2)%nat →
       after = Queue.songs (Queue.queue w)).
Proof.
  intros _. unfold Queue.shuffle. open_world w.
  destruct songs as [| current rest]; cbn.
  - by exists [].
  - eexists. split; [reflexivity |]. cbn.
    split; [by rewrite shuffle_loop_length |].
    intros Hlen. destruct rest as [| x [| y rest]]; cbn in *; (done || lia).
Qed.

Lemma X14_witness :
  Queue.shuffle (λ _, 3 # 4)%Q (sample_world (sample_queue true [1; 2]%positive [] 0)) =
    Returned (sample_world (sample_queue true [1; 2]%positive [] 0)) tt.
Proof.
  destruct (X14_shuffle_only_reorders
              (sample_world (sample_queue true [1; 2]%positive [] 0)) (λ _, 3 # 4)%Q)
    as (after & Hrun & _ & Hsame).
  - intros _. split; [discriminate | reflexivity].
  - rewrite Hrun, Hsame by (cbn; lia). reflexivity.
Defined.

(** ** addRelatedSong() *)

Lemma js_get_song {S} (deref : SongRef → string → JSValue) (r : SongRef)
    (k : string) (st : S) :
  js_get deref (JSongObj r) k st = Returned st (deref r k).
Proof. reflexivity. Qed.

Lemma played_ids_run (h : Heap) (previous : list SongRef) (w : Queue.World) :
  mapM (λ s, js_get (Song.read h) (JSongObj s) "id") previous w =
    Returned w (played_ids h previous).
Proof.
  induction previous as [| s previous IH]; [done |].
  cbn [mapM]. unfold bind at 1. rewrite js_get_song.
  unfold bind at 1. rewrite IH. reflexivity.
Qed.

(** With a playing song whose [related] is an array, the method looks for
    a candidate and goes on from what it finds. *)
Lemma addRelatedSong_candidates (w : Queue.World)
    (resolved : JSError + option SongRef) (playing : SongRef)
    (rest : list SongRef) (s0 : Song.t) (vs : list JSValue) :
  Queue.songs (Queue.queue w) = playing :: rest →
  Queue.heap w !! playing = Some s0 →
  Song.related s0 = JArr vs →
  Queue.addRelatedSong resolved w =
    match
      findM (λ v,
               played <- mapM (λ s, js_get (Song.read (Queue.heap w)) (JSongObj s) "id")
                          (Queue.previousSongs (Queue.queue w)) ;;
               vid <- js_get (Song.read (Queue.heap w)) v "id" ;;
               ret (negb (includes vid played))) vs w
    with
    | Returned st' a =>
        match a with
        | Some (JSongObj r) =>
            u <- js_get (Song.read (Queue.heap w)) (JSongObj r) "url" ;;
            Queue.emit (HandlerResolveSong u) ;;;
            match resolved with
            | inl e => throw e
            | inr s => Queue.addToQueue (inl <$> s) None
            end
        | _ => throw (Error "Cannot find any related songs.")
        end st'
    | Thrown st' e => Thrown st' e
    end.
Proof.
  intros Hs Hh Hr. unfold Queue.addRelatedSong.
  destruct w as [h q eff]. cbn in Hs, Hh. cbn [Queue.heap Queue.queue].
  unfold bind at 1. unfold Queue.this at 1, gets at 1. cbn [Queue.queue].
  unfold bind at 1. unfold gets at 1. cbn [Queue.heap].
  rewrite Hs. cbn [lookup list_lookup].
  unfold bind at 1. rewrite js_get_song. unfold Song.read at 1.
  rewrite Hh. cbn [from_option].
  change (Song.get_field s0 "related") with (Song.related s0). rewrite Hr.
  unfold bind at 1. unfold Queue.this at 1, gets at 1. cbn [Queue.queue].
  unfold bind at 1. unfold ret at 1.
  unfold bind at 1. reflexivity.
Qed.

Lemma find_played (h : Heap) (previous : list SongRef) (vs : list JSValue)
    (w : Queue.World) :
  Forall (played h previous) vs →
  findM (λ v,
           ids <- mapM (λ s, js_get (Song.read h) (JSongObj s) "id") previous ;;
           vid <- js_get (Song.read h) v "id" ;;
           ret (negb (includes vid ids))) vs w = Returned w None.
Proof.
  induction 1 as [| v vs (r & -> & Hplayed) _ IH]; [done |].
  cbn [findM]. unfold bind at 1. unfold bind at 1. rewrite played_ids_run.
  unfold bind at 1. rewrite js_get_song. unfold ret at 1.
  rewrite Hplayed. cbn [negb]. exact IH.
Qed.

Lemma find_first_unplayed (h : Heap) (previous : list SongRef)
    (before later : list JSValue) (r : SongRef) (w : Queue.World) :
  Forall (played h previous) before →
  includes (Song.read h r "id") (played_ids h previous) = false →
  findM (λ v,
           ids <- mapM (λ s, js_get (Song.read h) (JSongObj s) "id") previous ;;
           vid <- js_get (Song.read h) v "id" ;;
           ret (negb (includes vid ids))) (before ++ JSongObj r :: later) w =
    Returned w (Some (JSongObj r)).
Proof.
  intros Hbefore Hnew.
  induction Hbefore as [| v vs (r' & -> & Hplayed) _ IH].
  - cbn [app findM]. unfold bind at 1. unfold bind at 1. rewrite played_ids_run.
    unfold bind at 1. rewrite js_get_song. unfold ret at 1. by rewrite Hnew.
  - cbn [app findM]. unfold bind at 1. unfold bind at 1. rewrite played_ids_run.
    unfold bind at 1. rewrite js_get_song. unfold ret at 1.
    rewrite Hplayed. cbn [negb]. exact IH.
Qed.

(** X17.  [addRelatedSong()] rejects, changing nothing and without asking
    the resolver, with "There is no playing song." when [songs] is empty,
    and with "Cannot find any related songs." when the related songs of
    the playing song all have the id of a previous song (in particular
    when there are none). *)
Theorem X17_addRelatedSong_nothing_to_add (w : Queue.World)
    (resolved : JSError + option SongRef) :
  (Queue.songs (Queue.queue w) = [] →
     Queue.addRelatedSong resolved w = Thrown w (Error "There is no playing song.")) ∧
  (∀ playing rest s0 vs,
     Queue.songs (Queue.queue w) = playing :: rest →
     Queue.heap w !! playing = Some s0 →
     Song.related s0 = JArr vs →
     Forall (played (Queue.heap w) (Queue.previousSongs (Queue.queue w))) vs →
     Queue.addRelatedSong resolved w =
       Thrown w (Error "Cannot find any related songs.")).
Proof.
  split.
  - intros Hs. unfold Queue.addRelatedSong. destruct w as [h q eff]. cbn in Hs.
    unfold bind at 1. unfold Queue.this at 1, gets at 1. cbn [Queue.queue].
    unfold bind at 1. unfold gets at 1. by rewrite Hs.
  - intros playing rest s0 vs Hs Hh Hr Hplayed.
    rewrite (addRelatedSong_candidates _ _ _ _ _ _ Hs Hh Hr).
    by rewrite find_played.
Qed.

Lemma X17_witness :
  Queue.addRelatedSong (inr None)
    (Queue.mkWorld sample_heap (sample_queue true [1] [2; 3] 0)%positive []) =
  Thrown (Queue.mkWorld sample_heap (sample_queue true [1] [2; 3] 0)%positive [])
         (Error "Cannot find any related songs.").
Proof.
  destruct (X17_addRelatedSong_nothing_to_add
              (Queue.mkWorld sample_heap (sample_queue true [1] [2; 3] 0)%positive [])
              (inr None)) as [_ H].
  apply (H 1%positive [] (sample_song_with "v1" [2; 3]%positive)
           [JSongObj 2%positive; JSongObj 3%positive]);
    [reflexivity | by vm_compute | reflexivity |].
  repeat constructor.
  - exists 2%positive. split; [reflexivity | by vm_compute].
  - exists 3%positive. split; [reflexivity | by vm_compute].
Defined.

(** X18.  When the related songs of the playing song start with songs that
    have the id of a previous song and go on with a song [r] that has not,
    [addRelatedSong()] asks the resolver for the url of [r].  A rejection
    of the resolver is passed on; a resolved song goes to the end of
    [songs] and loses its [info]; a null result is rejected with "No Song
    provided.". *)
Theorem X18_addRelatedSong_first_unplayed (w : Queue.World)
    (playing : SongRef) (rest : list SongRef) (s0 : Song.t)
    (before later : list JSValue) (r : SongRef) :
  Queue.songs (Queue.queue w) = playing :: rest →
  Queue.heap w !! playing = Some s0 →
  Song.related s0 = JArr (before ++ JSongObj r :: later) →
  Forall (played (Queue.heap w) (Queue.previousSongs (Queue.queue w))) before →
  includes (Song.read (Queue.heap w) r "id")
    (played_ids (Queue.heap w) (Queue.previousSongs (Queue.queue w))) = false →
  let asked :=
    Queue.effects w ++ [HandlerResolveSong (Song.read (Queue.heap w) r "url")] in
  (∀ e, Queue.addRelatedSong (inl e) w =
          Thrown (Queue.mkWorld (Queue.heap w) (Queue.queue w) asked) e) ∧
  Queue.addRelatedSong (inr None) w =
    Thrown (Queue.mkWorld (Queue.heap w) (Queue.queue w) asked)
           (Error "No Song provided.") ∧
  (∀ s, Queue.addRelatedSong (inr (Some s)) w =
          Returned
            (Queue.mkWorld (alter Song.delete_info s (Queue.heap w))
               (Queue.set_songs (Queue.songs (Queue.queue w) ++ [s]) (Queue.queue w))
               asked) tt).
Proof.
  intros Hs Hh Hr Hbefore Hnew asked.
  pose proof (λ resolved, addRelatedSong_candidates w resolved _ _ _ _ Hs Hh Hr) as Hrun.
  split; [| split]; intros; rewrite Hrun, find_first_unplayed by done;
    destruct w as [h q eff]; reflexivity.
Qed.

Lemma X18_witness :
  Queue.addRelatedSong (inr (Some 3%positive))
    (Queue.mkWorld sample_heap (sample_queue true [1] [2] 0)%positive []) =
  Returned
    (Queue.mkWorld (alter Song.delete_info 3%positive sample_heap)
       (Queue.set_songs [1; 3]%positive (sample_queue true [1] [2] 0)%positive)
       [HandlerResolveSong (JStr "https://www.youtube.com/watch?v=v3")]) tt.
Proof.
  destruct (X18_addRelatedSong_first_unplayed
              (Queue.mkWorld sample_heap (sample_queue true [1] [2] 0)%positive [])
              1%positive [] (sample_song_with "v1" [2; 3]%positive)
              [JSongObj 2%positive] [] 3%positive) as (_ & _ & H).
  - reflexivity.
  - by vm_compute.
  - reflexivity.
  - repeat constructor. exists 2%positive. split; [reflexivity | by vm_compute].
  - by vm_compute.
  - rewrite H. by vm_compute.
Defined.

(** * Further properties of the construction of songs *)

Section Makes.
Context (P : Song.t → Prop).

Lemma grows_refl (h : Heap) : grows P h h.
Proof. split; [done | by left]. Qed.

Lemma grows_trans (h1 h2 h3 : Heap) :
  grows P h1 h2 → grows P h2 h3 → grows P h1 h3.
Proof.
  intros [Hsub12 H12] [Hsub23 H23]. split; [by etrans |].
  intros r s Hs. destruct (H23 r s Hs) as [Hs2 | HP]; [by apply H12 | by right].
Qed.

Lemma makes_ret {A} (a : A) (Q : A → Prop) : Q a → makes P (ret a) Q.
Proof. intros HQ h. split; [apply grows_refl | done]. Qed.

Lemma makes_ret_any {A} (a : A) : makes P (ret a) (λ _, True).
Proof. by apply makes_ret. Qed.

Lemma makes_throw {A} (e : JSError) (Q : A → Prop) : makes P (throw e) Q.
Proof. intros h. apply grows_refl. Qed.

Lemma makes_bind {A B} (m : M Heap A) (k : A → M Heap B)
    (Q1 : A → Prop) (Q2 : B → Prop) :
  makes P m Q1 → (∀ a, Q1 a → makes P (k a) Q2) → makes P (bind m k) Q2.
Proof.
  intros Hm Hk h. unfold bind. specialize (Hm h).
  destruct (m h) as [h1 a | h1 e]; [| done].
  destruct Hm as [H1 HQ1]. specialize (Hk a HQ1 h1).
  destruct (k a h1) as [h2 b | h2 e].
  - destruct Hk as [H2 HQ]. split; [by eapply grows_trans | done].
  - by eapply grows_trans.
Qed.

Lemma makes_bind_any {A B} (m : M Heap A) (k : A → M Heap B) (Q : B → Prop) :
  makes P m (λ _, True) → (∀ a, makes P (k a) Q) → makes P (bind m k) Q.
Proof. intros Hm Hk. eapply makes_bind; [exact Hm | by intros]. Qed.

Lemma makes_weaken {A} (m : M Heap A) (Q Q' : A → Prop) :
  makes P m Q → (∀ a, Q a → Q' a) → makes P m Q'.
Proof.
  intros Hm HQ h. specialize (Hm h).
  destruct (m h); [| done]. destruct Hm. split; [done | by apply HQ].
Qed.

Lemma makes_get (v : JSValue) (k : string) : makes P (Song.get v k) (λ _, True).
Proof.
  intros h. unfold Song.get, js_get.
  destruct v; cbn; (apply grows_refl || (split; [apply grows_refl | done])).
Qed.

Lemma makes_get_opt (v : JSValue) (k : string) :
  makes P (Song.get_opt v k) (λ _, True).
Proof.
  intros h. unfold Song.get_opt, js_get_opt, js_get.
  destruct v; cbn; (apply grows_refl || (split; [apply grows_refl | done])).
Qed.

Lemma makes_alloc (s : Song.t) : P s → makes P (Song.alloc s) (λ _, True).
Proof.
  intros Hs h. unfold Song.alloc. cbn. split; [| done].
  assert (Hfresh : h !! fresh (dom h) = None).
  { apply not_elem_of_dom, is_fresh. }
  split; [by apply insert_subseteq |].
  intros r s'. rewrite lookup_insert. case_decide; [| by left].
  intros [= <-]. by right.
Qed.

Lemma makes_mapM {A B} (f : A → M Heap B) (l : list A) :
  Forall (λ x, makes P (f x) (λ _, True)) l → makes P (mapM f l) (λ _, True).
Proof.
  induction 1 as [| x l Hx Hl IH]; cbn; [by apply makes_ret |].
  apply makes_bind_any; [exact Hx |]. intros y.
  apply makes_bind_any; [exact IH |]. intros ys. by apply makes_ret.
Qed.
End Makes.

Ltac makes_step :=
  first
    [ apply makes_throw
    | apply makes_get
    | apply makes_get_opt
    | apply makes_ret_any
    | apply makes_bind_any; [| intros ?]
    | match goal with
      | |- makes _ (match ?x with _ => _ end) _ => destruct x
      end ].

Section SongConstructionMore.
Variable toSecond : JSValue → Q.
Variable formatDuration : Q → string.
Variable parseNumber : JSValue → Q.
Variable toLowerCase : string → string.
Variable toString : JSValue → string.
Variable playError : JSValue → JSValue.
Variable chooseFormat : JSValue → bool → JSError + JSValue.
Variable sortByWidthDesc : list JSValue → JSError + list JSValue.

Local Abbreviation new :=
  (Song.new toSecond formatDuration parseNumber toLowerCase toString
     playError chooseFormat sortByWidthDesc).
Local Abbreviation construct :=
  (Song.construct toSecond formatDuration parseNumber toLowerCase toString
     playError chooseFormat sortByWidthDesc).
Local Abbreviation wf := (song_wf formatDuration toString).

Lemma makes_patchMember (P : Song.t → Prop) (member : JSValue) :
  makes P (Song._patchMember member) (λ _, True).
Proof. unfold Song._patchMember. repeat makes_step. Qed.

Lemma makes_patchOther (P : Song.t → Prop) (source : string)
    (member user info : JSValue) :
  String.eqb source "youtube" = false →
  makes P (Song._patchOther toSecond formatDuration parseNumber source member user info)
        wf.
Proof.
  intros Hsource. unfold Song._patchOther. repeat makes_step.
  apply makes_ret. unfold song_wf. cbn. rewrite Hsource.
  repeat split; try done; by intros ->.
Qed.

Lemma makes_patchYouTube (P : Song.t → Prop) (map_related : M Heap JSValue)
    (source : string) (member user info : JSValue) :
  String.eqb source "youtube" = true →
  makes P map_related (λ _, True) →
  makes P (Song._patchYouTube toSecond formatDuration parseNumber toString
             playError chooseFormat sortByWidthDesc map_related source
             member user info)
        wf.
Proof.
  intros Hsource Hrel. unfold Song._patchYouTube.
  repeat first [ exact Hrel | makes_step ].
  all: apply makes_ret; unfold song_wf; cbn; rewrite Hsource.
  all: repeat split; try done; by intros ->.
Qed.

Lemma makes_construct (map_related : M Heap JSValue) (info member src : JSValue) :
  makes wf map_related (λ _, True) →
  makes wf (construct map_related info member src) (λ _, True).
Proof.
  intros Hrel. unfold Song.construct.
  destruct src; try apply makes_throw.
  all: (apply makes_bind_any; [apply makes_patchMember | intros mu]).
  all: (eapply makes_bind; [| intros song Hsong; by apply makes_alloc]).
  all: (match goal with
        | |- makes _ (if ?b then _ else _) _ => destruct b eqn:Hsource
        end; [by apply makes_patchYouTube | by apply makes_patchOther]).
Qed.

Lemma new_makes_leaf (info : JSValue) (member src : JSValue) :
  match info with JObj _ => False | _ => True end →
  makes wf (new info member src) (λ _, True).
Proof.
  intros Hleaf.
  destruct info; try done; cbn -[Song.construct];
    apply makes_construct, makes_throw.
Qed.

Lemma new_makes_object (props : list (string * JSValue)) (member src : JSValue) :
  Forall (λ p, match p.2 with
               | JArr vs => Forall (λ v, ∀ member src,
                                      makes wf (new v member src) (λ _, True)) vs
               | _ => True
               end) props →
  makes wf (new (JObj props) member src) (λ _, True).
Proof.
  intros Hprops. cbn -[Song.construct String.eqb mapM].
  apply makes_construct.
  induction Hprops as [| [k v] props Hv _ IH]; [apply makes_throw |].
  cbn -[String.eqb mapM] in *.
  destruct (String.eqb "related_videos" k); [| exact IH].
  destruct v; try apply makes_throw.
  apply makes_bind_any; [| intros refs; apply makes_ret_any].
  apply makes_mapM. eapply Forall_impl; [exact Hv |].
  intros x Hx. apply Hx.
Qed.

(** The constructor leaves the objects of the heap as they are and creates
    only songs that satisfy [song_wf]. *)
Lemma new_makes (info member src : JSValue) :
  makes wf (new info member src) (λ _, True).
Proof.
  enough ((∀ member src, makes wf (new info member src) (λ _, True)) ∧
          match info with
          | JArr vs => Forall (λ v, ∀ member src,
                                 makes wf (new v member src) (λ _, True)) vs
          | _ => True
          end) as [H _] by apply H.
  clear member src. revert info.
  apply JSValue_deep_ind;
    try (split; [intros; by apply new_makes_leaf | done]).
  - intros l Hl. split; [intros; by apply new_makes_leaf |].
    eapply Forall_impl; [exact Hl | by intros ? []].
  - intros props Hprops. split; [| done]. intros. apply new_makes_object.
    eapply Forall_impl; [exact Hprops | by intros ? []].
Qed.

(** A returned reference is the one allocated last, on a heap that holds
    the objects there were. *)
Lemma construct_returned (map_related : M Heap JSValue) (info member src : JSValue)
    (h h' : Heap) (r : SongRef) :
  makes wf map_related (λ _, True) →
  construct map_related info member src h = Returned h' r →
  ∃ h1 s, h ⊆ h1 ∧ wf s ∧ r = fresh (dom h1) ∧ h' = <[r := s]> h1.
Proof.
  intros Hrel. unfold Song.construct.
  destruct src; try done.
  all: unfold bind at 1;
    pose proof (makes_patchMember wf member h) as Hmember;
    destruct (Song._patchMember member h) as [h0 mu | h0 e]; [| done];
    destruct Hmember as [[Hsub0 _] _].
  all: unfold bind at 1.
  all: match goal with
       | |- context [if ?b then _ else _] => destruct b eqn:Hsource
       end.
  all: match goal with
       | |- context [match ?m ?hh with _ => _ end] =>
           match type of Hsource with
           | _ = true =>
               pose proof (makes_patchYouTube wf map_related _ (mu.1) (mu.2) info
                             Hsource Hrel hh) as Hpatch
           | _ = false =>
               pose proof (makes_patchOther wf _ (mu.1) (mu.2) info Hsource hh)
                 as Hpatch
           end;
           destruct (m hh) as [h1 made | h1 e']; [| done]
       end.
  all: destruct Hpatch as [[Hsub1 _] Hwf].
  all: unfold Song.alloc; intros [= <- <-].
  all: exists h1, made; split; [by etrans | done].
Qed.

Lemma new_as_construct (info member src : JSValue) :
  ∃ map_related,
    new info member src = construct map_related info member src ∧
    makes wf map_related (λ _, True).
Proof.
  destruct info as [| | b | q | s | l | props | r].
  7: { let body := eval cbn -[Song.construct String.eqb mapM] in
                     (new (JObj props) member src) in
       lazymatch body with
       | Song.construct _ _ _ _ _ _ _ _ ?m _ _ _ => exists m
       end.
       split; [reflexivity |].
       induction props as [| [k v] props IH]; [apply makes_throw |].
       cbn -[String.eqb mapM].
       destruct (String.eqb "related_videos" k); [| exact IH].
       destruct v; try apply makes_throw.
       apply makes_bind_any; [| intros refs; apply makes_ret_any].
       apply makes_mapM, Forall_forall. intros x _. apply new_makes. }
  all: exists (throw (TypeError "info.related_videos.map is not a function"));
    (split; [reflexivity | apply makes_throw]).
Qed.

(** What a returning call of the constructor has done *)
Lemma new_returned (info member src : JSValue) (h h' : Heap) (r : SongRef) :
  new info member src h = Returned h' r →
  ∃ h1 s, h ⊆ h1 ∧ wf s ∧ h1 !! r = None ∧ h' = <[r := s]> h1 ∧ grows wf h h'.
Proof.
  intros Hnew.
  pose proof (new_makes info member src h) as Hgrows. rewrite Hnew in Hgrows.
  destruct Hgrows as [Hgrows _].
  destruct (new_as_construct info member src) as (m & Heq & Hm).
  rewrite Heq in Hnew.
  destruct (construct_returned _ _ _ _ _ _ _ Hm Hnew) as (h1 & s & Hsub & Hwf & -> & ->).
  exists h1, s. split; [done |]. split; [done |].
  split; [apply not_elem_of_dom, is_fresh |]. done.
Qed.

Lemma patchMember_run (member : JSValue) (h : Heap) :
  ∃ mu, Song._patchMember member h = Returned h mu.
Proof.
  unfold Song._patchMember, Song.get_opt, js_get_opt, js_get, bind.
  destruct member as [| | [] | q | s | | |]; cbn; try by eexists.
  - destruct (Qeq_bool q 0); cbn; by eexists.
  - destruct (String.eqb s ""); cbn; by eexists.
Qed.
End SongConstructionMore.

(** X19.  Of every song that [new Song(...)] creates, the formatted
    duration is "Live" when the song is live and [formatDuration] of its
    duration when it is not. *)
Theorem X19_formattedDuration
    (toSecond : JSValue → Q) (formatDuration : Q → string)
    (parseNumber : JSValue → Q) (toLowerCase : string → string)
    (toString : JSValue → string) (playError : JSValue → JSValue)
    (chooseFormat : JSValue → bool → JSError + JSValue)
    (sortByWidthDesc : list JSValue → JSError + list JSValue)
    (info member src : JSValue) (h h' : Heap) (r : SongRef) :
  Song.new toSecond formatDuration parseNumber toLowerCase toString playError
    chooseFormat sortByWidthDesc info member src h = Returned h' r →
  let formatted s :=
    Song.formattedDuration s =
      if Song.isLive s then "Live" else formatDuration (Song.duration s) in
  (∃ s, h' !! r = Some s ∧ formatted s) ∧
  (∀ r' s', h' !! r' = Some s' → h !! r' = Some s' ∨ formatted s').
Proof.
  intros Hnew formatted.
  destruct (new_returned _ _ _ _ _ _ _ _ _ _ _ _ _ _ Hnew)
    as (h1 & s & _ & Hwf & _ & -> & Hgrows).
  assert (Hfmt : ∀ s, song_wf formatDuration toString s → formatted s).
  { intros s0 (Hlive & Hrec & _). unfold formatted.
    destruct (Song.isLive s0); [by apply Hlive | by apply Hrec]. }
  split.
  - exists s. rewrite lookup_insert_eq. split; [done | by apply Hfmt].
  - intros r' s' Hs'. destruct Hgrows as [_ Hgrows].
    destruct (Hgrows r' s' Hs'); [by left | right; by apply Hfmt].
Qed.

Lemma X19_witness :
  ∃ h' r s,
    sample_new sample_other_info JUndefined (JStr "soundcloud") ∅ = Returned h' r ∧
    h' !! r = Some s ∧
    Song.formattedDuration s = if Song.isLive s then "Live" else "0:00".
Proof.
  assert (∃ h' r, sample_new sample_other_info JUndefined (JStr "soundcloud") ∅ =
                    Returned h' r) as (h' & r & Hnew)
    by (eexists _, _; vm_compute; reflexivity).
  destruct (X19_formattedDuration _ _ _ _ _ _ _ _ _ _ _ _ _ _ Hnew)
    as [(s & Hs & Hfmt) _].
  exists h', r, s. split; [exact Hnew |]. split; [exact Hs | exact Hfmt].
Defined.

(** X20.  A song that [new Song(...)] returns for the source "youtube" has
    the watch url of its id and no reposts; a song it returns for another
    source keeps no raw [info] and no stream url. *)
Theorem X20_source_fields
    (toSecond : JSValue → Q) (formatDuration : Q → string)
    (parseNumber : JSValue → Q) (toLowerCase : string → string)
    (toString : JSValue → string) (playError : JSValue → JSValue)
    (chooseFormat : JSValue → bool → JSError + JSValue)
    (sortByWidthDesc : list JSValue → JSError + list JSValue)
    (info member src : JSValue) (h h' : Heap) (r : SongRef) :
  Song.new toSecond formatDuration parseNumber toLowerCase toString playError
    chooseFormat sortByWidthDesc info member src h = Returned h' r →
  ∃ s, h' !! r = Some s ∧
    (String.eqb (Song.source s) "youtube" = true →
       Song.url s = JStr ("https://www.youtube.com/watch?v=" +:+ toString (Song.id s)) ∧
       Song.reposts s = 0%Q) ∧
    (String.eqb (Song.source s) "youtube" = false →
       Song.info s = JUndefined ∧ Song.streamURL s = JUndefined).
Proof.
  intros Hnew.
  destruct (new_returned _ _ _ _ _ _ _ _ _ _ _ _ _ _ Hnew)
    as (h1 & s & _ & (_ & _ & Hyt & Hother) & _ & -> & _).
  exists s. rewrite lookup_insert_eq. done.
Qed.

Lemma X20_witness :
  ∃ h' r s,
    sample_new sample_youtube_info JUndefined JUndefined ∅ = Returned h' r ∧
    h' !! r = Some s ∧
    (String.eqb (Song.source s) "youtube" = true →
     Song.url s = JStr ("https://www.youtube.com/watch?v=" +:+ "id")).
Proof.
  assert (∃ h' r, sample_new sample_youtube_info JUndefined JUndefined ∅ =
                    Returned h' r) as (h' & r & Hnew)
    by (eexists _, _; vm_compute; reflexivity).
  destruct (X20_source_fields _ _ _ _ _ _ _ _ _ _ _ _ _ _ Hnew)
    as (s & Hs & Hyt & _).
  exists h', r, s. split; [exact Hnew |]. split; [exact Hs |].
  intros Hsource. by destruct (Hyt Hsource).
Defined.

(** X21.  [new Song(...)] only creates objects: whether it returns or
    throws, the objects that were in the heap are there unchanged, and a
    returned song is an object that was not in the heap. *)
Theorem X21_new_only_allocates
    (toSecond : JSValue → Q) (formatDuration : Q → string)
    (parseNumber : JSValue → Q) (toLowerCase : string → string)
    (toString : JSValue → string) (playError : JSValue → JSValue)
    (chooseFormat : JSValue → bool → JSError + JSValue)
    (sortByWidthDesc : list JSValue → JSError + list JSValue)
    (info member src : JSValue) (h : Heap) :
  let run := Song.new toSecond formatDuration parseNumber toLowerCase toString
               playError chooseFormat sortByWidthDesc info member src h in
  (∀ r s, h !! r = Some s → final run !! r = Some s) ∧
  (∀ h' r, run = Returned h' r → h !! r = None ∧ is_Some (h' !! r)).
Proof.
  intros run. split.
  - intros r s Hs.
    pose proof (new_makes toSecond formatDuration parseNumber toLowerCase toString
                  playError chooseFormat sortByWidthDesc info member src h) as Hgrows.
    fold run in Hgrows.
    assert (h ⊆ final run) as Hsub by (destruct run; cbn; apply Hgrows).
    by eapply lookup_weaken.
  - intros h' r Hnew.
    destruct (new_returned _ _ _ _ _ _ _ _ _ _ _ _ _ _ Hnew)
      as (h1 & s & Hsub & _ & Hfresh & -> & _).
    split; [| rewrite lookup_insert_eq; by eexists].
    destruct (h !! r) as [s0 |] eqn:Hr; [| done].
    by rewrite (lookup_weaken _ _ _ _ Hr Hsub) in Hfresh.
Qed.

Lemma X21_witness :
  ∃ h' r,
    sample_new sample_other_info JUndefined (JStr "soundcloud") sample_heap =
      Returned h' r ∧
    sample_heap !! r = None ∧ is_Some (h' !! r).
Proof.
  assert (∃ h' r, sample_new sample_other_info JUndefined (JStr "soundcloud")
                    sample_heap = Returned h' r) as (h' & r & Hnew)
    by (eexists _, _; vm_compute; reflexivity).
  destruct (X21_new_only_allocates sample_toSecond (λ _, "0:00") sample_toSecond
              (λ s, s) (λ _, "id") (λ _, JNull) sample_chooseFormat (λ l, inr l)
              sample_other_info JUndefined (JStr "soundcloud") sample_heap)
    as [_ H].
  exists h', r. split; [exact Hnew | by apply H].
Defined.

Lemma get_object (props : list (string * JSValue)) (k : string) (h : Heap) :
  Song.get (JObj props) k h = Returned h (assoc k props).
Proof. reflexivity. Qed.

(** X22.  What [new Song(info, member, src)] refuses, each time leaving the
    heap as it was: a [src] that is given and is not a string; an [info]
    that is null or undefined; and, for the source "youtube", a full record
    for which [playError] reports an error (that error is thrown) or that
    has no format ("This video is unavailable"). *)
Theorem X22_new_rejects
    (toSecond : JSValue → Q) (formatDuration : Q → string)
    (parseNumber : JSValue → Q) (toLowerCase : string → string)
    (toString : JSValue → string) (playError : JSValue → JSValue)
    (chooseFormat : JSValue → bool → JSError + JSValue)
    (sortByWidthDesc : list JSValue → JSError + list JSValue)
    (member src : JSValue) (h : Heap) :
  let new := Song.new toSecond formatDuration parseNumber toLowerCase toString
               playError chooseFormat sortByWidthDesc in
  (source_argument src = None →
     ∀ info, new info member src h = Thrown h (TypeError "Source must be a string")) ∧
  (is_Some (source_argument src) →
     ∀ info, nullish info = true →
       ∃ msg, new info member src h = Thrown h (TypeError msg)) ∧
  (∀ s props,
     source_argument src = Some s →
     String.eqb (toLowerCase s) "youtube" = true →
     assoc "full" props = JBool true →
     (truthy (playError (assoc "player_response" props)) = true →
        new (JObj props) member src h =
          Thrown h (ThrownValue (playError (assoc "player_response" props)))) ∧
     (truthy (playError (assoc "player_response" props)) = false →
        no_formats (assoc "formats" props) →
        new (JObj props) member src h = Thrown h (Error "This video is unavailable"))).
Proof.
  intros new.
  destruct (patchMember_run member h) as [mu Hmember].
  split; [| split].
  - intros Hsrc info. unfold new.
    destruct info; destruct src; try done.
  - intros [s Hsrc] info Hinfo. unfold new.
    destruct info; try done; cbn -[Song.construct]; unfold Song.construct;
      (destruct src; try done); unfold bind at 1; rewrite Hmember;
      unfold bind at 1;
      match goal with
      | |- context [if ?b then _ else _] => destruct b
      end; by eexists.
  - intros s props Hsrc Hyt Hfull. unfold new.
    cbn -[Song.construct String.eqb mapM]. unfold Song.construct.
    assert (Hsource : String.eqb
              (toLowerCase match src with JStr s0 => s0 | _ => "youtube" end)
              "youtube" = true).
    { destruct src; try done; cbn in Hsrc; simplify_eq; exact Hyt. }
    split; intros Herr; [| intros Hformats].
    all: destruct src; try done; rewrite Hsource.
    all: unfold bind at 1; rewrite Hmember.
    all: unfold bind at 1; unfold Song._patchYouTube.
    all: unfold bind at 1; rewrite get_object, Hfull.
    all: unfold bind at 1; unfold bind at 1; rewrite get_object, Herr.
    1, 2: done.
    all: unfold bind at 1; rewrite get_object.
    all: destruct (assoc "formats" props) as [| | | | | [| ? ?] | |]; done.
Qed.

Lemma X22_witness :
  Song.new sample_toSecond (λ _, "0:00") sample_toSecond (λ s, s) (λ _, "id")
    (λ pr, assoc "playabilityStatus" [("playabilityStatus", pr)])
    sample_chooseFormat (λ l, inr l)
    (JObj [("full", JBool true); ("player_response", JStr "LOGIN_REQUIRED")])
    JUndefined (JStr "youtube") ∅ =
  Thrown ∅ (ThrownValue (JStr "LOGIN_REQUIRED")).
Proof.
  destruct (X22_new_rejects sample_toSecond (λ _, "0:00") sample_toSecond
              (λ s, s) (λ _, "id")
              (λ pr, assoc "playabilityStatus" [("playabilityStatus", pr)])
              sample_chooseFormat (λ l, inr l) JUndefined (JStr "youtube") ∅)
    as (_ & _ & H).
  destruct (H "youtube" [("full", JBool true); ("player_response", JStr "LOGIN_REQUIRED")])
    as [Hplay _]; [reflexivity | reflexivity | reflexivity |].
  apply Hplay. reflexivity.
Defined.

(** ** Rejected calls *)

Section Atomic.
Context {A B : Type}.














End Atomic.















